(** * ZK402: field arithmetic, permutation hash, Merkle tree, constraint
    engine and proof orchestration, embedded from the TypeScript sources.

    JavaScript [bigint] values are modelled by [Z]; the truncating
    operators [%] and [/] on [bigint] are [Z.rem] and [Z.quot].  A thrown
    exception is the [inr] (or [None]) result of the embedded function. *)

From Stdlib Require Import ZArith String Ascii List Bool Lia Znumtheory.
From Stdlib Require Import Zmod Zpow_facts.
From Equations Require Import Equations.
Import ListNotations.

Local Open Scope Z_scope.

(** * Part I: the embedding *)
(** ** utils/fieldMath.ts *)

Module FieldMath.

Definition FIELD_SIZE : Z :=
  21888242871839275222246405745257275088548364400416034343698204186575808495617.

Inductive FieldError : Set :=
  | NoInverse        (* 'Modular inverse does not exist' *)
  | NoSquareRoot     (* 'Square root does not exist in field' *)
  | NotImplemented.  (* 'General case not implemented' *)

(** [mod(a, m)]: the truncated remainder, shifted into [0, m) when negative. *)
Definition mod_ (a m : Z) : Z :=
  let result := Z.rem a m in
  if result >=? 0 then result else result + m.

(** The inner reductions of [addMod], [subMod] and [mulMod] call [mod] with
    one argument, hence always reduce by [FIELD_SIZE]. *)
Definition addMod (a b m : Z) : Z := mod_ (mod_ a FIELD_SIZE + mod_ b FIELD_SIZE) m.
Definition subMod (a b m : Z) : Z := mod_ (mod_ a FIELD_SIZE - mod_ b FIELD_SIZE) m.
Definition mulMod (a b m : Z) : Z := mod_ (mod_ a FIELD_SIZE * mod_ b FIELD_SIZE) m.

(** The [while (e > 0n)] loop of [powMod], on the triple [(result, b, e)]. *)
Equations? powMod_loop (result b e m : Z) : Z by wf (Z.to_nat e) lt :=
  powMod_loop result b e m with Z_gt_dec e 0 => {
    | left _ =>
        powMod_loop (if Z.rem e 2 =? 1 then mod_ (result * b) m else result)
                    (mod_ (b * b) m) (Z.quot e 2) m
    | right _ => result }.
Proof.
  assert (Z.quot e 2 < e) by (apply Z.quot_lt; lia).
  assert (0 <= Z.quot e 2) by (apply Z.quot_pos; lia).
  lia.
Qed.

Definition powMod (base exp m : Z) : Z :=
  if exp =? 0 then 1
  else if exp =? 1 then mod_ base m
  else powMod_loop 1 (mod_ base m) exp m.

(** [extendedGCD(a, b)] returns [(gcd, x, y)]; it recurses on [(b, a % b)]. *)
Equations? extendedGCD (a b : Z) : Z * Z * Z by wf (Z.abs_nat b) lt :=
  extendedGCD a b with Z.eq_dec b 0 => {
    | left _ => (a, 1, 0)
    | right _ =>
        match extendedGCD b (Z.rem a b) with
        | (gcd, x1, y1) => (gcd, y1, x1 - Z.quot a b * y1)
        end }.
Proof.
  pose proof (Z.rem_bound_abs a b ltac:(assumption)). lia.
Qed.

Definition invMod (a m : Z) : Z + FieldError :=
  match extendedGCD (mod_ a m) m with
  | (gcd, x, _) => if negb (gcd =? 1) then inr NoInverse else inl (mod_ x m)
  end.

Definition divMod (a b m : Z) : Z + FieldError :=
  match invMod b m with
  | inl i => inl (mulMod a i m)
  | inr e => inr e
  end.

Definition isQuadraticResidue (a p : Z) : bool :=
  if a =? 0 then true
  else
    let exp := Z.quot (p - 1) 2 in
    powMod a exp p =? 1.

Definition sqrtMod (a p : Z) : Z + FieldError :=
  if negb (isQuadraticResidue a p) then inr NoSquareRoot
  else if Z.rem p 4 =? 3 then
    let exp := Z.quot (p + 1) 4 in
    inl (powMod a exp p)
  else inr NotImplemented.

Definition isInField (value : Z) : bool :=
  (value >=? 0) && (value <? FIELD_SIZE).

(** [randomFieldElement]: the 32 bytes filled by [crypto.getRandomValues]
    are an argument; they are read most significant byte first. *)
Definition randomFieldElement (bytes : list Z) : Z :=
  let result :=
    fold_left (fun result byte => Z.lor (Z.shiftl result 8) byte) bytes 0 in
  mod_ result FIELD_SIZE.

(** [toBigIntLE(bytes)]: the loop runs from the last byte down to the
    first.  A [Uint8Array] holds integers in [0, 256). *)
Definition toBigIntLE (bytes : list Z) : Z :=
  fold_left (fun result byte => Z.lor (Z.shiftl result 8) byte) (rev bytes) 0.

(** The loop of [fromBigIntLE] from the running value [v], for the
    [length] bytes still to write. *)
Fixpoint fromBigIntLE_loop (v : Z) (length : nat) : list Z :=
  match length with
  | O => []
  | S length' => Z.land v 0xFF :: fromBigIntLE_loop (Z.shiftr v 8) length'
  end.

Definition fromBigIntLE (value : Z) (length : nat) : list Z :=
  fromBigIntLE_loop value length.

End FieldMath.

(** ** crypto/poseidon.ts *)

(** In-range array assignment [l[i] = v].  Every assignment embedded in this
    file writes inside the array bounds. *)
Fixpoint set_at {A : Type} (i : nat) (v : A) (l : list A) : list A :=
  match l, i with
  | [], _ => []
  | _ :: t, O => v :: t
  | x :: t, S i' => x :: set_at i' v t
  end.

Module Poseidon.

Definition FIELD_SIZE : Z := FieldMath.FIELD_SIZE.

Definition t : nat := 6.
Definition nRoundsF : nat := 8.
Definition nRoundsP : nat := 57.

(** [mod(a)] with the default modulus. *)
Definition mod_ (a : Z) : Z := FieldMath.mod_ a FIELD_SIZE.

Definition pow5 (x : Z) : Z :=
  let x2 := mod_ (x * x) in
  let x4 := mod_ (x2 * x2) in
  mod_ (x4 * x).

(** The source writes the multiplier of the round constants as the number
    literal [0x30644e72e131a029b85045b68181585d]; a number is a binary64
    double, so [BigInt] receives the nearest double, [0x30644e72e131a0 * 2^72]. *)
Definition round_constant_step : Z := 0x30644e72e131a0 * 2 ^ 72.

(** [initializeConstants]: the flat constant array [C] and the matrix [M]. *)
Definition C : list Z :=
  map (fun i => Z.of_nat (i + 1) * round_constant_step)
      (seq 0 ((nRoundsF + nRoundsP) * t)).

Definition M : list (list Z) :=
  map (fun i => map (fun j => Z.of_nat ((i + 1) * (j + 1))) (seq 0 t)) (seq 0 t).

Definition ark (state : list Z) (round : nat) : list Z :=
  fold_left
    (fun newState i =>
       set_at i (mod_ (nth i newState 0 + nth (round * t + i) C 0)) newState)
    (seq 0 t) state.

Definition sbox (state : list Z) (round : nat) (fullRound : bool) : list Z :=
  if fullRound then
    fold_left (fun newState i => set_at i (pow5 (nth i newState 0)) newState)
              (seq 0 t) state
  else set_at 0 (pow5 (nth 0 state 0)) state.

Definition mix (state : list Z) : list Z :=
  fold_left
    (fun newState i =>
       fold_left
         (fun newState j =>
            set_at i (mod_ (nth i newState 0
                            + mod_ (nth j (nth i M []) 0 * nth j state 0)))
                   newState)
         (seq 0 t) newState)
    (seq 0 t) (repeat 0 t).

(** The input loop [for (i = 0; i < inputs.length && i < t - 1; i++)
    state[i + 1] = mod(inputs[i])]; [inputs] is the part of the array from
    index [i] on. *)
Fixpoint absorb (inputs : list Z) (i : nat) (state : list Z) : list Z :=
  match inputs with
  | [] => state
  | x :: rest =>
      if (i <? t - 1)%nat then absorb rest (S i) (set_at (i + 1) (mod_ x) state)
      else state
  end.

Definition round (fullRound : bool) (state : list Z) (r : nat) : list Z :=
  mix (sbox (ark state r) r fullRound).

Definition hash (inputs : list Z) : Z :=
  let state := absorb inputs 0 (repeat 0 t) in
  let halfRoundsF := (nRoundsF / 2)%nat in
  let state := fold_left (round true) (seq 0 halfRoundsF) state in
  let state := fold_left (fun s r => round false s (halfRoundsF + r)) (seq 0 nRoundsP) state in
  let state :=
    fold_left (fun s r => round true s (halfRoundsF + nRoundsP + r))
              (seq 0 halfRoundsF) state in
  nth 0 state 0.

(** [poseidonHash] and the closure returned by [buildPoseidon] both call
    [hash] on the one shared instance, whose constants never change. *)
Definition poseidonHash (inputs : list Z) : Z := hash inputs.

End Poseidon.

(** ** circuits/paymentCircuit.ts *)

Module Circuit.

Record CircuitConstraints : Type := {
  A : list (list Z);
  B : list (list Z);
  C : list (list Z)
}.

(** The signal store is a JavaScript [Map]: [set] overwrites the value of a
    present key in place and appends an absent key, so that iteration
    follows first insertion. *)
Fixpoint map_set (name : string) (value : Z) (m : list (string * Z)) :
  list (string * Z) :=
  match m with
  | [] => [(name, value)]
  | (k, v) :: rest =>
      if String.eqb k name then (k, value) :: rest
      else (k, v) :: map_set name value rest
  end.

Fixpoint map_get (name : string) (m : list (string * Z)) : option Z :=
  match m with
  | [] => None
  | (k, v) :: rest => if String.eqb k name then Some v else map_get name rest
  end.

Record PaymentCircuit : Type := {
  signals : list (string * Z);
  constraints : CircuitConstraints
}.

Inductive CircuitError : Set :=
  | SignalNotFound          (* 'Signal ... not found' *)
  | OutOfRange              (* 'Signal ... is out of range' *)
  | MultiplicationMismatch. (* 'Multiplication constraint failed' *)

Definition empty_constraints : CircuitConstraints :=
  {| A := []; B := []; C := [] |}.

(** [new PaymentCircuit()]: empty stores, then [initializeCircuit]. *)
Definition new : PaymentCircuit :=
  {| signals := map_set "one" 1 []; constraints := empty_constraints |}.

Definition setSignal (name : string) (value : Z) (c : PaymentCircuit) :
  PaymentCircuit :=
  {| signals := map_set name value (signals c); constraints := constraints c |}.

Definition getSignal (name : string) (c : PaymentCircuit) : option Z :=
  map_get name (signals c).

Definition defineConstraint (a b c : list Z) (pc : PaymentCircuit) :
  PaymentCircuit :=
  {| signals := signals pc;
     constraints :=
       {| A := A (constraints pc) ++ [a];
          B := B (constraints pc) ++ [b];
          C := C (constraints pc) ++ [c] |} |}.

Definition verifyRangeProof (value min max : Z) : bool :=
  (value >=? min) && (value <=? max).

Definition addRangeConstraint (signal : string) (min max : Z)
  (pc : PaymentCircuit) : PaymentCircuit + CircuitError :=
  match map_get signal (signals pc) with
  | None => inr SignalNotFound
  | Some value =>
      if negb (verifyRangeProof value min max) then inr OutOfRange
      else inl (defineConstraint [value] [1] [value] pc)
  end.

Definition addEqualityConstraint (signal1 signal2 : string)
  (pc : PaymentCircuit) : PaymentCircuit + CircuitError :=
  match map_get signal1 (signals pc), map_get signal2 (signals pc) with
  | Some value1, Some value2 => inl (defineConstraint [value1] [1] [value2] pc)
  | _, _ => inr SignalNotFound
  end.

Definition addMultiplicationConstraint (signal1 signal2 resultSignal : string)
  (pc : PaymentCircuit) : PaymentCircuit + CircuitError :=
  match map_get signal1 (signals pc), map_get signal2 (signals pc),
        map_get resultSignal (signals pc) with
  | Some value1, Some value2, Some result =>
      let computed := value1 * value2 in
      if negb (computed =? result) then inr MultiplicationMismatch
      else inl (defineConstraint [value1] [value2] [result] pc)
  | _, _, _ => inr SignalNotFound
  end.

(** [xs.reduce((acc, val) => acc + val, BigInt(0))] *)
Definition sum (xs : list Z) : Z := fold_left (fun acc val => acc + val) xs 0.

(** The loop of [verifyCircuit] over [i = 0 .. A.length - 1]; the three
    arguments are the parts of the arrays from index [i] on.  [None] is an
    exception raised inside the [try] block ([reduce] on a missing row). *)
Fixpoint verifyCircuit_loop (As Bs Cs : list (list Z)) : option bool :=
  match As with
  | [] => Some true
  | a :: As' =>
      match Bs, Cs with
      | b :: Bs', c :: Cs' =>
          if negb (sum a * sum b =? sum c) then Some false
          else verifyCircuit_loop As' Bs' Cs'
      | _, _ => None
      end
  end.

Definition verifyCircuit (pc : PaymentCircuit) : bool :=
  match verifyCircuit_loop (A (constraints pc)) (B (constraints pc))
                           (C (constraints pc)) with
  | Some r => r
  | None => false (* catch *)
  end.

Definition generateWitness (pc : PaymentCircuit) : list Z :=
  map snd (signals pc).

Definition reset (pc : PaymentCircuit) : PaymentCircuit := new.

(** The circuits a client can build through the public methods. *)
Inductive reachable : PaymentCircuit -> Prop :=
  | reach_new : reachable new
  | reach_setSignal name value pc :
      reachable pc -> reachable (setSignal name value pc)
  | reach_defineConstraint a b c pc :
      reachable pc -> reachable (defineConstraint a b c pc)
  | reach_addRangeConstraint signal min max pc pc' :
      reachable pc -> addRangeConstraint signal min max pc = inl pc' ->
      reachable pc'
  | reach_addEqualityConstraint s1 s2 pc pc' :
      reachable pc -> addEqualityConstraint s1 s2 pc = inl pc' ->
      reachable pc'
  | reach_addMultiplicationConstraint s1 s2 r pc pc' :
      reachable pc -> addMultiplicationConstraint s1 s2 r pc = inl pc' ->
      reachable pc'
  | reach_reset pc : reachable pc -> reachable (reset pc).

(** The recorded constraint triples, in recording order. *)
Definition recorded (pc : PaymentCircuit) : list (list Z * (list Z * list Z)) :=
  combine (A (constraints pc)) (combine (B (constraints pc)) (C (constraints pc))).

End Circuit.

(** ** utils/merkleTree.ts

    Leaf and node hashes are the 0x-prefixed hexadecimal strings of 32-byte
    values.  The node hash
    [ethers.keccak256(ethers.solidityPacked(['bytes32','bytes32'], [left, right]))]
    belongs to the ethers library; the tree code is embedded over an
    arbitrary [hashPair], which stands for it on such strings. *)

(** [ethers.ZeroHash] *)
Definition ZeroHash : string :=
  "0x0000000000000000000000000000000000000000000000000000000000000000".

Module MerkleTree.

(** The [depth] field is a JavaScript number.  The constructor can store
    [-Infinity] in it ([Math.log2(0)]); explicit depths are natural
    numbers. *)
Inductive depth_t : Set :=
  | NegInfinity
  | Depth (d : nat).

(** [Math.ceil(Math.log2(n))] for an array length [n]. *)
Definition ceil_log2 (n : nat) : depth_t :=
  match n with
  | O => NegInfinity
  | _ => Depth (Nat.log2_up n)
  end.

(** Truthiness of a number: only [0] (and [NaN]) is falsy. *)
Definition truthy (d : depth_t) : bool :=
  match d with
  | Depth O => false
  | _ => true
  end.

(** [2 ** depth] *)
Definition pow2 (d : depth_t) : nat :=
  match d with
  | NegInfinity => 0
  | Depth d => 2 ^ d
  end.

(** [depth || Math.ceil(Math.log2(leaves.length)) || 1] *)
Definition initial_depth (depth : option nat) (n : nat) : depth_t :=
  match depth with
  | Some (S d) => Depth (S d)
  | _ => if truthy (ceil_log2 n) then ceil_log2 n else Depth 1
  end.

Inductive MerkleError : Set :=
  | IndexOutOfBounds.  (* 'Index out of bounds' *)

Record MerkleTree : Type := {
  leaves : list string;
  layers : list (list string);
  depth : depth_t
}.

Section WithHash.

Variable hashPair : string -> string -> string.

(** [while (currentLayer.length < 2 ** this.depth) currentLayer.push(ZeroHash)] *)
Equations? pad (currentLayer : list string) (d : depth_t) : list string
  by wf (pow2 d - length currentLayer)%nat lt :=
  pad currentLayer d with lt_dec (length currentLayer) (pow2 d) => {
    | left _ => pad (currentLayer ++ [ZeroHash]) d
    | right _ => currentLayer }.
Proof. rewrite length_app. cbn. lia. Qed.

(** One pass of the [for (i = 0; i < currentLayer.length; i += 2)] loop:
    adjacent nodes are hashed in pairs, a last unpaired node with itself. *)
Fixpoint nextLayer (currentLayer : list string) : list string :=
  match currentLayer with
  | [] => []
  | [left_] => [hashPair left_ left_]
  | left_ :: right_ :: rest => hashPair left_ right_ :: nextLayer rest
  end.

Lemma nextLayer_length (l : list string) :
  length (nextLayer l) = Nat.div2 (S (length l)).
Proof.
  induction l as [l IH] using (well_founded_induction
                                  (Wf_nat.well_founded_ltof _ (@length string))).
  destruct l as [| x [| y rest]]; try reflexivity.
  cbn [nextLayer length]. rewrite IH by (unfold Wf_nat.ltof; cbn; lia).
  reflexivity.
Qed.

Lemma nextLayer_shorter (l : list string) :
  (1 < length l)%nat -> (length (nextLayer l) < length l)%nat.
Proof.
  intros H. rewrite nextLayer_length, Nat.div2_div.
  apply Nat.Div0.div_lt_upper_bound. lia.
Qed.

(** [while (currentLayer.length > 1)]: the layers pushed above
    [currentLayer], bottom-up. *)
Equations? buildLayers (currentLayer : list string) : list (list string)
  by wf (length currentLayer) lt :=
  buildLayers currentLayer with lt_dec 1 (length currentLayer) => {
    | left _ => nextLayer currentLayer :: buildLayers (nextLayer currentLayer)
    | right _ => [] }.
Proof. now apply nextLayer_shorter. Qed.

(** [buildTree] pushes onto [this.layers], which the constructor has just
    set to the empty array. *)
Definition buildTree (t : MerkleTree) : MerkleTree :=
  let currentLayer := pad (leaves t) (depth t) in
  {| leaves := leaves t;
     layers := layers t ++ currentLayer :: buildLayers currentLayer;
     depth := depth t |}.

Definition new (leaves : list string) (depth : option nat) : MerkleTree :=
  buildTree {| leaves := leaves;
               layers := [];
               depth := initial_depth depth (length leaves) |}.

(** [this.layers[this.layers.length - 1][0]]; [None] is [undefined]. *)
Definition getRoot (t : MerkleTree) : option string :=
  nth_error (last (layers t) []) 0.

(** The loop of [getProof] over the layers below the top one. *)
Fixpoint getProof_loop (layers : list (list string)) (currentIndex : Z)
  (proof : list string) : list string :=
  match layers with
  | [] => proof
  | layer :: rest =>
      let isRightNode := Z.rem currentIndex 2 =? 1 in
      let siblingIndex := if isRightNode then currentIndex - 1 else currentIndex + 1 in
      let proof :=
        if siblingIndex <? Z.of_nat (length layer)
        then proof ++ [nth (Z.to_nat siblingIndex) layer EmptyString]
        else proof in
      getProof_loop rest (currentIndex / 2) proof
  end.

Definition getProof (t : MerkleTree) (index : Z) : list string + MerkleError :=
  if (index <? 0) || (index >=? Z.of_nat (length (leaves t)))
  then inr IndexOutOfBounds
  else inl (getProof_loop (removelast (layers t)) index []).

Fixpoint verifyProof_loop (proof : list string) (currentHash : string)
  (currentIndex : Z) : string :=
  match proof with
  | [] => currentHash
  | proofElement :: rest =>
      let currentHash :=
        if Z.rem currentIndex 2 =? 0 then hashPair currentHash proofElement
        else hashPair proofElement currentHash in
      verifyProof_loop rest currentHash (currentIndex / 2)
  end.

(** The static [verifyProof(leaf, proof, root, index)]. *)
Definition verifyProof (leaf : string) (proof : list string) (root : string)
  (index : Z) : bool :=
  String.eqb (verifyProof_loop proof leaf index) root.

(** The loop of [getProofWithPositions]; it differs from [getProof] by the
    second array only. *)
Fixpoint getProofWithPositions_loop (layers : list (list string))
  (currentIndex : Z) (proof : list string) (positions : list bool) :
  list string * list bool :=
  match layers with
  | [] => (proof, positions)
  | layer :: rest =>
      let isRightNode := Z.rem currentIndex 2 =? 1 in
      let siblingIndex := if isRightNode then currentIndex - 1 else currentIndex + 1 in
      let (proof, positions) :=
        if siblingIndex <? Z.of_nat (length layer)
        then (proof ++ [nth (Z.to_nat siblingIndex) layer EmptyString],
              positions ++ [isRightNode])
        else (proof, positions) in
      getProofWithPositions_loop rest (currentIndex / 2) proof positions
  end.

Definition getProofWithPositions (t : MerkleTree) (index : Z) :
  (list string * list bool) + MerkleError :=
  if (index <? 0) || (index >=? Z.of_nat (length (leaves t)))
  then inr IndexOutOfBounds
  else inl (getProofWithPositions_loop (removelast (layers t)) index [] []).

(** The loop of [verifyProofWithPositions]; [positions] is the part of the
    array from index [i] on, and a missing entry ([undefined]) is falsy. *)
Fixpoint verifyProofWithPositions_loop (proof : list string)
  (positions : list bool) (currentHash : string) : string :=
  match proof with
  | [] => currentHash
  | proofElement :: rest =>
      let isRight := match positions with b :: _ => b | [] => false end in
      let currentHash :=
        if isRight then hashPair proofElement currentHash
        else hashPair currentHash proofElement in
      verifyProofWithPositions_loop rest (tl positions) currentHash
  end.

(** The static [verifyProofWithPositions(leaf, proof, positions, root)]. *)
Definition verifyProofWithPositions (leaf : string) (proof : list string)
  (positions : list bool) (root : string) : bool :=
  String.eqb (verifyProofWithPositions_loop proof positions leaf) root.

(** [addLeaf]: the leaf is pushed and [buildTree] runs again on the same
    [layers] array; the result is the new leaf's index. *)
Definition addLeaf (leaf : string) (t : MerkleTree) : MerkleTree * Z :=
  let t' := buildTree {| leaves := leaves t ++ [leaf];
                         layers := layers t;
                         depth := depth t |} in
  (t', Z.of_nat (length (leaves t')) - 1).

(** In-range array assignment [l[i] = v]. *)
Fixpoint assign (i : nat) (v : string) (l : list string) : list string :=
  match l, i with
  | [], _ => []
  | _ :: rest, O => v :: rest
  | x :: rest, S i' => x :: assign i' v rest
  end.

Definition updateLeaf (index : Z) (newLeaf : string) (t : MerkleTree) :
  MerkleTree + MerkleError :=
  if (index <? 0) || (index >=? Z.of_nat (length (leaves t)))
  then inr IndexOutOfBounds
  else inl (buildTree {| leaves := assign (Z.to_nat index) newLeaf (leaves t);
                         layers := layers t;
                         depth := depth t |}).

Definition getLeaves (t : MerkleTree) : list string := leaves t.

Definition getDepth (t : MerkleTree) : depth_t := depth t.

Inductive LayerError : Set :=
  | LayerIndexOutOfBounds.  (* 'Layer index out of bounds' *)

Definition getLayer (t : MerkleTree) (layerIndex : Z) : list string + LayerError :=
  if (layerIndex <? 0) || (layerIndex >=? Z.of_nat (length (layers t)))
  then inr LayerIndexOutOfBounds
  else inl (nth (Z.to_nat layerIndex) (layers t) []).

End WithHash.
End MerkleTree.

(** ** core/x402Protocol.ts, the Merkle reduction of the orchestrator *)

Module X402Merkle.
Section WithHash.

Variable hashPair : string -> string -> string.

(** The [for] loop of [computeMerkleRoot] that fills [newLevel]. *)
Fixpoint newLevel (leaves : list string) : list string :=
  match leaves with
  | [] => []
  | [left_] => [hashPair left_ left_]
  | left_ :: right_ :: rest => hashPair left_ right_ :: newLevel rest
  end.

Lemma newLevel_shorter (l : list string) :
  (1 < length l)%nat -> (length (newLevel l) < length l)%nat.
Proof. exact (MerkleTree.nextLayer_shorter hashPair l). Qed.

Equations? computeMerkleRoot (leaves : list string) : string
  by wf (length leaves) lt :=
  computeMerkleRoot [] := ZeroHash;
  computeMerkleRoot [leaf] := leaf;
  computeMerkleRoot (left_ :: right_ :: rest) :=
    computeMerkleRoot (newLevel (left_ :: right_ :: rest)).
Proof.
  pose proof (newLevel_shorter (left_ :: right_ :: rest)) as H.
  cbn in H. cbn. lia.
Qed.

Fixpoint verifyMerkleProof_loop (proof : list string) (currentHash : string)
  (currentIndex : Z) : string :=
  match proof with
  | [] => currentHash
  | proofElement :: rest =>
      let currentHash :=
        if Z.rem currentIndex 2 =? 0 then hashPair currentHash proofElement
        else hashPair proofElement currentHash in
      verifyMerkleProof_loop rest currentHash (currentIndex / 2)
  end.

Definition verifyMerkleProof (leaf : string) (proof : list string)
  (root : string) (index : Z) : bool :=
  String.eqb (verifyMerkleProof_loop proof leaf index) root.

(** One pass of the inner [for] loop of [createMerkleProof] from position
    [i]: the sibling of the node at [currentIndex] is pushed when its pair
    is met. *)
Fixpoint sibling_pass (currentLevel : list string) (i currentIndex : Z)
  (proof : list string) : list string :=
  match currentLevel with
  | [] => proof
  | [left_] =>
      let right_ := left_ in
      if (i =? currentIndex) || (i + 1 =? currentIndex)
      then proof ++ [if i =? currentIndex then right_ else left_]
      else proof
  | left_ :: right_ :: rest =>
      let proof :=
        if (i =? currentIndex) || (i + 1 =? currentIndex)
        then proof ++ [if i =? currentIndex then right_ else left_]
        else proof in
      sibling_pass rest (i + 2) currentIndex proof
  end.

(** The [while (currentLevel.length > 1)] loop of [createMerkleProof]. *)
Equations? createMerkleProof_loop (currentLevel : list string)
  (currentIndex : Z) (proof : list string) : list string
  by wf (length currentLevel) lt :=
  createMerkleProof_loop currentLevel currentIndex proof
    with lt_dec 1 (length currentLevel) => {
    | left _ =>
        createMerkleProof_loop (newLevel currentLevel) (currentIndex / 2)
          (sibling_pass currentLevel 0 currentIndex proof)
    | right _ => proof }.
Proof. now apply newLevel_shorter. Qed.

Definition createMerkleProof (leaves : list string) (leafIndex : Z) : list string :=
  createMerkleProof_loop leaves leafIndex [].

End WithHash.
End X402Merkle.

(** ** A reference implementation of the ethers hashing collaborator

    Keccak-256 over byte lists (bytes are integers in [0, 256)) and the
    hexadecimal codec of ethers, used to evaluate the embedded code on
    concrete inputs. *)

Module Keccak.

Definition mask64 : Z := Z.ones 64.

Definition rotl64 (v n : Z) : Z :=
  Z.land (Z.lor (Z.shiftl v n) (Z.shiftr v (64 - n))) mask64.

Definition RC : list Z :=
  [0x0000000000000001; 0x0000000000008082; 0x800000000000808A;
   0x8000000080008000; 0x000000000000808B; 0x0000000080000001;
   0x8000000080008081; 0x8000000000008009; 0x000000000000008A;
   0x0000000000000088; 0x0000000080008009; 0x000000008000000A;
   0x000000008000808B; 0x800000000000008B; 0x8000000000008089;
   0x8000000000008003; 0x8000000000008002; 0x8000000000000080;
   0x000000000000800A; 0x800000008000000A; 0x8000000080008081;
   0x8000000000008080; 0x0000000080000001; 0x8000000080008008].

(** Rotation offsets, by lane index [x + 5 y]. *)
Definition rho_offsets : list Z :=
  [0; 1; 62; 28; 27; 36; 44; 6; 55; 20; 3; 10; 43; 25; 39; 41; 45; 15; 21; 8;
   18; 2; 61; 56; 14].

(** For each lane of the result of pi, the lane it is moved from. *)
Definition pi_source : list nat :=
  [0; 6; 12; 18; 24; 3; 9; 10; 16; 22; 1; 7; 13; 19; 20; 4; 5; 11; 17; 23;
   2; 8; 14; 15; 21]%nat.

Definition lane (st : list Z) (i : nat) : Z := nth i st 0.

Definition round (st : list Z) (rc : Z) : list Z :=
  let c := map (fun x => Z.lxor (lane st x)
                           (Z.lxor (lane st (x + 5))
                              (Z.lxor (lane st (x + 10))
                                 (Z.lxor (lane st (x + 15)) (lane st (x + 20))))))
               (seq 0 5) in
  let d := map (fun x => Z.lxor (lane c ((x + 4) mod 5))
                                (rotl64 (lane c ((x + 1) mod 5)) 1))
               (seq 0 5) in
  let a := map (fun i => Z.lxor (lane st i) (lane d (i mod 5))) (seq 0 25) in
  let b := map (fun j => let s := nth j pi_source O in
                         rotl64 (lane a s) (nth s rho_offsets 0))
               (seq 0 25) in
  let chi := map (fun i =>
                    let row := (5 * (i / 5))%nat in
                    Z.lxor (lane b i)
                      (Z.land (Z.lxor (lane b ((i mod 5 + 1) mod 5 + row)) mask64)
                              (lane b ((i mod 5 + 2) mod 5 + row))))
                 (seq 0 25) in
  set_at 0 (Z.lxor (lane chi 0) rc) chi.

Definition keccak_f (st : list Z) : list Z := fold_left round RC st.

Definition rate : nat := 136.

(** Little-endian value of a byte list. *)
Fixpoint le_value (bytes : list Z) : Z :=
  match bytes with
  | [] => 0
  | b :: rest => b + 256 * le_value rest
  end.

Fixpoint le_bytes (n : nat) (v : Z) : list Z :=
  match n with
  | O => []
  | S n' => (v mod 256) :: le_bytes n' (v / 256)
  end.

Definition block_lanes (block : list Z) : list Z :=
  map (fun i => le_value (firstn 8 (skipn (8 * i) block))) (seq 0 25).

Definition absorb_block (st block : list Z) : list Z :=
  keccak_f (map (fun i => Z.lxor (lane st i) (lane (block_lanes block) i)) (seq 0 25)).

Fixpoint absorb (blocks : nat) (st data : list Z) : list Z :=
  match blocks with
  | O => st
  | S n => absorb n (absorb_block st (firstn rate data)) (skipn rate data)
  end.

(** Keccak padding: a 1 bit, zeros, and a final 1 bit, up to the rate. *)
Definition pad (data : list Z) : list Z :=
  let fill := (rate - 1 - length data mod rate)%nat in
  match fill with
  | O => data ++ [0x81]
  | S k => data ++ [0x01] ++ repeat 0 k ++ [0x80]
  end.

Definition keccak256 (data : list Z) : list Z :=
  let padded := pad data in
  let st := absorb (length padded / rate) (repeat 0 25) padded in
  concat (map (fun i => le_bytes 8 (lane st i)) (seq 0 4)).

(** *** Hexadecimal strings *)

Definition hex_digit (n : Z) : ascii :=
  nth (Z.to_nat n)
      (list_ascii_of_string "0123456789abcdef") "0"%char.

Definition hex_value (c : ascii) : option Z :=
  let n := Z.of_nat (nat_of_ascii c) in
  if (48 <=? n) && (n <=? 57) then Some (n - 48)
  else if (97 <=? n) && (n <=? 102) then Some (n - 87)
  else if (65 <=? n) && (n <=? 70) then Some (n - 55)
  else None.

Fixpoint hex_of_bytes (bytes : list Z) : string :=
  match bytes with
  | [] => EmptyString
  | b :: rest =>
      String (hex_digit (b / 16)) (String (hex_digit (b mod 16)) (hex_of_bytes rest))
  end.

(** [ethers.hexlify] *)
Definition hexlify (bytes : list Z) : string :=
  String "0" (String "x" (hex_of_bytes bytes)).

Fixpoint bytes_of_hex (s : string) : option (list Z) :=
  match s with
  | EmptyString => Some []
  | String hi (String lo rest) =>
      match hex_value hi, hex_value lo, bytes_of_hex rest with
      | Some h, Some l, Some bs => Some ((16 * h + l) :: bs)
      | _, _, _ => None
      end
  | String _ EmptyString => None
  end.

(** [ethers.getBytes] on a string: [None] when ethers throws. *)
Definition getBytes (s : string) : option (list Z) :=
  match s with
  | String "0" (String "x" digits) => bytes_of_hex digits
  | _ => None
  end.

(** [toUtf8Bytes] on strings of 7-bit characters. *)
Definition toUtf8Bytes (s : string) : list Z :=
  map (fun c => Z.of_nat (nat_of_ascii c)) (list_ascii_of_string s).

(** [ethers.keccak256(ethers.solidityPacked(['bytes32','bytes32'], [left, right]))];
    ethers throws unless both arguments are 32-byte hexadecimal strings, a
    case the empty string stands for here. *)
Definition hashPair (left_ right_ : string) : string :=
  match getBytes left_, getBytes right_ with
  | Some l, Some r =>
      if ((length l =? 32) && (length r =? 32))%nat
      then hexlify (keccak256 (l ++ r))
      else EmptyString
  | _, _ => EmptyString
  end.

End Keccak.

(** ** JavaScript values and conversions used by the proof code

    [JSON.parse], property reads and [BigInt(...)] act on arbitrary parsed
    values; the TypeScript type [Proof] is not checked at run time.  Strings
    are sequences of code units below 256.  In the option-valued functions
    of this part [None] is a thrown exception. *)

Notation "x <- e ;; k" :=
  (match e with Some x => k | None => None end)
  (at level 61, e at next level, k at level 200, right associativity).

Module JS.

(** A number is a binary64 double: [m * 2^e], or an infinity
    ([JSON.parse] yields no NaN). *)
Inductive number : Set :=
  | Finite (m e : Z)
  | Infinite (negative : bool).

#[local] Unset Elimination Schemes.
Inductive value : Type :=
  | Undefined
  | Null
  | Bool (b : bool)
  | Num (n : number)
  | Str (s : string)
  | Arr (items : list value)
  | Obj (fields : list (string * value)).
#[local] Set Elimination Schemes.

(** The integer a number is equal to, if any. *)
Definition number_to_integer (n : number) : option Z :=
  match n with
  | Finite m e =>
      if 0 <=? e then Some (m * 2 ^ e)
      else if m mod 2 ^ (- e) =? 0 then Some (m / 2 ^ (- e))
      else None
  | Infinite _ => None
  end.

Definition of_nat (n : nat) : value := Num (Finite (Z.of_nat n) 0).

(** Property keys: a name, or an array index (the key spelled as the
    decimal numeral of the index). *)
Inductive key : Set :=
  | Name (s : string)
  | Index (i : nat).

Definition code (c : ascii) : Z := Z.of_nat (nat_of_ascii c).

Definition digit_char (d : Z) : ascii := ascii_of_nat (Z.to_nat (48 + d)).

(** Decimal digits, most significant first. *)
Fixpoint decimal_digits (fuel : nat) (n : Z) (acc : list ascii) : list ascii :=
  match fuel with
  | O => acc
  | S fuel' =>
      let acc' := digit_char (n mod 10) :: acc in
      if n <? 10 then acc' else decimal_digits fuel' (n / 10) acc'
  end.

Definition decimal (n : Z) : list ascii :=
  decimal_digits (S (Z.to_nat (Z.log2 n))) n [].

(** [BigInt.prototype.toString()] *)
Definition BigInt_toString (z : Z) : string :=
  if z <? 0 then String "-" (string_of_list_ascii (decimal (- z)))
  else string_of_list_ascii (decimal z).

Definition key_string (k : key) : string :=
  match k with
  | Name s => s
  | Index i => BigInt_toString (Z.of_nat i)
  end.

(** The own property [name] of a parsed object; of duplicate members
    [JSON.parse] keeps the last. *)
Definition own_property (name : string) (fields : list (string * value)) :
  option value :=
  fold_left (fun found kv => if String.eqb (fst kv) name then Some (snd kv) else found)
            fields None.

Definition or_undefined (v : option value) : value :=
  match v with Some x => x | None => Undefined end.

(** [v[k]], for the keys the proof code reads ([protocol], [pi_a], [pi_b],
    [pi_c], [length], [0], [1]), none of which is inherited from a built-in
    prototype.  Reading a property of [undefined] or [null] throws. *)
Definition get (v : value) (k : key) : option value :=
  match v with
  | Undefined | Null => None
  | Bool _ | Num _ => Some Undefined
  | Str s =>
      match k with
      | Name name =>
          if String.eqb name "length" then Some (of_nat (String.length s))
          else Some Undefined
      | Index i =>
          match String.get i s with
          | Some c => Some (Str (String c EmptyString))
          | None => Some Undefined
          end
      end
  | Arr items =>
      match k with
      | Name name =>
          if String.eqb name "length" then Some (of_nat (length items))
          else Some Undefined
      | Index i => Some (or_undefined (nth_error items i))
      end
  | Obj fields => Some (or_undefined (own_property (key_string k) fields))
  end.

(** [v === 'literal'] *)
Definition strict_eq_string (v : value) (literal : string) : bool :=
  match v with
  | Str s => String.eqb s literal
  | _ => false
  end.

(** [v === n] for an integer literal [n] *)
Definition strict_eq_integer (v : value) (n : Z) : bool :=
  match v with
  | Num x => match number_to_integer x with Some z => z =? n | None => false end
  | _ => false
  end.

(** *** [StringToBigInt] *)

(** White space and line terminators below code 256. *)
Definition is_whitespace (c : ascii) : bool :=
  let n := code c in
  ((9 <=? n) && (n <=? 13)) || (n =? 32) || (n =? 160).

Definition digit_value (c : ascii) : option Z :=
  let n := code c in
  if (48 <=? n) && (n <=? 57) then Some (n - 48)
  else if (97 <=? n) && (n <=? 122) then Some (n - 87)
  else if (65 <=? n) && (n <=? 90) then Some (n - 55)
  else None.

Definition is_digit (base : Z) (c : ascii) : bool :=
  match digit_value c with
  | Some d => d <? base
  | None => false
  end.

Definition digits_value (base : Z) (digits : list ascii) : Z :=
  fold_left
    (fun acc c => acc * base + match digit_value c with Some d => d | None => 0 end)
    digits 0.

(** A non-empty run of digits of the given base. *)
Definition parse_digits (base : Z) (digits : list ascii) : option Z :=
  match digits with
  | [] => None
  | _ => if forallb (is_digit base) digits then Some (digits_value base digits) else None
  end.

Fixpoint drop_whitespace (l : list ascii) : list ascii :=
  match l with
  | [] => []
  | c :: rest => if is_whitespace c then drop_whitespace rest else l
  end.

Definition trim (l : list ascii) : list ascii :=
  rev (drop_whitespace (rev (drop_whitespace l))).

(** The base announced by a [0x], [0o] or [0b] prefix, with the digits
    after it. *)
Definition radix_prefix (l : list ascii) : option (Z * list ascii) :=
  match l with
  | c0 :: c1 :: digits =>
      if code c0 =? 48 then
        if (code c1 =? 120) || (code c1 =? 88) then Some (16, digits)
        else if (code c1 =? 111) || (code c1 =? 79) then Some (8, digits)
        else if (code c1 =? 98) || (code c1 =? 66) then Some (2, digits)
        else None
      else None
  | _ => None
  end.

(** [BigInt(s)] on a string: white space is trimmed, the empty string is
    0, then either a prefixed unsigned literal or an optionally signed
    decimal one; anything else is a SyntaxError. *)
Definition StringToBigInt (s : string) : option Z :=
  let l := trim (list_ascii_of_string s) in
  match l with
  | [] => Some 0
  | c :: rest =>
      match radix_prefix l with
      | Some (base, digits) => parse_digits base digits
      | None =>
          if code c =? 43 then parse_digits 10 rest
          else if code c =? 45 then option_map Z.opp (parse_digits 10 rest)
          else parse_digits 10 l
      end
  end.

Definition has_own_property (name : string) (fields : list (string * value)) : bool :=
  match own_property name fields with Some _ => true | None => false end.

Section Conversions.

(** [Number.prototype.toString()], a built-in. *)
Variable Number_toString : number -> string.

(** [ToString(v)], as [Array.prototype.join] applies it to the elements of
    an array ([undefined] and [null] elements give the empty string).  A
    parsed object has no callable [toString] of its own: it inherits the
    one printing [[object Object]], unless a member named [toString] hides
    it, and then the conversion throws. *)
Fixpoint to_string (v : value) : option string :=
  match v with
  | Undefined => Some "undefined"%string
  | Null => Some "null"%string
  | Bool b => Some (if b then "true" else "false")%string
  | Num n => Some (Number_toString n)
  | Str s => Some s
  | Arr items =>
      (fix join (l : list value) : option string :=
         match l with
         | [] => Some EmptyString
         | x :: rest =>
             sx <- match x with
                   | Undefined | Null => Some EmptyString
                   | _ => to_string x
                   end ;;
             match rest with
             | [] => Some sx
             | _ => srest <- join rest ;; Some (sx ++ "," ++ srest)%string
             end
         end) items
  | Obj fields =>
      if has_own_property "toString" fields then None
      else Some "[object Object]"%string
  end.

(** [BigInt(v)] *)
Definition BigInt (v : value) : option Z :=
  match v with
  | Undefined | Null => None
  | Bool b => Some (if b then 1 else 0)
  | Num n => number_to_integer n
  | Str s => StringToBigInt s
  | Arr _ | Obj _ => s <- to_string v ;; StringToBigInt s
  end.

End Conversions.
End JS.

(** ** proofs/zkSnark.ts and core/x402Protocol.ts *)

Record Proof : Type := {
  pi_a : list string;
  pi_b : list (list string);
  pi_c : list string;
  protocol : string;
  curve : string
}.

(** The members of [ProofInput] that [calculateWitness] reads; a member is
    [None] when the caller's object lacks it. *)
Record ProofInput : Type := {
  input_amount : option string;
  input_nullifier : option string;
  input_commitment : option string;
  input_secret : option string;
  input_from : option string;
  input_to : option string
}.

Record PrivateTransaction : Type := {
  encryptedAmount : string;
  proof : string;
  nullifier : string;
  commitment : string;
  publicInputs : list string
}.

(** The collaborators outside the repository: the ethers hashing and
    packing functions, the Web Crypto encryption behind [encryptAmount],
    and the built-ins [JSON.parse], [JSON.stringify] and
    [Number.prototype.toString]. *)
Class Collaborators : Type := {
  (** [ethers.keccak256(ethers.solidityPacked(['address','string'], [address, secret]))] *)
  keccak256_address_string : string -> string -> option string;
  (** [ethers.keccak256(ethers.solidityPacked(['address','uint256','bytes32'],
      [recipient, amount, nullifier]))] *)
  keccak256_address_uint256_bytes32 : string -> Z -> string -> option string;
  (** [ethers.keccak256(ethers.toUtf8Bytes(secret))] *)
  keccak256_utf8 : string -> string;
  encryptAmount : string -> string -> option string;
  JSON_parse : string -> option JS.value;
  JSON_stringify : JS.value -> string;
  Number_toString : JS.number -> string
}.

Module ZKSnark.
Section WithCollaborators.
Context {collaborators : Collaborators}.

Definition BigInt (v : JS.value) : option Z := JS.BigInt Number_toString v.

(** A string is truthy when it is not empty. *)
Definition present (field : option string) : option string :=
  match field with
  | Some EmptyString => None
  | _ => field
  end.

(** One [if (inputs.f) witness.push(BigInt(convert(inputs.f)))] step. *)
Definition push_field (convert : string -> string) (field : option string)
  (witness : list Z) : option (list Z) :=
  match present field with
  | Some s => z <- JS.StringToBigInt (convert s) ;; Some (witness ++ [z])
  | None => Some witness
  end.

Definition calculateWitness (inputs : ProofInput) : option (list Z) :=
  let witness := [1] in
  witness <- push_field id (input_amount inputs) witness ;;
  witness <- push_field id (input_nullifier inputs) witness ;;
  witness <- push_field id (input_commitment inputs) witness ;;
  witness <- push_field keccak256_utf8 (input_secret inputs) witness ;;
  witness <- push_field id (input_from inputs) witness ;;
  push_field id (input_to inputs) witness.

(** [witness[i]?.toString() || fallback] *)
Definition element_string (witness : list Z) (i : nat) (fallback : string) : string :=
  match nth_error witness i with
  | Some z => JS.BigInt_toString z
  | None => fallback
  end.

(** [createProof]: the permutation hash reduces its inputs with [%], which
    throws on an absent ([undefined]) element. *)
Definition createProof (witness : list Z) : option Proof :=
  w1 <- nth_error witness 1 ;;
  w2 <- nth_error witness 2 ;;
  Some {| pi_a := [element_string witness 1 "0"; element_string witness 2 "0"; "1"];
          pi_b := [[element_string witness 3 "0"; element_string witness 4 "0"];
                   [element_string witness 5 "0"; element_string witness 6 "0"];
                   ["1"; "0"]];
          pi_c := [element_string witness 0 "1";
                   JS.BigInt_toString (Poseidon.poseidonHash [w1; w2]);
                   "1"];
          protocol := "groth16";
          curve := "bn128" |}%string.

Definition strings (l : list string) : JS.value := JS.Arr (map JS.Str l).

(** The object [JSON.stringify] receives, members in creation order. *)
Definition Proof_value (p : Proof) : JS.value :=
  JS.Obj [("pi_a", strings (pi_a p));
          ("pi_b", JS.Arr (map strings (pi_b p)));
          ("pi_c", strings (pi_c p));
          ("protocol", JS.Str (protocol p));
          ("curve", JS.Str (curve p))]%string.

Definition serializeProof (p : Proof) : string := JSON_stringify (Proof_value p).

(** The proof object that [generateProof] serialises. *)
Definition generateProofObject (inputs : ProofInput) : option Proof :=
  witness <- calculateWitness inputs ;;
  createProof witness.

Definition generateProof (inputs : ProofInput) : option string :=
  p <- generateProofObject inputs ;;
  Some (serializeProof p).

(** [x.length === 3] *)
Definition length_is_3 (x : JS.value) : option bool :=
  len <- JS.get x (JS.Name "length") ;;
  Some (JS.strict_eq_integer len 3).

(** [publicInputs.every(input => BigInt(input) > 0n)]; [every] stops at
    the first input the callback rejects. *)
Fixpoint every_positive (publicInputs : list string) : option bool :=
  match publicInputs with
  | [] => Some true
  | input :: rest =>
      inputBigInt <- JS.StringToBigInt input ;;
      if inputBigInt >? 0 then every_positive rest else Some false
  end.

(** The body of the [try] block of [verifyProof]. *)
Definition verifyProof_try (proofStr : string) (publicInputs : list string) :
  option bool :=
  proof <- JSON_parse proofStr ;;
  protocol <- JS.get proof (JS.Name "protocol") ;;
  if negb (JS.strict_eq_string protocol "groth16") then Some false
  else
    pi_a <- JS.get proof (JS.Name "pi_a") ;;
    a3 <- length_is_3 pi_a ;;
    isValidStructure <-
      (if a3 then
         pi_b <- JS.get proof (JS.Name "pi_b") ;;
         b3 <- length_is_3 pi_b ;;
         if b3 then
           pi_c <- JS.get proof (JS.Name "pi_c") ;;
           length_is_3 pi_c
         else Some false
       else Some false) ;;
    if negb isValidStructure then Some false
    else
      pi_a <- JS.get proof (JS.Name "pi_a") ;;
      a0 <- JS.get pi_a (JS.Index 0) ;;
      a0 <- BigInt a0 ;;
      pi_a <- JS.get proof (JS.Name "pi_a") ;;
      a1 <- JS.get pi_a (JS.Index 1) ;;
      a1 <- BigInt a1 ;;
      let computedHash := Poseidon.poseidonHash [a0; a1] in
      pi_c <- JS.get proof (JS.Name "pi_c") ;;
      c1 <- JS.get pi_c (JS.Index 1) ;;
      expectedHash <- BigInt c1 ;;
      let hashesMatch := computedHash =? expectedHash in
      publicInputsValid <- every_positive publicInputs ;;
      Some (isValidStructure && hashesMatch && publicInputsValid).

(** [verifyProof]: any exception of the [try] block is caught and turned
    into [false]. *)
Definition verifyProof (proofStr : string) (publicInputs : list string) : bool :=
  match verifyProof_try proofStr publicInputs with
  | Some result => result
  | None => false
  end.

End WithCollaborators.
End ZKSnark.

Module X402Protocol.
Section WithCollaborators.
Context {collaborators : Collaborators}.

Definition generateNullifier (address secret : string) : option string :=
  keccak256_address_string address secret.

Definition generateCommitment (recipient : string) (amount : Z)
  (nullifier : string) : option string :=
  keccak256_address_uint256_bytes32 recipient amount nullifier.


(** [verifyPrivateTransaction]: [verifyProof] does not throw, so the
    [catch] branch of this method is never entered. *)
Definition verifyPrivateTransaction (privateTransaction : PrivateTransaction) : bool :=
  let isValid := ZKSnark.verifyProof (proof privateTransaction)
                                     (publicInputs privateTransaction) in
  isValid.

(** The node hash of [computeMerkleRoot],
    [ethers.keccak256(ethers.solidityPacked(['bytes32','bytes32'], [left, right]))]. *)
Variable hashPair : string -> string -> string.

(** [batchTransactions]: the object handed to [generateProof] has the
    members [transactions] and [merkleRoot] only, none of which
    [calculateWitness] reads. *)
Definition batchTransactions (transactions : list PrivateTransaction) :
  option (string * string) :=
  let commitments := map commitment transactions in
  let batchRoot := X402Merkle.computeMerkleRoot hashPair commitments in
  batchProof <- ZKSnark.generateProof
                  {| input_from := None;
                     input_to := None;
                     input_amount := None;
                     input_nullifier := None;
                     input_commitment := None;
                     input_secret := None |} ;;
  Some (batchProof, batchRoot).

End WithCollaborators.
End X402Protocol.

(** ** Reference collaborators

    Executable stand-ins for the collaborators, used to run the embedded
    code on concrete transactions: Keccak-256 with the packed encodings of
    ethers, and a JSON printer and parser for texts made of objects,
    arrays, strings, literals and integers below 2^53 (no fractions or
    exponents, no code units above 255).  The ciphertext returned for
    [encryptAmount] is a fixed string; verification never reads it. *)

Module Reference.

Definition quote : ascii := ascii_of_nat 34.
Definition backslash : ascii := ascii_of_nat 92.

(** *** ethers *)

Definition is_lower_hex (c : ascii) : bool :=
  let n := JS.code c in
  ((48 <=? n) && (n <=? 57)) || ((97 <=? n) && (n <=? 102)).

(** The 20 bytes of a lower-case, 0x-prefixed address. *)
Definition address_bytes (address : string) : option (list Z) :=
  match address with
  | String "0" (String "x" digits) =>
      if forallb is_lower_hex (list_ascii_of_string digits)
      then bytes <- Keccak.bytes_of_hex digits ;;
           if (length bytes =? 20)%nat then Some bytes else None
      else None
  | _ => None
  end.

Definition bytes32 (s : string) : option (list Z) :=
  bytes <- Keccak.getBytes s ;;
  if (length bytes =? 32)%nat then Some bytes else None.

(** Big-endian 32-byte encoding of a [uint256]. *)
Definition uint256_bytes (n : Z) : option (list Z) :=
  if (0 <=? n) && (n <? 2 ^ 256) then Some (rev (Keccak.le_bytes 32 n)) else None.

Definition keccak256_address_string (address secret : string) : option string :=
  a <- address_bytes address ;;
  Some (Keccak.hexlify (Keccak.keccak256 (a ++ Keccak.toUtf8Bytes secret))).

Definition keccak256_address_uint256_bytes32 (recipient : string) (amount : Z)
  (nullifier : string) : option string :=
  a <- address_bytes recipient ;;
  n <- uint256_bytes amount ;;
  h <- bytes32 nullifier ;;
  Some (Keccak.hexlify (Keccak.keccak256 (a ++ n ++ h))).

Definition keccak256_utf8 (secret : string) : string :=
  Keccak.hexlify (Keccak.keccak256 (Keccak.toUtf8Bytes secret)).

Definition encryptAmount (amount secret : string) : option string :=
  Some "0x00"%string.

(** *** Numbers *)

Definition Number_toString (n : JS.number) : string :=
  match n with
  | JS.Infinite negative => if negative then "-Infinity" else "Infinity"
  | JS.Finite _ _ =>
      match JS.number_to_integer n with
      | Some z => JS.BigInt_toString z
      | None => "NaN"
      end
  end%string.

(** *** JSON.stringify *)

Definition escape_char (c : ascii) : list ascii :=
  let n := JS.code c in
  if n =? 34 then [backslash; quote]
  else if n =? 92 then [backslash; backslash]
  else if n =? 8 then [backslash; "b"%char]
  else if n =? 12 then [backslash; "f"%char]
  else if n =? 10 then [backslash; "n"%char]
  else if n =? 13 then [backslash; "r"%char]
  else if n =? 9 then [backslash; "t"%char]
  else if n <? 32 then
    [backslash; "u"%char; "0"%char; "0"%char;
     Keccak.hex_digit (n / 16); Keccak.hex_digit (n mod 16)]
  else [c].

Definition quoted (s : string) : list ascii :=
  quote :: concat (map escape_char (list_ascii_of_string s)) ++ [quote].

Fixpoint join (sep : list ascii) (parts : list (list ascii)) : list ascii :=
  match parts with
  | [] => []
  | [p] => p
  | p :: rest => p ++ sep ++ join sep rest
  end.

Fixpoint stringify (v : JS.value) : list ascii :=
  match v with
  | JS.Undefined | JS.Null => list_ascii_of_string "null"
  | JS.Bool b => list_ascii_of_string (if b then "true" else "false")
  | JS.Num n => list_ascii_of_string (Number_toString n)
  | JS.Str s => quoted s
  | JS.Arr items =>
      "["%char :: join [","%char] (map stringify items) ++ ["]"%char]
  | JS.Obj fields =>
      "{"%char ::
      join [","%char]
        ((fix members (l : list (string * JS.value)) : list (list ascii) :=
            match l with
            | [] => []
            | (k, JS.Undefined) :: rest => members rest
            | (k, x) :: rest => (quoted k ++ ":"%char :: stringify x) :: members rest
            end) fields)
      ++ ["}"%char]
  end.

Definition JSON_stringify (v : JS.value) : string :=
  string_of_list_ascii (stringify v).

(** *** JSON.parse *)

Definition is_json_space (c : ascii) : bool :=
  let n := JS.code c in
  (n =? 32) || (n =? 9) || (n =? 10) || (n =? 13).

Fixpoint skip_ws (l : list ascii) : list ascii :=
  match l with
  | c :: rest => if is_json_space c then skip_ws rest else l
  | [] => []
  end.

Definition hex2 (h l : ascii) : option ascii :=
  hv <- Keccak.hex_value h ;;
  lv <- Keccak.hex_value l ;;
  Some (ascii_of_nat (Z.to_nat (16 * hv + lv))).

(** The characters of a string literal after its opening quote, up to the
    closing quote; [acc] holds the decoded characters, last first. *)
Fixpoint parse_string (l acc : list ascii) : option (string * list ascii) :=
  match l with
  | [] => None
  | c :: rest =>
      if JS.code c =? 34 then Some (string_of_list_ascii (rev acc), rest)
      else if JS.code c =? 92 then
        match rest with
        | e :: rest' =>
            let n := JS.code e in
            if n =? 34 then parse_string rest' (quote :: acc)
            else if n =? 92 then parse_string rest' (backslash :: acc)
            else if n =? 47 then parse_string rest' ("/"%char :: acc)
            else if n =? 98 then parse_string rest' (ascii_of_nat 8 :: acc)
            else if n =? 102 then parse_string rest' (ascii_of_nat 12 :: acc)
            else if n =? 110 then parse_string rest' (ascii_of_nat 10 :: acc)
            else if n =? 114 then parse_string rest' (ascii_of_nat 13 :: acc)
            else if n =? 116 then parse_string rest' (ascii_of_nat 9 :: acc)
            else if n =? 117 then
              match rest' with
              | h1 :: h2 :: h3 :: h4 :: rest'' =>
                  if (JS.code h1 =? 48) && (JS.code h2 =? 48) then
                    match hex2 h3 h4 with
                    | Some ch => parse_string rest'' (ch :: acc)
                    | None => None
                    end
                  else None
              | _ => None
              end
            else None
        | [] => None
        end
      else if JS.code c <? 32 then None
      else parse_string rest (c :: acc)
  end.

Fixpoint take_digits (l : list ascii) : list ascii * list ascii :=
  match l with
  | c :: rest =>
      if JS.is_digit 10 c then
        let (ds, rest') := take_digits rest in (c :: ds, rest')
      else ([], l)
  | [] => ([], [])
  end.

Definition starts_fraction (l : list ascii) : bool :=
  match l with
  | c :: _ => (JS.code c =? 46) || (JS.code c =? 101) || (JS.code c =? 69)
  | [] => false
  end.

(** An integer literal: no leading zero, below 2^53, and not continued by
    a fraction or an exponent. *)
Definition parse_integer (negative : bool) (l : list ascii) :
  option (JS.value * list ascii) :=
  let (ds, rest) := take_digits l in
  match ds with
  | [] => None
  | d :: more =>
      if (JS.code d =? 48) && negb (match more with [] => true | _ => false end)
      then None
      else if starts_fraction rest then None
      else
        let n := JS.digits_value 10 ds in
        if n <? 2 ^ 53
        then Some (JS.Num (JS.Finite (if negative then - n else n) 0), rest)
        else None
  end.

Fixpoint strip_prefix (prefix l : list ascii) : option (list ascii) :=
  match prefix, l with
  | [], _ => Some l
  | p :: prefix', c :: l' => if Ascii.eqb p c then strip_prefix prefix' l' else None
  | _ :: _, [] => None
  end.

Definition parse_literal (l : list ascii) : option (JS.value * list ascii) :=
  match strip_prefix (list_ascii_of_string "true") l with
  | Some rest => Some (JS.Bool true, rest)
  | None =>
      match strip_prefix (list_ascii_of_string "false") l with
      | Some rest => Some (JS.Bool false, rest)
      | None =>
          match strip_prefix (list_ascii_of_string "null") l with
          | Some rest => Some (JS.Null, rest)
          | None =>
              match l with
              | c :: rest =>
                  if JS.code c =? 45 then parse_integer true rest
                  else parse_integer false l
              | [] => None
              end
          end
      end
  end.

Fixpoint parse_value (fuel : nat) (l : list ascii) : option (JS.value * list ascii) :=
  match fuel with
  | O => None
  | S fuel' =>
      match skip_ws l with
      | [] => None
      | c :: rest =>
          if JS.code c =? 123 then
            match skip_ws rest with
            | c' :: rest' =>
                if JS.code c' =? 125 then Some (JS.Obj [], rest')
                else parse_members fuel' rest []
            | [] => None
            end
          else if JS.code c =? 91 then
            match skip_ws rest with
            | c' :: rest' =>
                if JS.code c' =? 93 then Some (JS.Arr [], rest')
                else parse_elements fuel' rest []
            | [] => None
            end
          else if JS.code c =? 34 then
            r <- parse_string rest [] ;;
            Some (JS.Str (fst r), snd r)
          else parse_literal (c :: rest)
      end
  end
with parse_elements (fuel : nat) (l : list ascii) (acc : list JS.value) :
  option (JS.value * list ascii) :=
  match fuel with
  | O => None
  | S fuel' =>
      r <- parse_value fuel' l ;;
      match skip_ws (snd r) with
      | c :: rest =>
          if JS.code c =? 44 then parse_elements fuel' rest (acc ++ [fst r])
          else if JS.code c =? 93 then Some (JS.Arr (acc ++ [fst r]), rest)
          else None
      | [] => None
      end
  end
with parse_members (fuel : nat) (l : list ascii) (acc : list (string * JS.value)) :
  option (JS.value * list ascii) :=
  match fuel with
  | O => None
  | S fuel' =>
      match skip_ws l with
      | c :: rest =>
          if JS.code c =? 34 then
            k <- parse_string rest [] ;;
            match skip_ws (snd k) with
            | c' :: rest' =>
                if JS.code c' =? 58 then
                  r <- parse_value fuel' rest' ;;
                  match skip_ws (snd r) with
                  | c'' :: rest'' =>
                      if JS.code c'' =? 44
                      then parse_members fuel' rest'' (acc ++ [(fst k, fst r)])
                      else if JS.code c'' =? 125
                      then Some (JS.Obj (acc ++ [(fst k, fst r)]), rest'')
                      else None
                  | [] => None
                  end
                else None
            | [] => None
            end
          else None
      | [] => None
      end
  end.

Definition JSON_parse (s : string) : option JS.value :=
  let l := list_ascii_of_string s in
  r <- parse_value (S (length l)) l ;;
  match skip_ws (snd r) with
  | [] => Some (fst r)
  | _ :: _ => None
  end.

#[export] Instance collaborators : Collaborators :=
  Build_Collaborators
    keccak256_address_string keccak256_address_uint256_bytes32 keccak256_utf8
    encryptAmount JSON_parse JSON_stringify Number_toString.

End Reference.

(** ** Primality certificates

    The inverse and Fermat properties of the field need [FIELD_SIZE] to be
    prime.  Small primes are certified by trial division; large ones by
    Pocklington's criterion over a partial factorisation of [N - 1]. *)

Module Primality.

(** *** Trial division *)

Fixpoint no_divisor_from (n d : Z) (fuel : nat) : bool :=
  match fuel with
  | O => true
  | S fuel' =>
      if d * d >? n then true
      else negb (n mod d =? 0) && no_divisor_from n (d + 1) fuel'
  end.

Definition trial_prime (n : Z) : bool :=
  (1 <? n) && no_divisor_from n 2 (Z.to_nat (Z.sqrt n)).

(** *** Pocklington certificates: a witness [a] and a list of prime powers
    [(q, e)] dividing [N - 1]. *)

Definition prime_power (qe : Z * nat) : Z := fst qe ^ Z.of_nat (snd qe).

Definition factored_part (cert : list (Z * nat)) : Z :=
  fold_right (fun qe acc => prime_power qe * acc) 1 cert.

Definition factor_ok (N a : Z) (qe : Z * nat) : bool :=
  let Q := prime_power qe in
  let m := (N - 1) / Q in
  (0 <? Z.of_nat (snd qe)) && ((N - 1) mod Q =? 0) &&
  (Z.gcd (Zpow_mod a (fst qe ^ (Z.of_nat (snd qe) - 1) * m) N - 1) N =? 1).

Fixpoint pairwise_coprime (cert : list (Z * nat)) : bool :=
  match cert with
  | [] => true
  | qe :: rest =>
      (Z.gcd (prime_power qe) (factored_part rest) =? 1) && pairwise_coprime rest
  end.

Definition pocklington_check (N a : Z) (cert : list (Z * nat)) : bool :=
  (1 <? N) && (Zpow_mod a (N - 1) N =? 1) &&
  forallb (factor_ok N a) cert && pairwise_coprime cert &&
  (N <? (factored_part cert + 1) * (factored_part cert + 1)).

End Primality.

(** * Part II: properties *)

Module PrimalityFacts.
Import Primality.

Lemma no_divisor_from_sound (n : Z) :
  forall fuel d, no_divisor_from n d fuel = true ->
    forall x, d <= x < d + Z.of_nat fuel -> 0 < d -> x * x <= n -> ~ (x | n).
Proof.
  induction fuel as [| fuel IH]; intros d Hchk x Hx Hd Hsq.
  - lia.
  - cbn [no_divisor_from] in Hchk.
    destruct (Z.gtb_spec (d * d) n) as [Hbig | Hsmall].
    + nia.
    + apply andb_prop in Hchk. destruct Hchk as [Hnd Hrest].
      destruct (Z.eq_dec x d) as [-> | Hne].
      * intros Hdiv. apply Z.mod_divide in Hdiv; [| lia].
        rewrite Hdiv in Hnd. discriminate.
      * apply (IH (d + 1) Hrest); lia.
Qed.

Lemma trial_prime_sound (n : Z) : trial_prime n = true -> Z.prime n.
Proof.
  unfold trial_prime. intros H. apply andb_prop in H. destruct H as [H1 Hnd].
  apply Z.ltb_lt in H1. split; [assumption |].
  intros k Hk [c Hc].
  assert (Hcpos : 1 < c) by nia.
  pose proof (Z.sqrt_spec n ltac:(lia)) as Hs.
  assert (Hmin : forall x, 2 <= x -> x * x <= n -> ~ (x | n)).
  { intros x Hx Hxx.
    apply (no_divisor_from_sound n _ 2 Hnd); try lia.
    rewrite Z2Nat.id by apply Z.sqrt_nonneg.
    assert (x <= Z.sqrt n) by (apply Z.sqrt_le_square; lia). lia. }
  destruct (Z.le_ge_cases k c).
  - apply (Hmin k); [lia | nia | exists c; assumption].
  - apply (Hmin c); [lia | nia | exists k; lia].
Qed.

(** Every integer above 1 has a prime divisor. *)
Lemma prime_divisor_exists : forall n, 1 < n -> exists r, Z.prime r /\ (r | n).
Proof.
  intros n Hn. assert (Hn0 : 0 <= n) by lia. revert Hn.
  pattern n. apply Z_lt_induction; [| exact Hn0].
  clear n Hn0. intros n IH Hn.
  destruct (prime_dec n) as [Hp | Hnp].
  - exists n. split; [now apply prime_alt | apply Z.divide_refl].
  - destruct (not_prime_divide n Hn Hnp) as [d [Hd Hdiv]].
    destruct (IH d ltac:(lia) ltac:(lia)) as [r [Hr Hrd]].
    exists r. split; [assumption | now apply Z.divide_trans with d].
Qed.

Lemma pow_mod_one (b k r : Z) :
  1 < r -> 0 <= k -> b mod r = 1 -> b ^ k mod r = 1.
Proof.
  intros Hr Hk Hb. rewrite Zpower_mod by lia. rewrite Hb, Z.pow_1_l by lia.
  apply Z.mod_small. lia.
Qed.

(** Exponents at which [b] is congruent to 1 are closed under gcd. *)
Lemma pow_gcd_one (b r : Z) (Hr : 1 < r) :
  forall n, 0 <= n -> forall m, 0 <= m ->
    b ^ m mod r = 1 -> b ^ n mod r = 1 -> b ^ Z.gcd m n mod r = 1.
Proof.
  intros n Hn. generalize Hn. pattern n. apply Z_lt_induction; [| exact Hn].
  clear n Hn. intros n IH Hn m Hm Hbm Hbn.
  destruct (Z.eq_dec n 0) as [-> | Hnz].
  - rewrite Z.gcd_0_r, Z.abs_eq by assumption. assumption.
  - pose proof (Z.mod_pos_bound m n ltac:(lia)) as Hmb.
    replace (Z.gcd m n) with (Z.gcd n (m mod n))
      by (rewrite (Z.gcd_comm n), Z.gcd_mod by assumption; apply Z.gcd_comm).
    apply IH; try lia; try assumption.
    pose proof (Z.div_mod m n Hnz) as Hdm.
    assert (0 <= m / n) by (apply Z.div_pos; lia).
    rewrite Hdm, Z.pow_add_r, Z.pow_mul_r in Hbm by lia.
    rewrite <- Z.mul_mod_idemp_l in Hbm by lia.
    rewrite (pow_mod_one (b ^ n) (m / n) r Hr ltac:(lia) Hbn) in Hbm.
    now rewrite Z.mul_1_l in Hbm.
Qed.

(** A divisor of a prime power [q^(e+1)] is the whole power or divides [q^e]. *)
Lemma prime_power_divisor (q : Z) (Hq : Z.prime q) :
  forall e d, 0 <= d -> (d | q ^ Z.of_nat (S e)) ->
    (q ^ Z.of_nat (S e) | d) \/ (d | q ^ Z.of_nat e).
Proof.
  pose proof (Z.prime_ge_2 q Hq) as Hq2.
  induction e as [| e IH]; intros d Hd Hdiv.
  - change (Z.of_nat 1) with 1 in *. rewrite Z.pow_1_r in *.
    change (Z.of_nat 0) with 0. rewrite Z.pow_0_r.
    destruct (Z.divide_prime_r d q Hq Hdiv) as [-> | [-> | [-> | ->]]];
      try lia.
    + right. apply Z.divide_refl.
    + left. apply Z.divide_refl.
  - rewrite (Nat2Z.inj_succ (S e)), Z.pow_succ_r in * by lia.
    destruct (Z.BoolSpec_divide q d) as [[c ->] | Hnd].
    + assert (Hc : 0 <= c) by nia.
      rewrite (Z.mul_comm q) in Hdiv.
      apply Z.mul_divide_cancel_r in Hdiv; [| lia].
      destruct (IH c Hc Hdiv) as [Hl | Hr].
      * left. rewrite (Z.mul_comm q). now apply Z.mul_divide_mono_r.
      * right. rewrite (Nat2Z.inj_succ e), Z.pow_succ_r by lia.
        rewrite (Z.mul_comm q). now apply Z.mul_divide_mono_r.
    + right. apply Z.gauss with q; [assumption |].
      rewrite Z.gcd_comm. now apply Z.coprime_prime_l.
Qed.

(** If [b^(q^(e+1))] is 1 modulo a prime [r] but [b^(q^e)] is not, then
    [q^(e+1)] divides [r - 1]. *)
Lemma prime_power_order (r q b : Z) (e : nat) :
  Z.prime r -> Z.prime q ->
  b ^ (q ^ Z.of_nat (S e)) mod r = 1 ->
  b ^ (q ^ Z.of_nat e) mod r <> 1 ->
  (q ^ Z.of_nat (S e) | r - 1).
Proof.
  intros Hr Hq H1 Hn1.
  pose proof (Z.prime_ge_2 r Hr) as Hr2.
  pose proof (Z.prime_ge_2 q Hq) as Hq2.
  assert (HQ : 0 < q ^ Z.of_nat (S e)) by (apply Z.pow_pos_nonneg; lia).
  assert (HQ' : 0 < q ^ Z.of_nat e) by (apply Z.pow_pos_nonneg; lia).
  assert (Hb : b mod r <> 0).
  { intros Hb0. rewrite Zpower_mod, Hb0, Z.pow_0_l, Z.mod_0_l in H1 by lia.
    discriminate. }
  pose proof (Z.fermat_nz r b Hr Hb) as Hf.
  set (d := Z.gcd (q ^ Z.of_nat (S e)) (r - 1)).
  assert (Hbd : b ^ d mod r = 1) by (apply pow_gcd_one; lia || assumption).
  assert (Hd0 : 0 <= d) by apply Z.gcd_nonneg.
  destruct (prime_power_divisor q Hq e d Hd0 (Z.gcd_divide_l _ _)) as [Hl | [c Hc]].
  - apply Z.divide_trans with d; [assumption | apply Z.gcd_divide_r].
  - exfalso. apply Hn1.
    assert (0 <= c) by nia.
    rewrite Hc, Z.mul_comm, Z.pow_mul_r by lia.
    apply pow_mod_one; lia || assumption.
Qed.

Lemma factor_ok_divides (N a r : Z) (qe : Z * nat) :
  1 < N -> Z.prime r -> (r | N) -> Zpow_mod a (N - 1) N = 1 ->
  Z.prime (fst qe) -> factor_ok N a qe = true ->
  (prime_power qe | r - 1).
Proof.
  intros HN Hr HrN Ha Hq Hok.
  destruct qe as [q e]. unfold factor_ok, prime_power in *. cbn [fst snd] in *.
  pose proof (Z.prime_ge_2 r Hr) as Hr2.
  pose proof (Z.prime_ge_2 q Hq) as Hq2.
  apply andb_prop in Hok. destruct Hok as [Hok Hgcd].
  apply andb_prop in Hok. destruct Hok as [He Hdiv].
  apply Z.ltb_lt in He. apply Z.eqb_eq in Hdiv, Hgcd.
  destruct e as [| k]; [cbn in He; lia |].
  assert (HQ : 0 < q ^ Z.of_nat (S k)) by (apply Z.pow_pos_nonneg; lia).
  assert (HQ' : 0 < q ^ Z.of_nat k) by (apply Z.pow_pos_nonneg; lia).
  set (m := (N - 1) / q ^ Z.of_nat (S k)) in *.
  assert (Hm : 0 <= m) by (apply Z.div_pos; lia).
  assert (HNm : N - 1 = q ^ Z.of_nat (S k) * m)
    by (apply Z_div_exact_full_2; lia).
  rewrite Zpow_mod_correct in Ha, Hgcd by lia.
  replace (Z.of_nat (S k) - 1) with (Z.of_nat k) in Hgcd by lia.
  apply (prime_power_order r q (a ^ m) k Hr Hq).
  - rewrite <- Z.pow_mul_r, (Z.mul_comm m), <- HNm by lia.
    rewrite <- (Z.mod_mod_divide _ N r) by assumption.
    rewrite Ha. apply Z.mod_small. lia.
  - intros H1. rewrite <- Z.pow_mul_r, (Z.mul_comm m) in H1 by lia.
    rewrite <- (Z.mod_mod_divide _ N r) in H1 by assumption.
    set (y := a ^ (q ^ Z.of_nat k * m) mod N) in *.
    assert (Hry : (r | y - 1)).
    { exists (y / r). pose proof (Z.div_mod y r ltac:(lia)). lia. }
    pose proof (Z.gcd_greatest _ _ _ Hry HrN) as Hr1.
    rewrite Hgcd in Hr1.
    apply Z.divide_1_r_nonneg in Hr1; lia.
Qed.

Lemma factored_part_divides (n : Z) :
  forall cert,
    (forall qe, In qe cert -> (prime_power qe | n)) ->
    pairwise_coprime cert = true ->
    (factored_part cert | n).
Proof.
  induction cert as [| qe rest IH]; intros Hall Hco; cbn [factored_part fold_right].
  - apply Z.divide_1_l.
  - cbn [pairwise_coprime] in Hco. apply andb_prop in Hco.
    destruct Hco as [Hg Hrest]. apply Z.eqb_eq in Hg.
    fold (factored_part rest) in *.
    destruct (Hall qe (or_introl eq_refl)) as [c Hc].
    assert (Hr : (factored_part rest | n))
      by (apply IH; [intros; apply Hall; now right | assumption]).
    rewrite Hc, Z.mul_comm in Hr.
    apply Z.gauss in Hr; [| now rewrite Z.gcd_comm].
    destruct Hr as [k ->]. exists k. lia.
Qed.

Theorem pocklington (N a : Z) (cert : list (Z * nat)) :
  (forall qe, In qe cert -> Z.prime (fst qe)) ->
  pocklington_check N a cert = true ->
  Z.prime N.
Proof.
  intros Hprimes Hchk. unfold pocklington_check in Hchk.
  repeat (apply andb_prop in Hchk; destruct Hchk as [Hchk ?]).
  match goal with H : (1 <? N) = true |- _ => apply Z.ltb_lt in H; rename H into HN end.
  match goal with H : (N <? _) = true |- _ => apply Z.ltb_lt in H; rename H into Hbig end.
  match goal with H : (_ =? 1) = true |- _ => apply Z.eqb_eq in H; rename H into Ha end.
  match goal with H : forallb _ _ = true |- _ => rename H into Hall end.
  match goal with H : pairwise_coprime _ = true |- _ => rename H into Hco end.
  rewrite forallb_forall in Hall.
  assert (Hcore : forall r, Z.prime r -> (r | N) -> factored_part cert + 1 <= r).
  { intros r Hr HrN. pose proof (Z.prime_ge_2 r Hr).
    assert (Hd : (factored_part cert | r - 1)).
    { apply factored_part_divides; [| assumption].
      intros qe Hin. apply (factor_ok_divides N a); auto. }
    apply Z.divide_pos_le in Hd; lia. }
  assert (HF : 0 <= factored_part cert).
  { destruct (prime_divisor_exists N HN) as [r [Hr HrN]].
    pose proof (Hcore r Hr HrN). 
    clear - Hprimes. induction cert as [| qe rest IH]; cbn; [lia |].
    apply Z.mul_nonneg_nonneg.
    - apply Z.pow_nonneg. pose proof (Z.prime_ge_2 _ (Hprimes qe (or_introl eq_refl))). lia.
    - apply IH. intros; apply Hprimes; now right. }
  split; [assumption |].
  intros k Hk [c Hc].
  assert (Hc1 : 1 < c) by nia.
  assert (Hsmall : exists x, 1 < x /\ x * x <= N /\ (x | N)).
  { destruct (Z.le_ge_cases k c).
    - exists k. repeat split; [lia | nia | exists c; assumption].
    - exists c. repeat split; [lia | nia | exists k; lia]. }
  destruct Hsmall as [x [Hx1 [Hxx HxN]]].
  destruct (prime_divisor_exists x Hx1) as [r [Hr Hrx]].
  pose proof (Hcore r Hr (Z.divide_trans _ _ _ Hrx HxN)) as HFr.
  assert (r <= x) by (apply Z.divide_pos_le; lia || assumption).
  nia.
Qed.

(** *** The certificates *)

Lemma prime_2 : Z.prime 2. Proof. apply trial_prime_sound. reflexivity. Qed.
Lemma prime_661 : Z.prime 661.
Proof. apply trial_prime_sound. vm_cast_no_check (@eq_refl bool true). Qed.
Lemma prime_3691 : Z.prime 3691.
Proof. apply trial_prime_sound. vm_cast_no_check (@eq_refl bool true). Qed.
Lemma prime_4999 : Z.prime 4999.
Proof. apply trial_prime_sound. vm_cast_no_check (@eq_refl bool true). Qed.
Lemma prime_11003 : Z.prime 11003.
Proof. apply trial_prime_sound. vm_cast_no_check (@eq_refl bool true). Qed.
Lemma prime_93001 : Z.prime 93001.
Proof. apply trial_prime_sound. vm_cast_no_check (@eq_refl bool true). Qed.
Lemma prime_237073 : Z.prime 237073.
Proof. apply trial_prime_sound. vm_cast_no_check (@eq_refl bool true). Qed.

Ltac prime_list :=
  intros qe Hin; cbn [In] in Hin;
  repeat match goal with
         | H : _ \/ _ |- _ => destruct H as [<- | H]
         | H : False |- _ => destruct H
         end;
  cbn [fst];
  auto using prime_2, prime_661, prime_3691, prime_4999, prime_11003,
             prime_93001, prime_237073.

Lemma prime_405928799 : Z.prime 405928799.
Proof.
  apply (pocklington _ 22 [(3691, 1%nat); (4999, 1%nat)]).
  - prime_list.
  - vm_cast_no_check (@eq_refl bool true).
Qed.

Lemma prime_12048837557 : Z.prime 12048837557.
Proof.
  apply (pocklington _ 2 [(661, 1%nat); (93001, 1%nat)]).
  - prime_list.
  - vm_cast_no_check (@eq_refl bool true).
Qed.

Lemma prime_5156902474397 : Z.prime 5156902474397.
Proof.
  apply (pocklington _ 2 [(12048837557, 1%nat)]).
  - intros qe [<- | []]. exact prime_12048837557.
  - vm_cast_no_check (@eq_refl bool true).
Qed.

Lemma prime_1670836401704629 : Z.prime 1670836401704629.
Proof.
  apply (pocklington _ 2 [(5156902474397, 1%nat)]).
  - intros qe [<- | []]. exact prime_5156902474397.
  - vm_cast_no_check (@eq_refl bool true).
Qed.

Definition field_certificate : list (Z * nat) :=
  [(2, 28%nat); (11003, 1%nat); (237073, 1%nat); (405928799, 1%nat);
   (1670836401704629, 1%nat)].

Theorem prime_FIELD_SIZE :
  Z.prime 21888242871839275222246405745257275088548364400416034343698204186575808495617.
Proof.
  apply (pocklington _ 5 field_certificate).
  - unfold field_certificate. prime_list;
      [exact prime_405928799 | exact prime_1670836401704629].
  - vm_cast_no_check (@eq_refl bool true).
Qed.

End PrimalityFacts.

(** ** Field arithmetic *)

Section FieldFacts.
Import FieldMath.

Lemma mod_spec (a m : Z) : 0 < m -> mod_ a m = a mod m.
Proof.
  intros Hm. unfold mod_.
  pose proof (Z.quot_rem' a m) as Hqr.
  destruct (Z.leb_spec 0 a) as [Ha | Ha].
  - pose proof (Z.rem_bound_pos a m Ha Hm) as Hb.
    destruct (Z.geb_spec (Z.rem a m) 0); [| lia].
    apply Z.mod_unique with (q := Z.quot a m); lia.
  - pose proof (Z.rem_bound_abs a m ltac:(lia)) as Hb.
    pose proof (Z.rem_nonpos a m ltac:(lia) ltac:(lia)) as Hn.
    destruct (Z.geb_spec (Z.rem a m) 0).
    + apply Z.mod_unique with (q := Z.quot a m); lia.
    + apply Z.mod_unique with (q := Z.quot a m - 1); lia.
Qed.

Lemma mod_range (a m : Z) : 0 < m -> 0 <= mod_ a m < m.
Proof. intros Hm. rewrite mod_spec by assumption. now apply Z.mod_pos_bound. Qed.

Lemma mod_small (a m : Z) : 0 <= a < m -> mod_ a m = a.
Proof. intros H. rewrite mod_spec by lia. now apply Z.mod_small. Qed.

Lemma mul_pow_mod_idemp (x y k m : Z) :
  0 < m -> ((x mod m) * (y mod m) ^ k) mod m = (x * y ^ k) mod m.
Proof.
  intros Hm.
  rewrite Z.mul_mod_idemp_l by lia.
  rewrite <- Z.mul_mod_idemp_r by lia.
  rewrite <- Zpower_mod by lia.
  rewrite Z.mul_mod_idemp_r by lia. reflexivity.
Qed.

Lemma powMod_loop_spec (m : Z) (Hm : 0 < m) :
  forall e, 0 <= e -> forall result b,
    powMod_loop result b e m =
    if e =? 0 then result else (result * b ^ e) mod m.
Proof.
  intros e He. generalize He. pattern e. apply Z_lt_induction; [| exact He].
  clear e He. intros e IH He result b.
  rewrite powMod_loop_equation_1.
  destruct (Z_gt_dec e 0) as [Hpos | Hnpos]; simpl.
  2:{ replace e with 0 by lia. reflexivity. }
  assert (Hq : Z.quot e 2 = e / 2) by (apply Z.quot_div_nonneg; lia).
  assert (Hr : Z.rem e 2 = e mod 2) by (apply Z.rem_mod_nonneg; lia).
  pose proof (Z.div_mod e 2 ltac:(lia)) as Hdm.
  pose proof (Z.mod_pos_bound e 2 ltac:(lia)) as Hmb.
  rewrite Hq, Hr.
  rewrite IH by (try apply Z.div_pos; try apply Z.div_lt_upper_bound; lia).
  rewrite !mod_spec by assumption.
  destruct (Z.eqb_spec e 0) as [| _]; [lia |].
  assert (Hsq : forall k, 0 <= k -> (b * b) ^ k = b ^ (2 * k)).
  { intros k Hk. rewrite Z.pow_mul_r by lia. f_equal. lia. }
  destruct (Z.eqb_spec (e mod 2) 1) as [Hodd | Hev];
    destruct (Z.eqb_spec (e / 2) 0) as [Hz | Hnz].
  - replace e with 1 by lia. now rewrite Z.pow_1_r.
  - rewrite mul_pow_mod_idemp by assumption.
    assert (0 < e / 2) by (pose proof (Z.div_pos e 2); lia).
    rewrite Hsq by lia.
    replace (b ^ e) with (b * b ^ (2 * (e / 2)))
      by (rewrite <- Z.pow_succ_r by lia; f_equal; lia).
    f_equal. ring.
  - lia.
  - assert (0 < e / 2) by (pose proof (Z.div_pos e 2); lia).
    rewrite <- (Z.mul_mod_idemp_r result) by lia.
    rewrite <- Zpower_mod by lia.
    rewrite Z.mul_mod_idemp_r by lia.
    rewrite Hsq by lia. do 3 f_equal. lia.
Qed.

Lemma powMod_spec (base exp m : Z) :
  1 < m -> 0 <= exp -> powMod base exp m = base ^ exp mod m.
Proof.
  intros Hm He. unfold powMod.
  destruct (Z.eqb_spec exp 0) as [-> | Hn0].
  - rewrite Z.pow_0_r. symmetry. apply Z.mod_small. lia.
  - destruct (Z.eqb_spec exp 1) as [-> | Hn1].
    + rewrite Z.pow_1_r. apply mod_spec. lia.
    + rewrite powMod_loop_spec by lia.
      destruct (Z.eqb_spec exp 0); [contradiction |].
      rewrite mod_spec, Z.mul_1_l by lia.
      symmetry. apply Zpower_mod. lia.
Qed.

Lemma extendedGCD_spec :
  forall b, 0 <= b -> forall a, 0 <= a ->
    match extendedGCD a b with
    | (gcd, x, y) => gcd = Z.gcd a b /\ a * x + b * y = gcd
    end.
Proof.
  intros b Hb. generalize Hb. pattern b. apply Z_lt_induction; [| exact Hb].
  clear b Hb. intros b IH Hb a Ha.
  rewrite extendedGCD_equation_1.
  destruct (Z.eq_dec b 0) as [-> | Hnz]; simpl.
  - rewrite Z.gcd_0_r, Z.abs_eq by assumption. lia.
  - assert (Hr : Z.rem a b = a mod b) by (apply Z.rem_mod_nonneg; lia).
    assert (Hq : Z.quot a b = a / b) by (apply Z.quot_div_nonneg; lia).
    pose proof (Z.mod_pos_bound a b ltac:(lia)) as Hmb.
    rewrite Hr, Hq.
    specialize (IH (a mod b) Hmb ltac:(lia) b Hb).
    destruct (extendedGCD b (a mod b)) as [[g x1] y1].
    destruct IH as [Hg Hbez]. split.
    + rewrite Hg. rewrite Z.gcd_comm, Z.gcd_mod by lia. apply Z.gcd_comm.
    + pose proof (Z.div_mod a b Hnz). nia.
Qed.

Lemma FIELD_SIZE_prime : Z.prime FIELD_SIZE.
Proof. exact PrimalityFacts.prime_FIELD_SIZE. Qed.

Lemma FIELD_SIZE_pos : 1 < FIELD_SIZE.
Proof. reflexivity. Qed.

Lemma invMod_zero : invMod 0 FIELD_SIZE = inr NoInverse.
Proof.
  unfold invMod. rewrite mod_small by (pose proof FIELD_SIZE_pos; lia).
  pose proof (extendedGCD_spec FIELD_SIZE ltac:(discriminate) 0 ltac:(lia)) as H.
  destruct (extendedGCD 0 FIELD_SIZE) as [[g x] y].
  destruct H as [Hg _]. rewrite Z.gcd_0_l in Hg. subst g. reflexivity.
Qed.

Lemma invMod_unit (a : Z) :
  1 <= a < FIELD_SIZE ->
  exists i, invMod a FIELD_SIZE = inl i /\ mulMod a i FIELD_SIZE = 1.
Proof.
  intros Ha. pose proof FIELD_SIZE_pos as Hp.
  unfold invMod. rewrite (mod_small a) by lia.
  pose proof (extendedGCD_spec FIELD_SIZE ltac:(lia) a ltac:(lia)) as H.
  destruct (extendedGCD a FIELD_SIZE) as [[g x] y].
  destruct H as [Hg Hbez].
  pose proof (Z.coprime_prime_small FIELD_SIZE a FIELD_SIZE_prime Ha) as Hco.
  unfold Z.coprime in Hco. rewrite Z.gcd_comm in Hco. rewrite Hco in Hg. subst g.
  exists (mod_ x FIELD_SIZE). split; [reflexivity |].
  unfold mulMod. rewrite !mod_spec by lia.
  rewrite Z.mod_mod, Z.mul_mod_idemp_l, Z.mul_mod_idemp_r by lia.
  replace (a * x) with (1 + (- y) * FIELD_SIZE) by lia.
  rewrite Z.mod_add by lia. apply Z.mod_small. lia.
Qed.

(** C7: on the field [0, p), [invMod] fails exactly at 0 (with the
    no-inverse error, the gcd being p), and for every 1 <= a < p it returns
    a value whose [mulMod] product with [a] is 1. *)
Theorem invMod_field (a : Z) :
  0 <= a < FIELD_SIZE ->
  match invMod a FIELD_SIZE with
  | inl i => a <> 0 /\ mulMod a i FIELD_SIZE = 1
  | inr e => a = 0 /\ e = NoInverse
  end.
Proof.
  intros Ha. destruct (Z.eq_dec a 0) as [-> | Hnz].
  - rewrite invMod_zero. now split.
  - destruct (invMod_unit a ltac:(lia)) as [i [-> Hi]]. now split.
Qed.

Lemma invMod_field_witness :
  0 <= 2 < FIELD_SIZE /\
  match invMod 2 FIELD_SIZE with
  | inl i => 2 <> 0 /\ mulMod 2 i FIELD_SIZE = 1
  | inr e => 2 = 0 /\ e = NoInverse
  end.
Proof.
  split; [split; [lia | reflexivity] |].
  apply (invMod_field 2). split; [lia | reflexivity].
Defined.

(** C8: Fermat's little theorem for the embedded square-and-multiply. *)
Theorem powMod_fermat (a : Z) :
  1 <= a < FIELD_SIZE -> powMod a (FIELD_SIZE - 1) FIELD_SIZE = 1.
Proof.
  intros Ha. pose proof FIELD_SIZE_pos as Hp.
  rewrite powMod_spec by lia.
  apply Z.fermat_nz; [exact FIELD_SIZE_prime |].
  rewrite Z.mod_small; lia.
Qed.

Lemma powMod_fermat_witness :
  1 <= 7 < FIELD_SIZE /\ powMod 7 (FIELD_SIZE - 1) FIELD_SIZE = 1.
Proof.
  split; [split; [lia | reflexivity] |].
  apply (powMod_fermat 7). split; [lia | reflexivity].
Defined.

(** C10: [FIELD_SIZE] is 1 modulo 4, so [sqrtMod] with the default modulus
    throws on every input: 'Square root does not exist' when the residue
    check [isQuadraticResidue] rejects [a] (that check runs first), and
    'General case not implemented' otherwise. *)
Theorem sqrtMod_never_returns (a : Z) :
  Z.rem FIELD_SIZE 4 = 1 /\
  sqrtMod a FIELD_SIZE =
    inr (if isQuadraticResidue a FIELD_SIZE then NotImplemented else NoSquareRoot).
Proof.
  split; [reflexivity |].
  unfold sqrtMod. destruct (isQuadraticResidue a FIELD_SIZE); reflexivity.
Qed.

(** Euler's criterion, sound direction: a square is accepted by
    [isQuadraticResidue]. *)
Lemma square_isQuadraticResidue (b : Z) :
  isQuadraticResidue (b * b mod FIELD_SIZE) FIELD_SIZE = true.
Proof.
  pose proof FIELD_SIZE_pos as Hp.
  unfold isQuadraticResidue.
  destruct (Z.eqb_spec (b * b mod FIELD_SIZE) 0) as [| Hnz]; [reflexivity |].
  apply Z.eqb_eq.
  assert (Hq : Z.quot (FIELD_SIZE - 1) 2 = (FIELD_SIZE - 1) / 2) by reflexivity.
  rewrite Hq, powMod_spec by (lia || discriminate).
  rewrite <- Zpower_mod by lia.
  rewrite <- Z.pow_2_r, <- Z.pow_mul_r by (lia || discriminate).
  replace (2 * ((FIELD_SIZE - 1) / 2)) with (FIELD_SIZE - 1) by reflexivity.
  apply Z.fermat_nz; [exact FIELD_SIZE_prime |].
  intros Hb. apply Hnz.
  rewrite <- Z.mul_mod_idemp_l, Hb by lia. reflexivity.
Qed.
End FieldFacts.

(** ** Field arithmetic: the remaining operations *)

Section FieldOperations.
Import FieldMath.

(** X1: for a positive modulus, [mod] returns the canonical residue: a
    value in [0, m) that differs from [a] by a multiple of [m], also for
    negative [a]. *)
Theorem mod_canonical (a m : Z) :
  0 < m -> 0 <= mod_ a m < m /\ (m | a - mod_ a m).
Proof.
  intros Hm. split; [now apply mod_range |].
  rewrite mod_spec by assumption.
  exists (a / m). pose proof (Z.div_mod a m ltac:(lia)). lia.
Qed.

Lemma mod_canonical_witness :
  0 < 7 /\ (0 <= mod_ (-3) 7 < 7 /\ (7 | -3 - mod_ (-3) 7)).
Proof. split; [lia | apply (mod_canonical (-3) 7); lia]. Defined.

(** X2: with the default modulus, [addMod], [subMod] and [mulMod] are the
    sum, difference and product modulo [FIELD_SIZE], for all integers. *)
Theorem field_operations_spec (a b : Z) :
  addMod a b FIELD_SIZE = (a + b) mod FIELD_SIZE /\
  subMod a b FIELD_SIZE = (a - b) mod FIELD_SIZE /\
  mulMod a b FIELD_SIZE = (a * b) mod FIELD_SIZE.
Proof.
  pose proof FIELD_SIZE_pos as Hp.
  unfold addMod, subMod, mulMod. rewrite !mod_spec by lia.
  split; [| split].
  - symmetry. apply Z.add_mod. lia.
  - symmetry. apply Zminus_mod.
  - symmetry. apply Z.mul_mod. lia.
Qed.

(** X3: [addMod], [subMod] and [mulMod] reduce their operands by
    [FIELD_SIZE] whatever modulus is passed.  With a modulus [m] strictly
    between 1 and [FIELD_SIZE] the result is the residue modulo [m] of the
    operands' residues modulo [FIELD_SIZE], which is not the sum modulo
    [m]: [addMod(FIELD_SIZE, 0, m)] is 0 although [FIELD_SIZE] is not a
    multiple of [m]. *)
Theorem addMod_other_modulus (a b m : Z) :
  1 < m < FIELD_SIZE ->
  addMod a b m = (a mod FIELD_SIZE + b mod FIELD_SIZE) mod m /\
  subMod a b m = (a mod FIELD_SIZE - b mod FIELD_SIZE) mod m /\
  mulMod a b m = ((a mod FIELD_SIZE) * (b mod FIELD_SIZE)) mod m /\
  addMod FIELD_SIZE 0 m = 0 /\
  (FIELD_SIZE + 0) mod m <> 0.
Proof.
  intros Hm. pose proof FIELD_SIZE_pos as Hp.
  unfold addMod, subMod, mulMod. rewrite !mod_spec by lia.
  split; [reflexivity |]. split; [reflexivity |]. split; [reflexivity |].
  split.
  - rewrite Z.mod_same by lia. rewrite (Z.mod_0_l FIELD_SIZE) by lia.
    exact (Z.mod_0_l m ltac:(lia)).
  - rewrite Z.add_0_r. intros H0.
    apply Z.mod_divide in H0; [| lia].
    destruct (Z.divide_prime_r m FIELD_SIZE FIELD_SIZE_prime H0)
      as [H1 | [H1 | [H1 | H1]]]; lia.
Qed.

Lemma addMod_other_modulus_witness :
  1 < 2 < FIELD_SIZE /\
  (addMod 5 9 2 = (5 mod FIELD_SIZE + 9 mod FIELD_SIZE) mod 2 /\
   subMod 5 9 2 = (5 mod FIELD_SIZE - 9 mod FIELD_SIZE) mod 2 /\
   mulMod 5 9 2 = ((5 mod FIELD_SIZE) * (9 mod FIELD_SIZE)) mod 2 /\
   addMod FIELD_SIZE 0 2 = 0 /\
   (FIELD_SIZE + 0) mod 2 <> 0).
Proof.
  split; [split; reflexivity | apply (addMod_other_modulus 5 9 2)].
  split; reflexivity.
Defined.

Lemma powMod_nonpositive (base exp m : Z) : exp <= 0 -> powMod base exp m = 1.
Proof.
  intros He. unfold powMod.
  destruct (Z.eqb_spec exp 0) as [| Hn0]; [reflexivity |].
  destruct (Z.eqb_spec exp 1) as [| Hn1]; [lia |].
  rewrite powMod_loop_equation_1.
  destruct (Z_gt_dec exp 0) as [Hgt | Hle]; [lia | reflexivity].
Qed.

(** X4: [powMod] never throws.  For a positive modulus it returns 1 for
    every exponent that is zero or negative (the loop body is never
    entered; for the modulus 1 this 1 is outside [0, m)), and
    [base ^ exp mod m] for every positive exponent. *)
Theorem powMod_general (base exp m : Z) :
  0 < m ->
  powMod base exp m = if exp <=? 0 then 1 else base ^ exp mod m.
Proof.
  intros Hm.
  destruct (Z.leb_spec exp 0) as [Hneg | Hpos];
    [now apply powMod_nonpositive |].
  unfold powMod.
  destruct (Z.eqb_spec exp 0) as [| Hn0]; [lia |].
  destruct (Z.eqb_spec exp 1) as [-> | Hn1].
  - rewrite Z.pow_1_r. apply mod_spec. lia.
  - rewrite powMod_loop_spec by lia.
    destruct (Z.eqb_spec exp 0); [contradiction |].
    rewrite mod_spec, Z.mul_1_l by lia.
    symmetry. apply Zpower_mod. lia.
Qed.

Lemma powMod_general_witness :
  0 < 1 /\ powMod 5 (-3) 1 = if -3 <=? 0 then 1 else 5 ^ (-3) mod 1.
Proof. split; [lia | apply (powMod_general 5 (-3) 1); lia]. Defined.

Lemma gcd_rem (a b : Z) : Z.gcd b (Z.rem a b) = Z.gcd a b.
Proof.
  destruct (Z.eq_dec b 0) as [-> | Hb].
  - rewrite Z.rem_0_r_ext by reflexivity. rewrite Z.gcd_0_l, Z.gcd_0_r. reflexivity.
  - pose proof (Z.quot_rem' a b) as H.
    replace (Z.rem a b) with (a + (- Z.quot a b) * b) by lia.
    rewrite Z.gcd_add_mult_diag_r. apply Z.gcd_comm.
Qed.

(** X5: [extendedGCD] terminates on all integers, of either sign, and
    returns a Bezout combination [a * x + b * y = gcd] whose value is the
    greatest common divisor up to sign. *)
Theorem extendedGCD_bezout (a b : Z) :
  match extendedGCD a b with
  | (gcd, x, y) => a * x + b * y = gcd /\ Z.abs gcd = Z.gcd a b
  end.
Proof.
  revert a.
  induction b as [b IH] using
    (well_founded_induction (Wf_nat.well_founded_ltof _ Z.abs_nat)).
  intros a. rewrite extendedGCD_equation_1.
  destruct (Z.eq_dec b 0) as [-> | Hnz]; simpl.
  - rewrite Z.gcd_0_r. lia.
  - pose proof (Z.rem_bound_abs a b Hnz) as Hr.
    specialize (IH (Z.rem a b) ltac:(unfold Wf_nat.ltof; lia) b).
    destruct (extendedGCD b (Z.rem a b)) as [[g x1] y1].
    destruct IH as [Hbez Hg]. split.
    + pose proof (Z.quot_rem' a b). nia.
    + rewrite Hg. apply gcd_rem.
Qed.

Lemma invMod_cases (a m : Z) :
  1 < m ->
  match invMod a m with
  | inl i => Z.gcd a m = 1 /\ 0 <= i < m /\ (a * i) mod m = 1
  | inr e => Z.gcd a m <> 1 /\ e = NoInverse
  end.
Proof.
  intros Hm. unfold invMod. rewrite (mod_spec a) by lia.
  pose proof (Z.mod_pos_bound a m ltac:(lia)) as Hb.
  pose proof (extendedGCD_spec m ltac:(lia) (a mod m) ltac:(lia)) as H.
  destruct (extendedGCD (a mod m) m) as [[g x] y].
  destruct H as [Hg Hbez].
  assert (Hgcd : g = Z.gcd a m).
  { rewrite Hg, Z.gcd_mod by lia. apply Z.gcd_comm. }
  destruct (Z.eqb_spec g 1) as [H1 | Hn1]; cbn [negb].
  - split; [congruence |]. split; [apply mod_range; lia |].
    rewrite mod_spec by lia.
    rewrite Z.mul_mod_idemp_r, <- Z.mul_mod_idemp_l by lia.
    replace (a mod m * x) with (1 + (- y) * m) by lia.
    rewrite Z.mod_add by lia. apply Z.mod_small. lia.
  - split; [congruence | reflexivity].
Qed.

(** X6: for every modulus above 1, [invMod] returns a value of [0, m)
    whose product with [a] is 1 modulo [m] when [a] is coprime to [m], and
    throws 'Modular inverse does not exist' otherwise. *)
Theorem invMod_general (a m : Z) :
  1 < m ->
  (Z.gcd a m = 1 ->
   exists i, invMod a m = inl i /\ 0 <= i < m /\ (a * i) mod m = 1) /\
  (Z.gcd a m <> 1 -> invMod a m = inr NoInverse).
Proof.
  intros Hm. pose proof (invMod_cases a m Hm) as H.
  destruct (invMod a m) as [i | e].
  - destruct H as [Hg Hi]. split; [| contradiction].
    intros _. exists i. split; [reflexivity | exact Hi].
  - destruct H as [Hg ->]. split; [contradiction | reflexivity].
Qed.

Lemma invMod_general_witness :
  1 < 10 /\
  ((Z.gcd 3 10 = 1 ->
    exists i, invMod 3 10 = inl i /\ 0 <= i < 10 /\ (3 * i) mod 10 = 1) /\
   (Z.gcd 3 10 <> 1 -> invMod 3 10 = inr NoInverse)).
Proof. split; [lia | apply (invMod_general 3 10); lia]. Defined.

(** X7: with the default modulus, [divMod(a, b)] throws exactly when [b]
    is a multiple of [FIELD_SIZE]; otherwise it returns the field element
    [q] with [q * b = a] modulo [FIELD_SIZE]. *)
Theorem divMod_field (a b : Z) :
  match divMod a b FIELD_SIZE with
  | inl q => b mod FIELD_SIZE <> 0 /\ 0 <= q < FIELD_SIZE /\
             (q * b) mod FIELD_SIZE = a mod FIELD_SIZE
  | inr e => b mod FIELD_SIZE = 0 /\ e = NoInverse
  end.
Proof.
  pose proof FIELD_SIZE_pos as Hp.
  pose proof (invMod_cases b FIELD_SIZE Hp) as H.
  unfold divMod. destruct (invMod b FIELD_SIZE) as [i | e].
  - destruct H as [Hg [Hi Hinv]]. split; [| split].
    + intros Hz. apply Z.mod_divide in Hz; [| lia].
      apply Z.divide_gcd_iff in Hz; [| lia].
      rewrite Z.gcd_comm in Hz. lia.
    + unfold mulMod. apply mod_range. lia.
    + unfold mulMod. rewrite !mod_spec by lia.
      rewrite <- Z.mul_mod by lia.
      rewrite Z.mul_mod_idemp_l by lia.
      replace (a * i * b) with (a * (b * i)) by ring.
      rewrite <- Z.mul_mod_idemp_r, Hinv, Z.mul_1_r by lia. reflexivity.
  - destruct H as [Hg He]. split; [| exact He].
    destruct (Z.eq_dec (b mod FIELD_SIZE) 0) as [Hz | Hnz]; [exact Hz |].
    exfalso. apply Hg.
    pose proof (Z.mod_pos_bound b FIELD_SIZE ltac:(lia)) as Hb.
    pose proof (Z.coprime_prime_small FIELD_SIZE (b mod FIELD_SIZE)
                  FIELD_SIZE_prime ltac:(lia)) as Hco.
    unfold Z.coprime in Hco.
    rewrite Z.gcd_comm, Z.gcd_mod in Hco by lia.
    rewrite Z.gcd_comm. exact Hco.
Qed.

(** X8: every square is accepted by [isQuadraticResidue], and [sqrtMod]
    still does not return its root: on [mulMod(b, b)] it throws 'General
    case not implemented'. *)
Theorem sqrtMod_of_square (b : Z) :
  isQuadraticResidue (mulMod b b FIELD_SIZE) FIELD_SIZE = true /\
  sqrtMod (mulMod b b FIELD_SIZE) FIELD_SIZE = inr NotImplemented.
Proof.
  pose proof FIELD_SIZE_pos as Hp.
  assert (Hsq : isQuadraticResidue (mulMod b b FIELD_SIZE) FIELD_SIZE = true).
  { unfold mulMod. rewrite !mod_spec by lia.
    rewrite <- Z.mul_mod by lia. apply square_isQuadraticResidue. }
  split; [exact Hsq |].
  unfold sqrtMod. rewrite Hsq. reflexivity.
Qed.

(** X9: the results of [mod], [addMod], [subMod], [mulMod] and [powMod]
    with the default modulus, and of [randomFieldElement] on any bytes,
    satisfy [isInField]; [isInField] holds exactly on [0, FIELD_SIZE). *)
Theorem field_operations_in_field (a b : Z) (bytes : list Z) :
  (isInField a = true <-> 0 <= a < FIELD_SIZE) /\
  isInField (mod_ a FIELD_SIZE) = true /\
  isInField (addMod a b FIELD_SIZE) = true /\
  isInField (subMod a b FIELD_SIZE) = true /\
  isInField (mulMod a b FIELD_SIZE) = true /\
  isInField (powMod a b FIELD_SIZE) = true /\
  isInField (randomFieldElement bytes) = true.
Proof.
  pose proof FIELD_SIZE_pos as Hp.
  assert (Hin : forall v, isInField v = true <-> 0 <= v < FIELD_SIZE).
  { intros v. unfold isInField.
    rewrite andb_true_iff, Z.geb_le, Z.ltb_lt. reflexivity. }
  assert (Hmod : forall v, isInField (mod_ v FIELD_SIZE) = true).
  { intros v. apply Hin, mod_range. lia. }
  split; [apply Hin |].
  split; [apply Hmod |].
  split; [apply Hmod |]. split; [apply Hmod |]. split; [apply Hmod |].
  split; [| apply Hmod].
  destruct (Z.leb_spec b 0) as [Hneg | Hpos].
  - rewrite powMod_nonpositive by exact Hneg. reflexivity.
  - rewrite powMod_spec by lia. apply Hin, Z.mod_pos_bound. lia.
Qed.

(** *** Little-endian bytes *)

Lemma toBigIntLE_cons (b : Z) (bytes : list Z) :
  toBigIntLE (b :: bytes) = Z.lor (Z.shiftl (toBigIntLE bytes) 8) b.
Proof.
  unfold toBigIntLE. cbn [rev]. rewrite fold_left_app. reflexivity.
Qed.

Lemma byte_low (x b : Z) :
  0 <= b < 256 -> Z.land (Z.lor (Z.shiftl x 8) b) 0xFF = b.
Proof.
  intros Hb. change 0xFF with (Z.ones 8).
  rewrite Z.land_ones by lia.
  rewrite Z.land_lor_distr_l || idtac.
  rewrite <- Z.land_ones by lia.
  rewrite Z.land_lor_distr_l.
  rewrite !Z.land_ones by lia.
  rewrite Z.shiftl_mul_pow2 by lia.
  rewrite Z.mod_mul by lia.
  rewrite Z.lor_0_l. apply Z.mod_small. exact Hb.
Qed.

Lemma byte_high (x b : Z) :
  0 <= b < 256 -> Z.shiftr (Z.lor (Z.shiftl x 8) b) 8 = x.
Proof.
  intros Hb. rewrite Z.shiftr_lor.
  rewrite Z.shiftr_shiftl_l by lia.
  change (8 - 8) with 0. rewrite Z.shiftl_0_r.
  rewrite (Z.shiftr_div_pow2 b) by lia.
  rewrite Z.div_small by exact Hb. apply Z.lor_0_r.
Qed.

(** X10: writing the little-endian value of a byte array back with the
    array's length returns the array. *)
Theorem fromBigIntLE_toBigIntLE (bytes : list Z) :
  Forall (fun b => 0 <= b < 256) bytes ->
  fromBigIntLE (toBigIntLE bytes) (length bytes) = bytes.
Proof.
  unfold fromBigIntLE.
  induction 1 as [| b bytes Hb _ IH]; [reflexivity |].
  cbn [length fromBigIntLE_loop]. rewrite toBigIntLE_cons.
  rewrite byte_low, byte_high by exact Hb.
  rewrite IH. reflexivity.
Qed.

Lemma fromBigIntLE_toBigIntLE_witness :
  Forall (fun b => 0 <= b < 256) [1; 0; 255] /\
  fromBigIntLE (toBigIntLE [1; 0; 255]) (length [1; 0; 255]) = [1; 0; 255].
Proof.
  assert (H : Forall (fun b => 0 <= b < 256) [1; 0; 255])
    by (repeat constructor; discriminate).
  split; [exact H | apply (fromBigIntLE_toBigIntLE [1; 0; 255] H)].
Defined.

(** X11: reading back the [length] little-endian bytes written for
    [value] gives [value] modulo [256 ^ length]: the value itself when it
    fits, its low bytes when it does not, and the two's complement residue
    when it is negative.  Every byte written lies in [0, 256). *)
Theorem toBigIntLE_fromBigIntLE (value : Z) (length : nat) :
  toBigIntLE (fromBigIntLE value length) = value mod 2 ^ (8 * Z.of_nat length) /\
  Forall (fun b => 0 <= b < 256) (fromBigIntLE value length).
Proof.
  unfold fromBigIntLE. split.
  - revert value. induction length as [| n IH]; intros value.
    + cbn. rewrite Z.mod_1_r. reflexivity.
    + cbn [fromBigIntLE_loop]. rewrite toBigIntLE_cons, IH.
      change 0xFF with (Z.ones 8).
      rewrite <- !Z.land_ones by lia.
      apply Z.bits_inj'. intros i Hi.
      rewrite Z.lor_spec, !Z.land_spec.
      rewrite !Z.testbit_ones_nonneg by lia.
      destruct (Z.ltb_spec i 8) as [Hlt | Hge].
      * rewrite Z.shiftl_spec_low by lia.
        destruct (Z.ltb_spec i (8 * Z.of_nat (S n))); [| lia].
        cbn [orb]. reflexivity.
      * rewrite Z.shiftl_spec by lia.
        rewrite Z.land_spec, Z.shiftr_spec by lia.
        rewrite Z.testbit_ones_nonneg by lia.
        replace (i - 8 + 8) with i by lia.
        rewrite andb_false_r, orb_false_r.
        f_equal.
        destruct (Z.ltb_spec (i - 8) (8 * Z.of_nat n));
          destruct (Z.ltb_spec i (8 * Z.of_nat (S n))); auto; lia.
  - revert value. induction length as [| n IH]; intros value; constructor.
    + change 0xFF with (Z.ones 8). rewrite Z.land_ones by lia.
      apply Z.mod_pos_bound. reflexivity.
    + apply IH.
Qed.

End FieldOperations.

(** ** Permutation hash *)

Section PoseidonFacts.
Import Poseidon.

Example round_constant_step_value :
  round_constant_step = 64323764613183176272264358511859728384.
Proof. reflexivity. Qed.

Lemma poseidon_mod_spec (a : Z) : mod_ a = a mod FIELD_SIZE.
Proof. apply mod_spec. reflexivity. Qed.

(** After the input loop the state is [0] followed by the first five
    inputs, each reduced, with 0 in the places of absent inputs. *)
Lemma absorb_spec (inputs : list Z) :
  absorb inputs 0 (repeat 0 t) =
  0 :: map (fun i => nth i inputs 0 mod FIELD_SIZE) (seq 0 (t - 1)).
Proof.
  destruct inputs as [| x0 [| x1 [| x2 [| x3 [| x4 rest]]]]];
    cbn [absorb t Nat.ltb Nat.leb Nat.sub Nat.add repeat set_at seq map nth];
    rewrite ?poseidon_mod_spec; try reflexivity.
  destruct rest; reflexivity.
Qed.

(** C9: [poseidonHash] is a total function of the first [t - 1 = 5] inputs
    taken modulo p, an absent input counting as 0: two input arrays that
    agree modulo p on positions 0..4 have the same hash, whatever their
    lengths and whatever comes after position 4. *)
Theorem poseidonHash_first_five_mod_p (xs ys : list Z) :
  (forall i, (i < 5)%nat ->
     nth i xs 0 mod FieldMath.FIELD_SIZE = nth i ys 0 mod FieldMath.FIELD_SIZE) ->
  poseidonHash xs = poseidonHash ys.
Proof.
  intros Hagree. unfold poseidonHash, hash.
  rewrite !absorb_spec.
  replace (map (fun i => nth i xs 0 mod FIELD_SIZE) (seq 0 (t - 1)))
    with (map (fun i => nth i ys 0 mod FIELD_SIZE) (seq 0 (t - 1))).
  - reflexivity.
  - apply map_ext_in. intros i Hi. apply in_seq in Hi.
    symmetry. apply Hagree. cbn in Hi. lia.
Qed.

Lemma poseidonHash_first_five_mod_p_witness :
  (forall i, (i < 5)%nat ->
     nth i [1; 2] 0 mod FieldMath.FIELD_SIZE =
     nth i [1 + FieldMath.FIELD_SIZE; 2; 0; - FieldMath.FIELD_SIZE; 0; 99] 0
       mod FieldMath.FIELD_SIZE) /\
  poseidonHash [1; 2] =
  poseidonHash [1 + FieldMath.FIELD_SIZE; 2; 0; - FieldMath.FIELD_SIZE; 0; 99].
Proof.
  assert (H : forall i, (i < 5)%nat ->
     nth i [1; 2] 0 mod FieldMath.FIELD_SIZE =
     nth i [1 + FieldMath.FIELD_SIZE; 2; 0; - FieldMath.FIELD_SIZE; 0; 99] 0
       mod FieldMath.FIELD_SIZE).
  { intros i Hi.
    destruct i as [| [| [| [| [| i]]]]]; try reflexivity; lia. }
  split; [exact H |].
  apply (poseidonHash_first_five_mod_p _ _ H).
Defined.

End PoseidonFacts.

(** ** Constraint engine *)

Section CircuitFacts.
Import Circuit.

Definition well_formed (pc : PaymentCircuit) : Prop :=
  length (A (constraints pc)) = length (B (constraints pc)) /\
  length (A (constraints pc)) = length (C (constraints pc)).

Lemma defineConstraint_well_formed a b c pc :
  well_formed pc -> well_formed (defineConstraint a b c pc).
Proof.
  unfold well_formed. cbn. rewrite !length_app. cbn. lia.
Qed.

Lemma reachable_well_formed pc : reachable pc -> well_formed pc.
Proof.
  induction 1 as [| name value pc _ IH | a b c pc _ IH
                  | signal min max pc pc' _ IH Hop
                  | s1 s2 pc pc' _ IH Hop
                  | s1 s2 r pc pc' _ IH Hop
                  | pc _ IH].
  - split; reflexivity.
  - exact IH.
  - now apply defineConstraint_well_formed.
  - unfold addRangeConstraint in Hop.
    destruct (map_get signal (signals pc)); [| discriminate].
    destruct (negb _); [discriminate |].
    injection Hop as <-. now apply defineConstraint_well_formed.
  - unfold addEqualityConstraint in Hop.
    destruct (map_get s1 (signals pc)); [| discriminate].
    destruct (map_get s2 (signals pc)); [| discriminate].
    injection Hop as <-. now apply defineConstraint_well_formed.
  - unfold addMultiplicationConstraint in Hop.
    destruct (map_get s1 (signals pc)); [| discriminate].
    destruct (map_get s2 (signals pc)); [| discriminate].
    destruct (map_get r (signals pc)); [| discriminate].
    destruct (negb _); [discriminate |].
    injection Hop as <-. now apply defineConstraint_well_formed.
  - split; reflexivity.
Qed.

Definition satisfied (t : list Z * (list Z * list Z)) : Prop :=
  sum (fst t) * sum (fst (snd t)) = sum (snd (snd t)).

Lemma verifyCircuit_loop_spec :
  forall As Bs Cs,
    length As = length Bs -> length As = length Cs ->
    exists r, verifyCircuit_loop As Bs Cs = Some r /\
              (r = true <-> Forall satisfied (combine As (combine Bs Cs))).
Proof.
  induction As as [| a As IH]; intros Bs Cs HB HC.
  - exists true. split; [reflexivity |]. split; [constructor | reflexivity].
  - destruct Bs as [| b Bs]; [discriminate |].
    destruct Cs as [| c Cs]; [discriminate |].
    cbn [verifyCircuit_loop combine].
    destruct (Z.eqb_spec (sum a * sum b) (sum c)) as [Heq | Hne]; cbn [negb].
    + destruct (IH Bs Cs ltac:(cbn in HB; lia) ltac:(cbn in HC; lia))
        as [r [Hr Hiff]].
      exists r. split; [exact Hr |]. rewrite Hiff. split.
      * intros Hall. constructor; [exact Heq | exact Hall].
      * intros Hall. now inversion Hall.
    + exists false. split; [reflexivity |]. split; [discriminate |].
      intros Hall. inversion Hall as [| ? ? Hs _]. contradiction.
Qed.

(** C4: on every circuit built through the public methods,
    [verifyCircuit] answers [true] exactly when each recorded triple
    satisfies (sum A) * (sum B) = (sum C) over the integers; and it reads
    only the recorded rows, so a later [setSignal] leaves its answer as it
    was. *)
Theorem verifyCircuit_recorded (pc : PaymentCircuit) :
  reachable pc ->
  (verifyCircuit pc = true <-> Forall satisfied (recorded pc)) /\
  (forall name value, verifyCircuit (setSignal name value pc) = verifyCircuit pc).
Proof.
  intros Hreach. split; [| reflexivity].
  destruct (reachable_well_formed pc Hreach) as [HB HC].
  destruct (verifyCircuit_loop_spec _ _ _ HB HC) as [r [Hr Hiff]].
  unfold verifyCircuit, recorded. rewrite Hr. exact Hiff.
Qed.

Definition sample_circuit : PaymentCircuit :=
  defineConstraint [2; 1] [4] [12] (setSignal "amount" 7 new).

Lemma verifyCircuit_recorded_witness :
  reachable sample_circuit /\
  (verifyCircuit sample_circuit = true <-> Forall satisfied (recorded sample_circuit)) /\
  (forall name value,
     verifyCircuit (setSignal name value sample_circuit) = verifyCircuit sample_circuit).
Proof.
  assert (H : reachable sample_circuit)
    by (apply reach_defineConstraint, reach_setSignal, reach_new).
  split; [exact H |].
  apply (verifyCircuit_recorded sample_circuit H).
Defined.

(** The snapshot semantics on an equality constraint: the constraint keeps
    the values read when it was added. *)
Example equality_constraint_snapshot :
  match addEqualityConstraint "x" "y" (setSignal "y" 5 (setSignal "x" 5 new)) with
  | inl pc => verifyCircuit pc = true /\ verifyCircuit (setSignal "x" 6 pc) = true
  | inr _ => False
  end.
Proof. cbn. split; reflexivity. Qed.
End CircuitFacts.

(** ** Permutation hash: the round functions *)

Section PoseidonRounds.
Import Poseidon.

Lemma poseidon_modulus_nonzero : FIELD_SIZE <> 0.
Proof. discriminate. Qed.

(** The S-box [pow5] is the fifth power modulo p. *)
Lemma pow5_spec (x : Z) : pow5 x = x ^ 5 mod FIELD_SIZE.
Proof.
  pose proof poseidon_modulus_nonzero as Hp.
  unfold pow5. rewrite !poseidon_mod_spec.
  rewrite Z.mul_mod_idemp_l by exact Hp.
  rewrite <- Z.mul_assoc, Z.mul_mod_idemp_l by exact Hp.
  rewrite (Z.mul_comm (x * x)), <- Z.mul_assoc, Z.mul_mod_idemp_l by exact Hp.
  f_equal. ring.
Qed.

Lemma accumulate_rows (y0 y1 y2 y3 y4 y5 : Z) :
  ((((((0 + y0 mod FIELD_SIZE) mod FIELD_SIZE + y1 mod FIELD_SIZE) mod FIELD_SIZE
      + y2 mod FIELD_SIZE) mod FIELD_SIZE + y3 mod FIELD_SIZE) mod FIELD_SIZE
    + y4 mod FIELD_SIZE) mod FIELD_SIZE + y5 mod FIELD_SIZE) mod FIELD_SIZE =
  (y0 + y1 + y2 + y3 + y4 + y5) mod FIELD_SIZE.
Proof.
  pose proof poseidon_modulus_nonzero as Hp.
  rewrite Z.add_0_l, Z.mod_mod by exact Hp.
  rewrite <- (Z.add_mod y0 y1) by exact Hp.
  rewrite <- (Z.add_mod (y0 + y1) y2) by exact Hp.
  rewrite <- (Z.add_mod (y0 + y1 + y2) y3) by exact Hp.
  rewrite <- (Z.add_mod (y0 + y1 + y2 + y3) y4) by exact Hp.
  rewrite <- (Z.add_mod (y0 + y1 + y2 + y3 + y4) y5) by exact Hp.
  reflexivity.
Qed.

(** X12: the mixing matrix [M[i][j] = (i + 1) * (j + 1)] has rank one:
    every entry of [mix(state)] is a multiple of the one weighted sum
    [state[0] + 2 state[1] + ... + 6 state[5]], entry [i] being [i + 1]
    times that sum modulo p. *)
Theorem mix_rank_one (s0 s1 s2 s3 s4 s5 : Z) :
  let w := s0 + 2 * s1 + 3 * s2 + 4 * s3 + 5 * s4 + 6 * s5 in
  mix [s0; s1; s2; s3; s4; s5] =
  [w mod FIELD_SIZE; (2 * w) mod FIELD_SIZE; (3 * w) mod FIELD_SIZE;
   (4 * w) mod FIELD_SIZE; (5 * w) mod FIELD_SIZE; (6 * w) mod FIELD_SIZE].
Proof.
  pose proof poseidon_modulus_nonzero as Hp.
  intros w. subst w. unfold mix.
  cbn [fold_left seq t M map nth set_at repeat Z.of_nat Nat.mul Nat.add
       Pos.of_succ_nat Pos.succ].
  rewrite !poseidon_mod_spec, !accumulate_rows.
  repeat (apply (f_equal2 (@cons Z)); [f_equal; ring |]).
  reflexivity.
Qed.

Lemma fold_left_last_step {S R : Type} (P : S -> Prop) (f : S -> R -> S) :
  (forall s r, P (f s r)) ->
  forall l s, l <> [] -> P (fold_left f l s).
Proof.
  intros Hf. induction l as [| r l IH]; intros s Hl; [contradiction |].
  cbn [fold_left]. destruct l as [| r' l'].
  - apply Hf.
  - apply IH. discriminate.
Qed.

Lemma mix_head_range (state : list Z) :
  0 <= nth 0 (mix state) 0 < FIELD_SIZE.
Proof.
  unfold mix.
  cbn [fold_left seq t M map nth set_at repeat Z.of_nat Nat.mul Nat.add
       Pos.of_succ_nat Pos.succ].
  apply mod_range. reflexivity.
Qed.

(** X13: [poseidonHash] returns a field element, whatever the inputs. *)
Theorem poseidonHash_in_field (inputs : list Z) :
  0 <= poseidonHash inputs < FIELD_SIZE.
Proof.
  unfold poseidonHash, hash. cbv zeta.
  apply (fold_left_last_step (fun state => 0 <= nth 0 state 0 < FIELD_SIZE)).
  - intros s r. unfold round. apply mix_head_range.
  - discriminate.
Qed.

Lemma nth_app_zeros (xs : list Z) (k i : nat) :
  nth i (xs ++ repeat 0 k) 0 = nth i xs 0.
Proof.
  destruct (Nat.lt_ge_cases i (length xs)) as [Hlt | Hge].
  - now apply app_nth1.
  - rewrite app_nth2 by exact Hge.
    rewrite (nth_overflow xs) by exact Hge.
    apply nth_repeat.
Qed.

(** X14: absent inputs count as 0, so appending zeros to the input array
    does not change the hash: inputs of different lengths collide. *)
Theorem poseidonHash_trailing_zeros (xs : list Z) (k : nat) :
  poseidonHash (xs ++ repeat 0 k) = poseidonHash xs.
Proof.
  unfold poseidonHash, hash. rewrite !absorb_spec.
  replace (map (fun i => nth i (xs ++ repeat 0 k) 0 mod FIELD_SIZE) (seq 0 (t - 1)))
    with (map (fun i => nth i xs 0 mod FIELD_SIZE) (seq 0 (t - 1))).
  - reflexivity.
  - apply map_ext. intros i. now rewrite nth_app_zeros.
Qed.

End PoseidonRounds.

(** ** Constraint engine: the helper methods *)

Section CircuitOperations.
Import Circuit.
Local Open Scope string_scope.
Local Open Scope list_scope.
Local Open Scope Z_scope.

Lemma verifyCircuit_loop_app (a b c : list Z) :
  forall As Bs Cs,
    length As = length Bs -> length As = length Cs ->
    verifyCircuit_loop (As ++ [a]) (Bs ++ [b]) (Cs ++ [c]) =
    match verifyCircuit_loop As Bs Cs with
    | Some true => Some (sum a * sum b =? sum c)
    | r => r
    end.
Proof.
  induction As as [| a' As IH]; intros Bs Cs HB HC.
  - destruct Bs; [| discriminate]. destruct Cs; [| discriminate].
    cbn. destruct (sum a * sum b =? sum c); reflexivity.
  - destruct Bs as [| b' Bs]; [discriminate |].
    destruct Cs as [| c' Cs]; [discriminate |].
    cbn [app verifyCircuit_loop].
    destruct (negb (sum a' * sum b' =? sum c')); [reflexivity |].
    apply IH; [cbn in HB | cbn in HC]; lia.
Qed.

Lemma verifyCircuit_after_define (a b c : list Z) (pc : PaymentCircuit) :
  reachable pc ->
  verifyCircuit (defineConstraint a b c pc) =
  verifyCircuit pc && (sum a * sum b =? sum c).
Proof.
  intros Hreach.
  destruct (reachable_well_formed pc Hreach) as [HB HC].
  unfold verifyCircuit, defineConstraint. cbn [constraints A B C].
  rewrite verifyCircuit_loop_app by assumption.
  destruct (verifyCircuit_loop_spec _ _ _ HB HC) as [r [Hr _]].
  rewrite Hr. destruct r; reflexivity.
Qed.

Definition two_signals : PaymentCircuit :=
  setSignal "y" 6 (setSignal "x" 5 new).

Lemma two_signals_reachable : reachable two_signals.
Proof. apply reach_setSignal, reach_setSignal, reach_new. Qed.

(** X15: constraints only accumulate.  After [defineConstraint(A, B, C)]
    the circuit verifies exactly when it verified before and the new row
    satisfies (sum A) * (sum B) = (sum C); a circuit that fails
    verification keeps failing whatever is added. *)
Theorem defineConstraint_verifyCircuit (a b c : list Z) (pc : PaymentCircuit) :
  reachable pc ->
  verifyCircuit (defineConstraint a b c pc) =
    verifyCircuit pc && (sum a * sum b =? sum c) /\
  (verifyCircuit pc = false ->
   verifyCircuit (defineConstraint a b c pc) = false).
Proof.
  intros Hreach. rewrite verifyCircuit_after_define by exact Hreach.
  split; [reflexivity |]. intros ->. reflexivity.
Qed.

Lemma defineConstraint_verifyCircuit_witness :
  reachable two_signals /\
  (verifyCircuit (defineConstraint [2; 1] [4] [12] two_signals) =
     verifyCircuit two_signals && (sum [2; 1] * sum [4] =? sum [12]) /\
   (verifyCircuit two_signals = false ->
    verifyCircuit (defineConstraint [2; 1] [4] [12] two_signals) = false)).
Proof.
  split; [exact two_signals_reachable |].
  apply (defineConstraint_verifyCircuit _ _ _ _ two_signals_reachable).
Defined.

(** X16: [addRangeConstraint] throws when the signal is absent or its
    current value lies outside [min, max].  When it succeeds the value is
    in range, the signals are untouched, the recorded row is
    [value * 1 = value] (neither bound appears in it), and the answer of
    [verifyCircuit] is what it was before. *)
Theorem addRangeConstraint_outcome (signal : string) (min max : Z)
  (pc : PaymentCircuit) :
  reachable pc ->
  match addRangeConstraint signal min max pc with
  | inl pc' =>
      exists value,
        getSignal signal pc = Some value /\ min <= value <= max /\
        pc' = defineConstraint [value] [1] [value] pc /\
        signals pc' = signals pc /\
        verifyCircuit pc' = verifyCircuit pc
  | inr SignalNotFound => getSignal signal pc = None
  | inr OutOfRange =>
      exists value, getSignal signal pc = Some value /\ ~ min <= value <= max
  | inr MultiplicationMismatch => False
  end.
Proof.
  intros Hreach. unfold addRangeConstraint, getSignal, verifyRangeProof.
  destruct (map_get signal (signals pc)) as [value |]; [| reflexivity].
  destruct (Z.geb_spec value min) as [Hmin | Hmin];
    destruct (Z.leb_spec value max) as [Hmax | Hmax]; cbn [andb negb].
  - exists value. repeat split; try lia.
    rewrite verifyCircuit_after_define by exact Hreach.
    unfold sum. cbn [fold_left].
    replace (0 + value) with value by lia.
    replace (0 + 1) with 1 by lia.
    rewrite Z.mul_1_r, Z.eqb_refl. apply andb_true_r.
  - exists value. split; [reflexivity | lia].
  - exists value. split; [reflexivity | lia].
  - exists value. split; [reflexivity | lia].
Qed.

Lemma addRangeConstraint_outcome_witness :
  reachable two_signals /\
  match addRangeConstraint "x" 0 10 two_signals with
  | inl pc' =>
      exists value,
        getSignal "x" two_signals = Some value /\ 0 <= value <= 10 /\
        pc' = defineConstraint [value] [1] [value] two_signals /\
        signals pc' = signals two_signals /\
        verifyCircuit pc' = verifyCircuit two_signals
  | inr SignalNotFound => getSignal "x" two_signals = None
  | inr OutOfRange =>
      exists value, getSignal "x" two_signals = Some value /\ ~ 0 <= value <= 10
  | inr MultiplicationMismatch => False
  end.
Proof.
  split; [exact two_signals_reachable |].
  apply (addRangeConstraint_outcome "x" 0 10 two_signals two_signals_reachable).
Defined.

(** X17: [addEqualityConstraint] throws only when a signal is absent; it
    does not compare the two values.  It records [value1 * 1 = value2], so
    afterwards [verifyCircuit] holds exactly when it held before and the
    two values read at the call are equal. *)
Theorem addEqualityConstraint_outcome (signal1 signal2 : string)
  (pc : PaymentCircuit) :
  reachable pc ->
  match addEqualityConstraint signal1 signal2 pc with
  | inl pc' =>
      exists value1 value2,
        getSignal signal1 pc = Some value1 /\
        getSignal signal2 pc = Some value2 /\
        verifyCircuit pc' = verifyCircuit pc && (value1 =? value2)
  | inr e =>
      e = SignalNotFound /\
      (getSignal signal1 pc = None \/ getSignal signal2 pc = None)
  end.
Proof.
  intros Hreach. unfold addEqualityConstraint, getSignal.
  destruct (map_get signal1 (signals pc)) as [value1 |];
    [| split; [reflexivity | left; reflexivity]].
  destruct (map_get signal2 (signals pc)) as [value2 |];
    [| split; [reflexivity | right; reflexivity]].
  exists value1, value2. repeat split.
  rewrite verifyCircuit_after_define by exact Hreach.
  unfold sum. cbn [fold_left].
  replace (0 + value1) with value1 by lia.
  replace (0 + value2) with value2 by lia.
  replace (0 + 1) with 1 by lia.
  rewrite Z.mul_1_r. reflexivity.
Qed.

Lemma addEqualityConstraint_outcome_witness :
  reachable two_signals /\
  match addEqualityConstraint "x" "y" two_signals with
  | inl pc' =>
      exists value1 value2,
        getSignal "x" two_signals = Some value1 /\
        getSignal "y" two_signals = Some value2 /\
        verifyCircuit pc' = verifyCircuit two_signals && (value1 =? value2)
  | inr e =>
      e = SignalNotFound /\
      (getSignal "x" two_signals = None \/ getSignal "y" two_signals = None)
  end.
Proof.
  split; [exact two_signals_reachable |].
  apply (addEqualityConstraint_outcome "x" "y" two_signals two_signals_reachable).
Defined.

(** X18: [addMultiplicationConstraint] throws when a signal is absent or
    the product of the first two values differs from the third; when it
    succeeds the product holds and [verifyCircuit] answers as before. *)
Theorem addMultiplicationConstraint_outcome (signal1 signal2 resultSignal : string)
  (pc : PaymentCircuit) :
  reachable pc ->
  match addMultiplicationConstraint signal1 signal2 resultSignal pc with
  | inl pc' =>
      exists value1 value2 result,
        getSignal signal1 pc = Some value1 /\
        getSignal signal2 pc = Some value2 /\
        getSignal resultSignal pc = Some result /\
        value1 * value2 = result /\
        verifyCircuit pc' = verifyCircuit pc
  | inr SignalNotFound =>
      getSignal signal1 pc = None \/ getSignal signal2 pc = None \/
      getSignal resultSignal pc = None
  | inr MultiplicationMismatch =>
      exists value1 value2 result,
        getSignal signal1 pc = Some value1 /\
        getSignal signal2 pc = Some value2 /\
        getSignal resultSignal pc = Some result /\
        value1 * value2 <> result
  | inr OutOfRange => False
  end.
Proof.
  intros Hreach. unfold addMultiplicationConstraint, getSignal.
  destruct (map_get signal1 (signals pc)) as [value1 |];
    [| left; reflexivity].
  destruct (map_get signal2 (signals pc)) as [value2 |];
    [| right; left; reflexivity].
  destruct (map_get resultSignal (signals pc)) as [result |];
    [| right; right; reflexivity].
  cbv zeta.
  destruct (Z.eqb_spec (value1 * value2) result) as [Heq | Hne]; cbn [negb].
  - exists value1, value2, result. repeat split; try exact Heq.
    rewrite verifyCircuit_after_define by exact Hreach.
    unfold sum. cbn [fold_left].
    replace (0 + value1) with value1 by lia.
    replace (0 + value2) with value2 by lia.
    replace (0 + result) with result by lia.
    rewrite Heq, Z.eqb_refl. apply andb_true_r.
  - exists value1, value2, result. repeat split. exact Hne.
Qed.

Lemma addMultiplicationConstraint_outcome_witness :
  reachable two_signals /\
  match addMultiplicationConstraint "x" "y" "x" two_signals with
  | inl pc' =>
      exists value1 value2 result,
        getSignal "x" two_signals = Some value1 /\
        getSignal "y" two_signals = Some value2 /\
        getSignal "x" two_signals = Some result /\
        value1 * value2 = result /\
        verifyCircuit pc' = verifyCircuit two_signals
  | inr SignalNotFound =>
      getSignal "x" two_signals = None \/ getSignal "y" two_signals = None \/
      getSignal "x" two_signals = None
  | inr MultiplicationMismatch =>
      exists value1 value2 result,
        getSignal "x" two_signals = Some value1 /\
        getSignal "y" two_signals = Some value2 /\
        getSignal "x" two_signals = Some result /\
        value1 * value2 <> result
  | inr OutOfRange => False
  end.
Proof.
  split; [exact two_signals_reachable |].
  apply (addMultiplicationConstraint_outcome "x" "y" "x" two_signals
           two_signals_reachable).
Defined.

Lemma map_get_set_same (name : string) (value : Z) (m : list (string * Z)) :
  map_get name (map_set name value m) = Some value.
Proof.
  induction m as [| [k v] m IH]; cbn [map_set map_get].
  - now rewrite String.eqb_refl.
  - destruct (String.eqb_spec k name) as [-> | Hne]; cbn [map_get].
    + now rewrite String.eqb_refl.
    + destruct (String.eqb_spec k name); [contradiction | exact IH].
Qed.

Lemma map_get_set_other (name other : string) (value : Z) (m : list (string * Z)) :
  other <> name -> map_get other (map_set name value m) = map_get other m.
Proof.
  intros Hne. induction m as [| [k v] m IH]; cbn [map_set map_get].
  - destruct (String.eqb_spec name other); [congruence | reflexivity].
  - destruct (String.eqb_spec k name) as [-> | Hk]; cbn [map_get].
    + destruct (String.eqb_spec name other); [congruence | reflexivity].
    + destruct (String.eqb_spec k other); [reflexivity | exact IH].
Qed.

(** The signal store behaves as a map: [getSignal] after [setSignal]
    returns the value just set for that name and the earlier answer for
    every other name; recording a constraint changes no signal. *)
Lemma getSignal_setSignal (name other : string) (value : Z) (a b c : list Z)
  (pc : PaymentCircuit) :
  getSignal name (setSignal name value pc) = Some value /\
  (other <> name ->
   getSignal other (setSignal name value pc) = getSignal other pc) /\
  getSignal other (defineConstraint a b c pc) = getSignal other pc.
Proof.
  unfold getSignal, setSignal. cbn [signals].
  split; [apply map_get_set_same |].
  split; [apply map_get_set_other | reflexivity].
Qed.

Lemma reachable_one (pc : PaymentCircuit) :
  reachable pc -> exists v rest, signals pc = ("one", v) :: rest.
Proof.
  assert (Hdefine : forall a b c pc0, signals (defineConstraint a b c pc0) = signals pc0)
    by reflexivity.
  induction 1 as [| name value pc _ IH | a b c pc _ IH
                  | signal min max pc pc' _ IH Hop
                  | s1 s2 pc pc' _ IH Hop
                  | s1 s2 r pc pc' _ IH Hop
                  | pc _ IH].
  - exists 1, []. reflexivity.
  - destruct IH as [v [rest Hs]]. unfold setSignal. cbn [signals].
    rewrite Hs. cbn [map_set].
    destruct (String.eqb_spec "one" name).
    + exists value, rest. reflexivity.
    + exists v, (map_set name value rest). reflexivity.
  - exact IH.
  - unfold addRangeConstraint in Hop.
    destruct (map_get signal (signals pc)); [| discriminate].
    destruct (negb _); [discriminate |].
    injection Hop as <-. exact IH.
  - unfold addEqualityConstraint in Hop.
    destruct (map_get s1 (signals pc)); [| discriminate].
    destruct (map_get s2 (signals pc)); [| discriminate].
    injection Hop as <-. exact IH.
  - unfold addMultiplicationConstraint in Hop.
    destruct (map_get s1 (signals pc)); [| discriminate].
    destruct (map_get s2 (signals pc)); [| discriminate].
    destruct (map_get r (signals pc)); [| discriminate].
    destruct (negb _); [discriminate |].
    injection Hop as <-. exact IH.
  - exists 1, []. reflexivity.
Qed.

(** X19: on every circuit built through the public methods the witness
    starts with the signal 'one', which the constructor and [reset] set
    to 1.  The signal is not protected: [setSignal('one', v)] overwrites
    it, and the witness then starts with [v], the other entries
    unchanged. *)
Theorem generateWitness_one (value : Z) (pc : PaymentCircuit) :
  reachable pc ->
  exists one rest,
    getSignal "one" pc = Some one /\
    generateWitness pc = one :: rest /\
    generateWitness (setSignal "one" value pc) = value :: rest /\
    generateWitness (reset pc) = [1].
Proof.
  intros Hreach. destruct (reachable_one pc Hreach) as [v [rest Hs]].
  exists v, (map snd rest).
  unfold getSignal, generateWitness, setSignal. cbn [signals].
  rewrite Hs. repeat split.
Qed.

Lemma generateWitness_one_witness :
  reachable two_signals /\
  exists one rest,
    getSignal "one" two_signals = Some one /\
    generateWitness two_signals = one :: rest /\
    generateWitness (setSignal "one" 9 two_signals) = 9 :: rest /\
    generateWitness (reset two_signals) = [1].
Proof.
  split; [exact two_signals_reachable |].
  apply (generateWitness_one 9 two_signals two_signals_reachable).
Defined.

End CircuitOperations.

(** ** Merkle tree *)

Section MerkleFacts.
Import MerkleTree.

Variable hashPair : string -> string -> string.

Local Abbreviation nextLayer := (MerkleTree.nextLayer hashPair).
Local Abbreviation buildLayers := (MerkleTree.buildLayers hashPair).

Lemma pad_spec (d : depth_t) :
  forall n (l : list string),
    (pow2 d - length l = n)%nat ->
    MerkleTree.pad l d = l ++ repeat ZeroHash n.
Proof.
  induction n as [| n IH]; intros l Hn; rewrite pad_equation_1;
    destruct (lt_dec (length l) (pow2 d)) as [Hlt | Hge]; cbn [pad_unfold_clause_1];
    try lia.
  - now rewrite app_nil_r.
  - rewrite (IH (l ++ [ZeroHash])) by (rewrite length_app; cbn; lia).
    rewrite <- app_assoc. reflexivity.
Qed.

Lemma pad_length (d : depth_t) (l : list string) :
  (length l <= pow2 d)%nat -> length (MerkleTree.pad l d) = pow2 d.
Proof.
  intros H. rewrite (pad_spec d _ l eq_refl), length_app, repeat_length. lia.
Qed.

Lemma buildLayers_step (l : list string) :
  (1 < length l)%nat -> buildLayers l = nextLayer l :: buildLayers (nextLayer l).
Proof.
  intros H. rewrite buildLayers_equation_1.
  destruct (lt_dec 1 (length l)); [reflexivity | contradiction].
Qed.

Lemma buildLayers_stop (l : list string) :
  (length l <= 1)%nat -> buildLayers l = [].
Proof.
  intros H. rewrite buildLayers_equation_1.
  destruct (lt_dec 1 (length l)); [lia | reflexivity].
Qed.

Lemma nextLayer_pow2 (k : nat) (l : list string) :
  length l = (2 ^ S k)%nat -> length (nextLayer l) = (2 ^ k)%nat.
Proof.
  intros H. rewrite nextLayer_length, H, Nat.div2_div.
  rewrite Nat.pow_succ_r'.
  replace (S (2 * 2 ^ k))%nat with (1 + 2 ^ k * 2)%nat by lia.
  rewrite Nat.div_add by lia. reflexivity.
Qed.

Lemma nextLayer_nth :
  forall j (l : list string) d,
    (2 * j + 1 < length l)%nat ->
    nth j (nextLayer l) d = hashPair (nth (2 * j) l d) (nth (2 * j + 1) l d).
Proof.
  induction j as [| j IH]; intros l d Hlen.
  - destruct l as [| x [| y rest]]; cbn in Hlen; try lia. reflexivity.
  - destruct l as [| x [| y rest]]; cbn in Hlen; try lia.
    cbn [MerkleTree.nextLayer nth].
    rewrite IH by lia.
    replace (2 * S j)%nat with (S (S (2 * j))) by lia.
    replace (S (S (2 * j)) + 1)%nat with (S (S (2 * j + 1))) by lia.
    reflexivity.
Qed.

Lemma getProof_loop_acc :
  forall (ls : list (list string)) i acc,
    getProof_loop ls i acc = acc ++ getProof_loop ls i [].
Proof.
  induction ls as [| layer rest IH]; intros i acc; cbn [getProof_loop].
  - now rewrite app_nil_r.
  - destruct (_ <? _).
    + rewrite IH, (IH _ ([] ++ _)). cbn [app]. now rewrite <- app_assoc.
    + apply IH.
Qed.

(** The top of the pyramid above a layer. *)
Definition top (l : list string) : list string := last (l :: buildLayers l) [].

Lemma top_step (l : list string) :
  (1 < length l)%nat -> top l = top (nextLayer l).
Proof.
  intros H. unfold top. now rewrite buildLayers_step by assumption.
Qed.

Lemma removelast_layers_step (l : list string) :
  (1 < length l)%nat ->
  removelast (l :: buildLayers l) =
  l :: removelast (nextLayer l :: buildLayers (nextLayer l)).
Proof.
  intros H. now rewrite buildLayers_step by assumption.
Qed.

(** On a layer of [2^k] nodes, the sibling path of node [i] hashes back to
    the single node of the top layer. *)
Lemma path_recomputes_top :
  forall k (l : list string) (i : Z),
    length l = (2 ^ k)%nat -> 0 <= i < Z.of_nat (length l) ->
    exists root,
      nth_error (top l) 0 = Some root /\
      verifyProof_loop hashPair
        (getProof_loop (removelast (l :: buildLayers l)) i [])
        (nth (Z.to_nat i) l EmptyString) i = root.
Proof.
  induction k as [| k IH]; intros l i Hlen Hi.
  - destruct l as [| x [| y rest]]; try discriminate Hlen.
    exists x. unfold top. rewrite buildLayers_stop by (cbn; lia).
    cbn in Hi. replace i with 0 by lia. split; reflexivity.
  - assert (Hlen2 : (1 < length l)%nat).
    { rewrite Hlen. pose proof (Nat.pow_nonzero 2 k). rewrite Nat.pow_succ_r'. lia. }
    assert (Heven : (length l = 2 * 2 ^ k)%nat) by (rewrite Hlen; apply Nat.pow_succ_r').
    pose proof (nextLayer_pow2 k l Hlen) as Hnext.
    assert (Hi2 : 0 <= i / 2 < Z.of_nat (length (nextLayer l))).
    { rewrite Hnext. split; [apply Z.div_pos; lia |].
      apply Z.div_lt_upper_bound; lia. }
    destruct (IH (nextLayer l) (i / 2) Hnext Hi2) as [root [Hroot Hpath]].
    exists root. split; [now rewrite top_step |].
    rewrite removelast_layers_step by assumption.
    cbn [getProof_loop].
    assert (Hrem : Z.rem i 2 = i mod 2) by (apply Z.rem_mod_nonneg; lia).
    pose proof (Z.div_mod i 2 ltac:(lia)) as Hdm.
    pose proof (Z.mod_pos_bound i 2 ltac:(lia)) as Hmb.
    set (j := Z.to_nat (i / 2)).
    assert (Hj : (2 * j + 1 < length l)%nat) by (subst j; lia).
    rewrite Hrem.
    rewrite <- Hpath.
    assert (Hnode : nth (Z.to_nat (i / 2)) (nextLayer l) EmptyString =
                    hashPair (nth (2 * j) l EmptyString) (nth (2 * j + 1) l EmptyString))
      by (apply nextLayer_nth; assumption).
    destruct (Z.eqb_spec (i mod 2) 1) as [Hodd | Hev].
    + destruct (Z.ltb_spec (i - 1) (Z.of_nat (length l))); [| lia].
      rewrite getProof_loop_acc. cbn [app verifyProof_loop].
      rewrite Hrem. destruct (Z.eqb_spec (i mod 2) 0); [lia |].
      rewrite Hnode.
      replace (Z.to_nat (i - 1)) with (2 * j)%nat by (subst j; lia).
      replace (Z.to_nat i) with (2 * j + 1)%nat by (subst j; lia).
      reflexivity.
    + destruct (Z.ltb_spec (i + 1) (Z.of_nat (length l))); [| lia].
      rewrite getProof_loop_acc. cbn [app verifyProof_loop].
      rewrite Hrem. destruct (Z.eqb_spec (i mod 2) 0); [| lia].
      rewrite Hnode.
      replace (Z.to_nat (i + 1)) with (2 * j + 1)%nat by (subst j; lia).
      replace (Z.to_nat i) with (2 * j)%nat by (subst j; lia).
      reflexivity.
Qed.

(** *** Construction with the default depth *)

Definition default_depth (n : nat) : nat := Nat.max 1 (Nat.log2_up n).

Lemma initial_depth_nonempty (n : nat) :
  (0 < n)%nat -> initial_depth None n = Depth (default_depth n).
Proof.
  intros Hn. unfold initial_depth, default_depth, ceil_log2.
  destruct n as [| n]; [lia |].
  cbn [truthy]. destruct (Nat.log2_up (S n)) as [| d]; reflexivity.
Qed.

Lemma default_depth_fits (n : nat) : (0 < n)%nat -> (n <= 2 ^ default_depth n)%nat.
Proof.
  intros Hn. unfold default_depth.
  destruct (Nat.eq_dec n 1) as [-> | Hn1]; [cbn; lia |].
  pose proof (Nat.log2_up_spec n ltac:(lia)) as [_ Hup].
  apply Nat.le_trans with (2 ^ Nat.log2_up n)%nat; [assumption |].
  apply Nat.pow_le_mono_r; lia.
Qed.

(** The leaf layer of a tree: the leaves followed by zero hashes. *)
Definition padded (L : list string) : list string :=
  L ++ repeat ZeroHash (2 ^ default_depth (length L) - length L).

Lemma padded_length (L : list string) :
  L <> [] -> length (padded L) = (2 ^ default_depth (length L))%nat.
Proof.
  intros HL. unfold padded. rewrite length_app, repeat_length.
  pose proof (default_depth_fits (length L)).
  destruct L; [contradiction | cbn in *; lia].
Qed.

Lemma new_nonempty (L : list string) :
  L <> [] ->
  MerkleTree.new hashPair L None =
  {| leaves := L;
     layers := padded L :: buildLayers (padded L);
     depth := Depth (default_depth (length L)) |}.
Proof.
  intros HL. unfold MerkleTree.new, buildTree. cbn [leaves layers depth app].
  rewrite initial_depth_nonempty by (destruct L; [contradiction | cbn; lia]).
  rewrite (pad_spec _ _ L eq_refl). reflexivity.
Qed.

(** The part of C6 that the code meets: for a non-empty leaf list the
    default depth is ceil(log2(length)), at least 1, and layer 0 is the
    leaf list right-padded with the zero hash to [2^depth] entries. *)
Lemma new_default_depth_nonempty (L : list string) :
  L <> [] ->
  let t := MerkleTree.new hashPair L None in
  depth t = Depth (Nat.max 1 (Nat.log2_up (length L))) /\
  nth_error (layers t) 0 =
    Some (L ++ repeat ZeroHash (2 ^ Nat.max 1 (Nat.log2_up (length L)) - length L)) /\
  (forall layer0, nth_error (layers t) 0 = Some layer0 ->
     length layer0 = (2 ^ Nat.max 1 (Nat.log2_up (length L)))%nat).
Proof.
  intros HL t. subst t. rewrite new_nonempty by assumption.
  cbn [depth layers nth_error]. repeat split.
  intros layer0 [= <-]. now apply padded_length.
Qed.

(** C6 at the empty leaf list: [Math.log2(0)] is [-Infinity], which is
    truthy, so the [|| 1] fallback is not taken; the stored depth is
    [-Infinity] instead of 1 and no zero hash is added. *)
Theorem new_empty_depth :
  MerkleTree.new hashPair [] None =
  {| leaves := []; layers := [[]]; depth := NegInfinity |}.
Proof.
  unfold MerkleTree.new, buildTree. cbn [leaves layers depth app].
  rewrite (pad_spec _ _ [] eq_refl).
  rewrite buildLayers_stop by (cbn; lia).
  reflexivity.
Qed.

(** *** C5 *)

(** C5: in a tree built from [L] with the default depth, for every index
    [i] of [L], [getProof(i)] and [getRoot()] return, and the static
    [verifyProof(L[i], getProof(i), getRoot(), i)] is [true]. *)
Theorem verifyProof_getProof (L : list string) (i : Z) :
  0 <= i < Z.of_nat (length L) ->
  let t := MerkleTree.new hashPair L None in
  exists proof root,
    getProof t i = inl proof /\
    getRoot t = Some root /\
    verifyProof hashPair (nth (Z.to_nat i) L EmptyString) proof root i = true.
Proof.
  intros Hi t. subst t.
  assert (HL : L <> []) by (destruct L; [cbn in Hi; lia | discriminate]).
  rewrite new_nonempty by assumption.
  unfold getProof, getRoot, verifyProof. cbn [leaves layers].
  destruct (Z.ltb_spec i 0); [lia |].
  destruct (Z.geb_spec i (Z.of_nat (length L))); [lia |]. cbn [orb].
  pose proof (padded_length L HL) as Hlen.
  assert (Hi' : 0 <= i < Z.of_nat (length (padded L))).
  { unfold padded. rewrite length_app. lia. }
  destruct (path_recomputes_top _ (padded L) i Hlen Hi') as [root [Hroot Hpath]].
  exists (getProof_loop (removelast (padded L :: buildLayers (padded L))) i []), root.
  split; [reflexivity |]. split; [exact Hroot |].
  replace (nth (Z.to_nat i) L EmptyString) with (nth (Z.to_nat i) (padded L) EmptyString)
    by (unfold padded; apply app_nth1; lia).
  rewrite Hpath. apply String.eqb_refl.
Qed.

(** *** C3 *)

Lemma newLevel_nextLayer (l : list string) :
  X402Merkle.newLevel hashPair l = nextLayer l.
Proof. reflexivity. Qed.




End MerkleFacts.

(** *** Evaluation with Keccak-256 *)

Section MerkleEvaluation.
Local Open Scope string_scope.
Local Open Scope list_scope.

Definition leaf_a : string :=
  "0x00000000000000000000000000000000000000000000000000000000000000aa".
Definition leaf_b : string :=
  "0x00000000000000000000000000000000000000000000000000000000000000bb".
Definition leaf_c : string :=
  "0x00000000000000000000000000000000000000000000000000000000000000cc".

Lemma verifyProof_getProof_witness :
  0 <= 2 < Z.of_nat (length [leaf_a; leaf_b; leaf_c]) /\
  let t := MerkleTree.new Keccak.hashPair [leaf_a; leaf_b; leaf_c] None in
  exists proof root,
    MerkleTree.getProof t 2 = inl proof /\
    MerkleTree.getRoot t = Some root /\
    MerkleTree.verifyProof Keccak.hashPair
      (nth (Z.to_nat 2) [leaf_a; leaf_b; leaf_c] EmptyString) proof root 2 = true.
Proof.
  split; [cbn; lia |].
  apply (verifyProof_getProof Keccak.hashPair [leaf_a; leaf_b; leaf_c] 2).
  cbn; lia.
Defined.

Example three_leaf_proof :
  MerkleTree.getProof (MerkleTree.new Keccak.hashPair [leaf_a; leaf_b; leaf_c] None) 2
  = inl [ZeroHash; Keccak.hashPair leaf_a leaf_b].
Proof. vm_compute. reflexivity. Qed.



(** With three leaves the two reductions differ as well: the orchestrator
    pairs the third leaf with itself, the tree with the zero hash. *)
Example computeMerkleRoot_three_leaves_differ :
  MerkleTree.getRoot (MerkleTree.new Keccak.hashPair [leaf_a; leaf_b; leaf_c] None) <>
  Some (X402Merkle.computeMerkleRoot Keccak.hashPair [leaf_a; leaf_b; leaf_c]).
Proof. vm_compute. discriminate. Qed.

End MerkleEvaluation.

(** ** Merkle tree: layers, positions and updates *)

Section MerkleOperations.
Import MerkleTree.

Variable hashPair : string -> string -> string.

Local Abbreviation nextLayer := (MerkleTree.nextLayer hashPair).
Local Abbreviation buildLayers := (MerkleTree.buildLayers hashPair).

Lemma last_nth {A : Type} (l : list A) (d : A) :
  last l d = nth (Nat.pred (length l)) l d.
Proof.
  induction l as [| x [| y rest] IH]; try reflexivity.
  change (last (x :: y :: rest) d) with (last (y :: rest) d).
  rewrite IH. reflexivity.
Qed.

Lemma last_app_nonempty {A : Type} (l l' : list A) (d : A) :
  l' <> [] -> last (l ++ l') d = last l' d.
Proof.
  intros Hne. induction l as [| x l IH]; [reflexivity |].
  cbn [app]. destruct (l ++ l') as [| y rest] eqn:Happ.
  - destruct l; [cbn in Happ; contradiction | discriminate].
  - exact IH.
Qed.

Lemma pow2_gt_1 (k : nat) : (1 < 2 ^ S k)%nat.
Proof. pose proof (Nat.pow_nonzero 2 k). rewrite Nat.pow_succ_r'. lia. Qed.

(** Above a layer of [2^k] nodes lie [k] layers, layer [j] of the pyramid
    holding [2^(k - j)] nodes. *)
Lemma pyramid_sizes :
  forall k (l : list string),
    length l = (2 ^ k)%nat ->
    length (l :: buildLayers l) = S k /\
    forall j, (j <= k)%nat ->
      length (nth j (l :: buildLayers l) []) = (2 ^ (k - j))%nat.
Proof.
  induction k as [| k IH]; intros l Hlen.
  - rewrite buildLayers_stop by (rewrite Hlen; cbn; lia).
    split; [reflexivity |]. intros j Hj.
    replace j with 0%nat by lia. exact Hlen.
  - pose proof (pow2_gt_1 k) as Hgt.
    rewrite buildLayers_step by (rewrite Hlen; exact Hgt).
    destruct (IH (nextLayer l) (nextLayer_pow2 hashPair k l Hlen)) as [Hn Hsz].
    split; [cbn [length] in *; lia |].
    intros [| j] Hj; [exact Hlen |].
    cbn [nth Nat.sub]. apply Hsz. lia.
Qed.

Lemma top_length (k : nat) (l : list string) :
  length l = (2 ^ k)%nat -> length (top hashPair l) = 1%nat.
Proof.
  intros Hlen. destruct (pyramid_sizes k l Hlen) as [Hn Hsz].
  assert (Hl : last (l :: buildLayers l) [] = nth k (l :: buildLayers l) []).
  { rewrite last_nth, Hn. reflexivity. }
  unfold top. rewrite Hl, Hsz by lia. rewrite Nat.sub_diag. reflexivity.
Qed.

Lemma path_length :
  forall k (l : list string) (i : Z),
    length l = (2 ^ k)%nat -> 0 <= i < Z.of_nat (length l) ->
    length (getProof_loop (removelast (l :: buildLayers l)) i []) = k.
Proof.
  induction k as [| k IH]; intros l i Hlen Hi.
  - rewrite buildLayers_stop by (rewrite Hlen; cbn; lia). reflexivity.
  - pose proof (pow2_gt_1 k) as Hgt.
    assert (Heven : (length l = 2 * 2 ^ k)%nat)
      by (rewrite Hlen; apply Nat.pow_succ_r').
    pose proof (nextLayer_pow2 hashPair k l Hlen) as Hnext.
    assert (Hi2 : 0 <= i / 2 < Z.of_nat (length (nextLayer l))).
    { rewrite Hnext. split; [apply Z.div_pos; lia |].
      apply Z.div_lt_upper_bound; lia. }
    rewrite removelast_layers_step by (rewrite Hlen; exact Hgt).
    cbn [getProof_loop].
    assert (Hrem : Z.rem i 2 = i mod 2) by (apply Z.rem_mod_nonneg; lia).
    pose proof (Z.div_mod i 2 ltac:(lia)) as Hdm.
    pose proof (Z.mod_pos_bound i 2 ltac:(lia)) as Hmb.
    rewrite Hrem.
    assert (Hsib : ((if i mod 2 =? 1 then i - 1 else i + 1)
                    <? Z.of_nat (length l)) = true).
    { apply Z.ltb_lt. destruct (Z.eqb_spec (i mod 2) 1); lia. }
    rewrite Hsib, getProof_loop_acc, length_app.
    rewrite (IH (nextLayer l) (i / 2) Hnext Hi2). cbn [app length]. lia.
Qed.

(** The leaf layer for an explicit depth. *)
Definition fitted (L : list string) (d : nat) : list string :=
  L ++ repeat ZeroHash (2 ^ d - length L).

Lemma fitted_length (L : list string) (d : nat) :
  (length L <= 2 ^ d)%nat -> length (fitted L d) = (2 ^ d)%nat.
Proof. intros H. unfold fitted. rewrite length_app, repeat_length. lia. Qed.

Lemma new_explicit (L : list string) (d : nat) :
  (1 <= d)%nat ->
  MerkleTree.new hashPair L (Some d) =
  {| leaves := L;
     layers := fitted L d :: buildLayers (fitted L d);
     depth := Depth d |}.
Proof.
  intros Hd. destruct d as [| d]; [lia |].
  unfold MerkleTree.new, buildTree. cbn [leaves layers depth app initial_depth].
  rewrite (pad_spec _ _ L eq_refl). reflexivity.
Qed.

(** X20: with an explicit depth [d >= 1] that fits the leaves
    ([leaves.length <= 2^d]), the proof returned by [getProof(i)] for a
    valid index has exactly [d] elements and verifies against [getRoot()]
    at index [i]. *)
Theorem verifyProof_getProof_explicit_depth (L : list string) (d : nat) (i : Z) :
  (1 <= d)%nat -> (length L <= 2 ^ d)%nat -> 0 <= i < Z.of_nat (length L) ->
  let t := MerkleTree.new hashPair L (Some d) in
  exists proof root,
    getProof t i = inl proof /\
    getRoot t = Some root /\
    length proof = d /\
    verifyProof hashPair (nth (Z.to_nat i) L EmptyString) proof root i = true.
Proof.
  intros Hd Hfit Hi t. subst t.
  rewrite new_explicit by assumption.
  unfold getProof, getRoot, verifyProof. cbn [leaves layers].
  destruct (Z.ltb_spec i 0); [lia |].
  destruct (Z.geb_spec i (Z.of_nat (length L))); [lia |]. cbn [orb].
  pose proof (fitted_length L d Hfit) as Hlen.
  assert (Hi' : 0 <= i < Z.of_nat (length (fitted L d))) by (rewrite Hlen; lia).
  destruct (path_recomputes_top hashPair _ (fitted L d) i Hlen Hi')
    as [root [Hroot Hpath]].
  exists (getProof_loop (removelast (fitted L d :: buildLayers (fitted L d))) i []),
         root.
  split; [reflexivity |]. split; [exact Hroot |].
  split; [now apply path_length |].
  replace (nth (Z.to_nat i) L EmptyString)
    with (nth (Z.to_nat i) (fitted L d) EmptyString)
    by (unfold fitted; apply app_nth1; lia).
  rewrite Hpath. apply String.eqb_refl.
Qed.

(** X21: in a tree built from a non-empty leaf list with the default
    depth [d], there are [d + 1] layers: [getLayer(k)] returns a layer of
    [2^(d - k)] nodes for [0 <= k <= d] and throws 'Layer index out of
    bounds' for every other index; the sibling path of each valid leaf
    index has [d] elements. *)
Theorem getLayer_sizes (L : list string) (k i : Z) :
  L <> [] ->
  let t := MerkleTree.new hashPair L None in
  let d := Nat.max 1 (Nat.log2_up (length L)) in
  match getLayer t k with
  | inl layer => 0 <= k <= Z.of_nat d /\ length layer = (2 ^ (d - Z.to_nat k))%nat
  | inr _ => k < 0 \/ Z.of_nat d < k
  end /\
  (0 <= i < Z.of_nat (length L) ->
   exists proof, getProof t i = inl proof /\ length proof = d).
Proof.
  intros HL t d. subst t d.
  rewrite new_nonempty by assumption.
  pose proof (padded_length L HL) as Hlen. unfold default_depth in Hlen.
  destruct (pyramid_sizes _ (padded L) Hlen) as [Hn Hsz].
  split.
  - unfold getLayer. cbn [layers]. rewrite Hn.
    destruct (Z.ltb_spec k 0) as [Hneg | Hpos]; cbn [orb]; [left; lia |].
    destruct (Z.geb_spec k (Z.of_nat (S (Nat.max 1 (Nat.log2_up (length L))))))
      as [Hbig | Hsmall]; [right; lia |].
    split; [lia |]. apply Hsz. lia.
  - intros Hi. unfold getProof. cbn [leaves layers].
    destruct (Z.ltb_spec i 0); [lia |].
    destruct (Z.geb_spec i (Z.of_nat (length L))); [lia |]. cbn [orb].
    eexists. split; [reflexivity |].
    apply path_length; [exact Hlen |].
    unfold padded. rewrite length_app. lia.
Qed.

(** *** Proofs with positions *)

Lemma getProofWithPositions_loop_acc :
  forall (ls : list (list string)) i p q,
    getProofWithPositions_loop ls i p q =
    (p ++ fst (getProofWithPositions_loop ls i [] []),
     q ++ snd (getProofWithPositions_loop ls i [] [])).
Proof.
  induction ls as [| layer rest IH]; intros i p q; cbn [getProofWithPositions_loop].
  - cbn [fst snd]. now rewrite !app_nil_r.
  - destruct (_ <? _).
    + rewrite IH, (IH _ ([] ++ _) ([] ++ _)). cbn [app fst snd].
      now rewrite <- !app_assoc.
    + apply IH.
Qed.

Lemma getProofWithPositions_loop_proof :
  forall (ls : list (list string)) i,
    fst (getProofWithPositions_loop ls i [] []) = getProof_loop ls i [] /\
    length (snd (getProofWithPositions_loop ls i [] [])) =
    length (getProof_loop ls i []).
Proof.
  induction ls as [| layer rest IH]; intros i;
    cbn [getProofWithPositions_loop getProof_loop]; [split; reflexivity |].
  destruct (_ <? _).
  - rewrite getProofWithPositions_loop_acc, getProof_loop_acc.
    cbn [fst snd]. destruct (IH (i / 2)) as [-> Hl].
    split; [reflexivity |]. rewrite !length_app, Hl. reflexivity.
  - apply IH.
Qed.

(** [getProofWithPositions] returns the proof that [getProof] returns,
    with one position flag per proof element, and throws on the same
    indices; this holds for every tree. *)
Lemma getProofWithPositions_getProof (t : MerkleTree) (index : Z) :
  match getProofWithPositions t index with
  | inl (proof, positions) =>
      getProof t index = inl proof /\ length positions = length proof
  | inr e => getProof t index = inr e
  end.
Proof.
  unfold getProofWithPositions, getProof.
  destruct ((index <? 0) || (index >=? Z.of_nat (length (leaves t))));
    [reflexivity |].
  destruct (getProofWithPositions_loop_proof (removelast (layers t)) index)
    as [Hp Hq].
  destruct (getProofWithPositions_loop (removelast (layers t)) index [] [])
    as [proof positions].
  cbn [fst snd] in Hp, Hq. subst proof. split; [reflexivity | exact Hq].
Qed.

Lemma positions_follow_index :
  forall k (l : list string) (i : Z),
    length l = (2 ^ k)%nat -> 0 <= i < Z.of_nat (length l) ->
    forall x,
      verifyProofWithPositions_loop hashPair
        (fst (getProofWithPositions_loop (removelast (l :: buildLayers l)) i [] []))
        (snd (getProofWithPositions_loop (removelast (l :: buildLayers l)) i [] []))
        x =
      verifyProof_loop hashPair
        (getProof_loop (removelast (l :: buildLayers l)) i []) x i.
Proof.
  induction k as [| k IH]; intros l i Hlen Hi x.
  - rewrite buildLayers_stop by (rewrite Hlen; cbn; lia). reflexivity.
  - pose proof (pow2_gt_1 k) as Hgt.
    assert (Heven : (length l = 2 * 2 ^ k)%nat)
      by (rewrite Hlen; apply Nat.pow_succ_r').
    pose proof (nextLayer_pow2 hashPair k l Hlen) as Hnext.
    assert (Hi2 : 0 <= i / 2 < Z.of_nat (length (nextLayer l))).
    { rewrite Hnext. split; [apply Z.div_pos; lia |].
      apply Z.div_lt_upper_bound; lia. }
    rewrite removelast_layers_step by (rewrite Hlen; exact Hgt).
    cbn [getProofWithPositions_loop getProof_loop].
    assert (Hrem : Z.rem i 2 = i mod 2) by (apply Z.rem_mod_nonneg; lia).
    pose proof (Z.div_mod i 2 ltac:(lia)) as Hdm.
    pose proof (Z.mod_pos_bound i 2 ltac:(lia)) as Hmb.
    rewrite Hrem.
    assert (Hsib : ((if i mod 2 =? 1 then i - 1 else i + 1)
                    <? Z.of_nat (length l)) = true).
    { apply Z.ltb_lt. destruct (Z.eqb_spec (i mod 2) 1); lia. }
    rewrite Hsib, getProofWithPositions_loop_acc, getProof_loop_acc.
    cbn [fst snd app verifyProofWithPositions_loop verifyProof_loop tl].
    rewrite Hrem, IH by assumption.
    destruct (Z.eqb_spec (i mod 2) 1) as [Hodd | Hev];
      destruct (Z.eqb_spec (i mod 2) 0); try lia; reflexivity.
Qed.

(** X22: in a tree built with the default depth, [getProofWithPositions(i)]
    for a valid index returns the proof that [getProof(i)] returns, with
    one position flag per proof element, and proof and positions verify
    against [getRoot()] with [verifyProofWithPositions]. *)
Theorem verifyProofWithPositions_getProofWithPositions (L : list string) (i : Z) :
  0 <= i < Z.of_nat (length L) ->
  let t := MerkleTree.new hashPair L None in
  exists proof positions root,
    getProofWithPositions t i = inl (proof, positions) /\
    getProof t i = inl proof /\
    length positions = length proof /\
    getRoot t = Some root /\
    verifyProofWithPositions hashPair (nth (Z.to_nat i) L EmptyString)
      proof positions root = true.
Proof.
  intros Hi t. subst t.
  assert (HL : L <> []) by (destruct L; [cbn in Hi; lia | discriminate]).
  rewrite new_nonempty by assumption.
  unfold getProofWithPositions, getProof, getRoot, verifyProofWithPositions.
  cbn [leaves layers].
  destruct (Z.ltb_spec i 0); [lia |].
  destruct (Z.geb_spec i (Z.of_nat (length L))); [lia |]. cbn [orb].
  pose proof (padded_length L HL) as Hlen.
  assert (Hi' : 0 <= i < Z.of_nat (length (padded L))).
  { unfold padded. rewrite length_app. lia. }
  destruct (path_recomputes_top hashPair _ (padded L) i Hlen Hi')
    as [root [Hroot Hpath]].
  pose proof (positions_follow_index _ (padded L) i Hlen Hi'
                (nth (Z.to_nat i) L EmptyString)) as Hpos.
  destruct (getProofWithPositions_loop_proof
              (removelast (padded L :: buildLayers (padded L))) i) as [Hfst Hsnd].
  destruct (getProofWithPositions_loop
              (removelast (padded L :: buildLayers (padded L))) i [] [])
    as [proof positions].
  cbn [fst snd] in Hpos, Hfst, Hsnd.
  exists proof, positions, root.
  split; [reflexivity |].
  split; [now rewrite Hfst |].
  split; [now rewrite Hsnd, Hfst |].
  split; [exact Hroot |].
  rewrite Hpos.
  replace (nth (Z.to_nat i) L EmptyString)
    with (nth (Z.to_nat i) (padded L) EmptyString)
    by (unfold padded; apply app_nth1; lia).
  rewrite Hpath. apply String.eqb_refl.
Qed.

End MerkleOperations.

Section MerkleOperationsEvaluation.
Local Open Scope string_scope.
Local Open Scope list_scope.
Local Open Scope Z_scope.

Lemma verifyProof_getProof_explicit_depth_witness :
  (1 <= 3)%nat /\ (length ["a"; "b"; "c"] <= 2 ^ 3)%nat /\
  0 <= 1 < Z.of_nat (length ["a"; "b"; "c"]) /\
  let t := MerkleTree.new String.append ["a"; "b"; "c"] (Some 3%nat) in
  exists proof root,
    MerkleTree.getProof t 1 = inl proof /\
    MerkleTree.getRoot t = Some root /\
    length proof = 3%nat /\
    MerkleTree.verifyProof String.append (nth (Z.to_nat 1) ["a"; "b"; "c"] EmptyString)
      proof root 1 = true.
Proof.
  assert (H1 : (1 <= 3)%nat) by (repeat constructor).
  assert (H2 : (length ["a"; "b"; "c"] <= 2 ^ 3)%nat) by (cbn; repeat constructor).
  assert (H3 : 0 <= 1 < Z.of_nat (length ["a"; "b"; "c"])) by (cbn; lia).
  split; [exact H1 |]. split; [exact H2 |]. split; [exact H3 |].
  apply (verifyProof_getProof_explicit_depth String.append ["a"; "b"; "c"] 3 1 H1 H2 H3).
Defined.

Lemma verifyProofWithPositions_getProofWithPositions_witness :
  0 <= 1 < Z.of_nat (length ["a"; "b"; "c"]) /\
  let t := MerkleTree.new String.append ["a"; "b"; "c"] None in
  exists proof positions root,
    MerkleTree.getProofWithPositions t 1 = inl (proof, positions) /\
    MerkleTree.getProof t 1 = inl proof /\
    length positions = length proof /\
    MerkleTree.getRoot t = Some root /\
    MerkleTree.verifyProofWithPositions String.append
      (nth (Z.to_nat 1) ["a"; "b"; "c"] EmptyString) proof positions root = true.
Proof.
  assert (H : 0 <= 1 < Z.of_nat (length ["a"; "b"; "c"])) by (cbn; lia).
  split; [exact H |].
  apply (verifyProofWithPositions_getProofWithPositions String.append
           ["a"; "b"; "c"] 1 H).
Defined.

Lemma getLayer_sizes_witness :
  ["a"; "b"; "c"] <> [] /\
  let t := MerkleTree.new String.append ["a"; "b"; "c"] None in
  let d := Nat.max 1 (Nat.log2_up (length ["a"; "b"; "c"])) in
  match MerkleTree.getLayer t 1 with
  | inl layer => 0 <= 1 <= Z.of_nat d /\ length layer = (2 ^ (d - Z.to_nat 1))%nat
  | inr _ => 1 < 0 \/ Z.of_nat d < 1
  end /\
  (0 <= 2 < Z.of_nat (length ["a"; "b"; "c"]) ->
   exists proof, MerkleTree.getProof t 2 = inl proof /\ length proof = d).
Proof.
  assert (H : ["a"; "b"; "c"] <> []) by discriminate.
  split; [exact H |].
  apply (getLayer_sizes String.append ["a"; "b"; "c"] 1 2 H).
Defined.

End MerkleOperationsEvaluation.

(** *** Adding and replacing leaves *)

Section MerkleUpdates.
Import MerkleTree.

Variable hashPair : string -> string -> string.

Local Abbreviation nextLayer := (MerkleTree.nextLayer hashPair).
Local Abbreviation buildLayers := (MerkleTree.buildLayers hashPair).

(** The tree that [buildTree] builds from scratch from given leaves and a
    given stored depth. *)
Definition rebuilt (L : list string) (d : depth_t) : MerkleTree :=
  buildTree hashPair {| leaves := L; layers := []; depth := d |}.

Lemma buildTree_layers (t : MerkleTree) :
  layers (buildTree hashPair t) =
  layers t ++ layers (rebuilt (leaves t) (depth t)).
Proof. reflexivity. Qed.

Lemma buildTree_getRoot (t : MerkleTree) :
  getRoot (buildTree hashPair t) = getRoot (rebuilt (leaves t) (depth t)).
Proof.
  unfold getRoot. rewrite buildTree_layers.
  rewrite last_app_nonempty by discriminate. reflexivity.
Qed.

(** X23: [addLeaf] returns the index of the new leaf and keeps the stored
    depth.  It does not replace the layers: the layers of the tree
    re-built from the new leaf list are appended behind the old ones.
    [getRoot] reads the last layer, so it is the root of the re-built
    tree. *)
Theorem addLeaf_outcome (leaf : string) (t : MerkleTree) :
  let t' := fst (addLeaf hashPair leaf t) in
  snd (addLeaf hashPair leaf t) = Z.of_nat (length (leaves t)) /\
  leaves t' = leaves t ++ [leaf] /\
  depth t' = depth t /\
  layers t' = layers t ++ layers (rebuilt (leaves t ++ [leaf]) (depth t)) /\
  getRoot t' = getRoot (rebuilt (leaves t ++ [leaf]) (depth t)).
Proof.
  unfold addLeaf. cbn [fst snd].
  split.
  - cbn [leaves buildTree]. rewrite length_app. cbn [length]. lia.
  - split; [reflexivity |]. split; [reflexivity |].
    split; [reflexivity |].
    exact (buildTree_getRoot
             {| leaves := leaves t ++ [leaf]; layers := layers t; depth := depth t |}).
Qed.

Lemma getProof_loop_app :
  forall (ls1 ls2 : list (list string)) i acc,
    getProof_loop (ls1 ++ ls2) i acc =
    getProof_loop ls2 (i / 2 ^ Z.of_nat (length ls1)) (getProof_loop ls1 i acc).
Proof.
  induction ls1 as [| layer rest IH]; intros ls2 i acc.
  - cbn [app length getProof_loop Z.of_nat]. now rewrite Z.pow_0_r, Z.div_1_r.
  - cbn [app getProof_loop]. rewrite IH. f_equal.
    cbn [length]. rewrite Nat2Z.inj_succ, Z.pow_succ_r by lia.
    rewrite Z.div_div by lia. reflexivity.
Qed.

Lemma pad_longer (l : list string) (d : depth_t) :
  (pow2 d <= length (pad l d))%nat /\ (length l <= length (pad l d))%nat.
Proof.
  rewrite (pad_spec d _ l eq_refl), length_app, repeat_length. lia.
Qed.

(** X24: after [addLeaf], [getProof(i)] still walks the old layers
    first.  On a tree built with the default depth [d], the proof it
    returns for an old index is the sibling path of the old tree ([d]
    elements) followed by at least one node of the re-built tree, so it is
    longer than the depth and begins with nodes of a tree whose root
    [getRoot] no longer returns. *)
Theorem addLeaf_getProof_stale (L : list string) (leaf : string) (i : Z) :
  0 <= i < Z.of_nat (length L) ->
  let t := MerkleTree.new hashPair L None in
  let t' := fst (addLeaf hashPair leaf t) in
  exists old extra,
    getProof t i = inl old /\
    length old = Nat.max 1 (Nat.log2_up (length L)) /\
    getProof t' i = inl (old ++ extra) /\
    (0 < length extra)%nat /\
    extra = getProof_loop
              (removelast (layers (rebuilt (L ++ [leaf]) (depth t)))) 0 [].
Proof.
  intros Hi t t'. subst t t'.
  assert (HL : L <> []) by (destruct L; [cbn in Hi; lia | discriminate]).
  rewrite new_nonempty by assumption.
  unfold addLeaf, getProof, rebuilt, buildTree.
  cbn [fst leaves layers depth app].
  rewrite length_app. cbn [length].
  destruct (Z.ltb_spec i 0); [lia |].
  destruct (Z.geb_spec i (Z.of_nat (length L))); [lia |].
  destruct (Z.geb_spec i (Z.of_nat (length L + 1))); [lia |]. cbn [orb].
  pose proof (padded_length L HL) as Hlen.
  assert (Hi' : 0 <= i < Z.of_nat (length (padded L))).
  { unfold padded. rewrite length_app. lia. }
  set (d := default_depth (length L)) in *.
  set (F := pad (L ++ [leaf]) (Depth d)).
  set (old_layers := padded L :: buildLayers (padded L)).
  change (padded L :: buildLayers (padded L) ++ F :: buildLayers F)
    with (old_layers ++ F :: buildLayers F).
  assert (Hd : (1 <= d)%nat) by (subst d; unfold default_depth; lia).
  exists (getProof_loop (removelast old_layers) i []),
         (getProof_loop (removelast (F :: buildLayers F)) 0 []).
  split; [reflexivity |].
  split; [apply path_length; assumption |].
  assert (Hpow : 0 < 2 ^ Z.of_nat d) by (apply Z.pow_pos_nonneg; lia).
  assert (Hbound : i < 2 ^ Z.of_nat d).
  { rewrite Hlen in Hi'. rewrite Nat2Z.inj_pow in Hi'. exact (proj2 Hi'). }
  split; [| split; [| reflexivity]].
  - f_equal. rewrite removelast_app by discriminate.
    rewrite getProof_loop_app.
    destruct (pyramid_sizes hashPair d (padded L) Hlen) as [Hn _].
    fold old_layers in Hn. rewrite Hn.
    replace (i / 2 ^ Z.of_nat (S d)) with 0.
    2:{ symmetry. apply Z.div_small.
        rewrite Nat2Z.inj_succ, Z.pow_succ_r by lia. lia. }
    rewrite (getProof_loop_acc _ 0). f_equal.
    assert (Hsplit : old_layers = removelast old_layers ++ [top hashPair (padded L)])
      by (apply app_removelast_last; discriminate).
    assert (Hrl : length (removelast old_layers) = d).
    { pose proof (f_equal (@length _) Hsplit) as Hl.
      rewrite length_app in Hl. cbn [length] in Hl. lia. }
    rewrite Hsplit at 1. rewrite getProof_loop_app.
    rewrite Hrl, Z.div_small by lia.
    cbn [getProof_loop].
    rewrite (top_length hashPair d (padded L) Hlen). reflexivity.
  - assert (HF : (1 < length F)%nat).
    { pose proof (pad_longer (L ++ [leaf]) (Depth d)) as [Hp _]. fold F in Hp.
      cbn [pow2] in Hp. destruct d as [| d']; [lia |].
      pose proof (pow2_gt_1 d'). lia. }
    rewrite removelast_layers_step by exact HF.
    cbn [getProof_loop].
    change (Z.rem 0 2 =? 1) with false. cbn [Z.add].
    destruct (Z.ltb_spec 1 (Z.of_nat (length F))); [| lia].
    rewrite getProof_loop_acc, length_app. cbn [app length]. lia.
Qed.

Lemma assign_length (i : nat) (v : string) (l : list string) :
  length (assign i v l) = length l.
Proof.
  revert i. induction l as [| x l IH]; intros [| i]; cbn [assign length];
    try reflexivity. now rewrite IH.
Qed.

Lemma assign_nth (i j : nat) (v : string) (l : list string) :
  (i < length l)%nat ->
  nth j (assign i v l) EmptyString = if Nat.eqb j i then v else nth j l EmptyString.
Proof.
  revert i j. induction l as [| x l IH]; intros i j Hi; [cbn in Hi; lia |].
  destruct i as [| i], j as [| j]; cbn [assign nth Nat.eqb]; try reflexivity.
  apply IH. cbn in Hi. lia.
Qed.

(** X25: [updateLeaf] throws 'Index out of bounds' exactly for indices
    outside the leaf array.  Otherwise it replaces that one leaf, keeps
    the number of leaves and the stored depth, appends the layers of the
    re-built tree behind the old ones, and [getRoot] is the root of the
    re-built tree. *)
Theorem updateLeaf_outcome (index : Z) (newLeaf : string) (t : MerkleTree) (j : nat) :
  match updateLeaf hashPair index newLeaf t with
  | inl t' =>
      0 <= index < Z.of_nat (length (leaves t)) /\
      length (leaves t') = length (leaves t) /\
      nth j (leaves t') EmptyString =
        (if Nat.eqb j (Z.to_nat index) then newLeaf else nth j (leaves t) EmptyString) /\
      depth t' = depth t /\
      layers t' = layers t ++ layers (rebuilt (leaves t') (depth t)) /\
      getRoot t' = getRoot (rebuilt (leaves t') (depth t))
  | inr e =>
      e = IndexOutOfBounds /\
      (index < 0 \/ Z.of_nat (length (leaves t)) <= index)
  end.
Proof.
  unfold updateLeaf.
  destruct (Z.ltb_spec index 0) as [Hneg | Hpos]; cbn [orb];
    [split; [reflexivity | left; exact Hneg] |].
  destruct (Z.geb_spec index (Z.of_nat (length (leaves t)))) as [Hbig | Hsmall];
    [split; [reflexivity | right; lia] |].
  split; [lia |].
  split; [cbn [leaves buildTree]; apply assign_length |].
  split; [cbn [leaves buildTree]; apply assign_nth; lia |].
  split; [reflexivity |].
  split; [reflexivity |].
  exact (buildTree_getRoot
           {| leaves := assign (Z.to_nat index) newLeaf (leaves t);
              layers := layers t; depth := depth t |}).
Qed.

End MerkleUpdates.

(** ** The orchestrator's Merkle proofs *)

Section ProtocolMerkle.
Import X402Merkle.

Variable hashPair : string -> string -> string.

Local Abbreviation newLevel := (X402Merkle.newLevel hashPair).
Local Abbreviation computeMerkleRoot := (X402Merkle.computeMerkleRoot hashPair).
Local Abbreviation createMerkleProof_loop := (X402Merkle.createMerkleProof_loop hashPair).

Lemma pair_induction (P : list string -> Prop) :
  P [] -> (forall x, P [x]) -> (forall x y l, P l -> P (x :: y :: l)) ->
  forall l, P l.
Proof.
  intros H0 H1 H2.
  assert (H : forall l, P l /\ forall x, P (x :: l)).
  { induction l as [| y l [IH IH']].
    - split; [exact H0 | exact H1].
    - split; [apply IH' |]. intros x. apply H2. exact IH. }
  intros l. apply H.
Qed.

(** The sibling of the node at position [k] of a level: the right
    neighbour of an even position (the node itself when there is none),
    the left neighbour of an odd one. *)
Definition sibling_of (l : list string) (k : nat) : string :=
  if Nat.even k
  then (if (k + 1 <? length l)%nat then nth (k + 1) l EmptyString
        else nth k l EmptyString)
  else nth (k - 1) l EmptyString.

Lemma sibling_pass_before :
  forall l p i acc, i < p -> sibling_pass l p i acc = acc.
Proof.
  induction l as [| x | x y l IH] using pair_induction; intros p i acc Hlt;
    cbn [sibling_pass]; [reflexivity | |].
  - destruct (Z.eqb_spec p i); [lia |].
    destruct (Z.eqb_spec (p + 1) i); [lia | reflexivity].
  - destruct (Z.eqb_spec p i); [lia |].
    destruct (Z.eqb_spec (p + 1) i); [lia |]. cbn [orb].
    apply IH. lia.
Qed.

Lemma sibling_of_shift (x y : string) (l : list string) (k : nat) :
  sibling_of (x :: y :: l) (S (S k)) = sibling_of l k.
Proof.
  unfold sibling_of. cbn [Nat.even length].
  destruct (Nat.even k) eqn:Hev.
  - replace (S (S k) + 1)%nat with (S (S (k + 1))) by lia.
    change (S (S (k + 1)) <? S (S (length l)))%nat with (k + 1 <? length l)%nat.
    reflexivity.
  - destruct k as [| k]; [discriminate |].
    replace (S (S (S k)) - 1)%nat with (S (S k)) by lia.
    replace (S k - 1)%nat with k by lia. reflexivity.
Qed.

Lemma sibling_pass_at :
  forall l p i acc,
    p <= i < p + Z.of_nat (length l) ->
    sibling_pass l p i acc = acc ++ [sibling_of l (Z.to_nat (i - p))].
Proof.
  induction l as [| x | x y l IH] using pair_induction; intros p i acc Hi;
    cbn [sibling_pass].
  - cbn in Hi. lia.
  - cbn in Hi. replace i with p by lia.
    rewrite Z.eqb_refl, Z.sub_diag. reflexivity.
  - destruct (Z.eqb_spec p i) as [-> | Hne].
    + cbn [orb]. rewrite sibling_pass_before by lia.
      rewrite Z.sub_diag. reflexivity.
    + destruct (Z.eqb_spec (p + 1) i) as [<- | Hne1]; cbn [orb].
      * rewrite sibling_pass_before by lia.
        replace (p + 1 - p) with 1 by lia. reflexivity.
      * cbn [length] in Hi. rewrite IH by lia.
        replace (Z.to_nat (i - p)) with (S (S (Z.to_nat (i - (p + 2))))) by lia.
        rewrite sibling_of_shift. reflexivity.
Qed.

Lemma newLevel_nth_general :
  forall j (l : list string),
    (2 * j < length l)%nat ->
    nth j (newLevel l) EmptyString =
    hashPair (nth (2 * j) l EmptyString)
             (if (2 * j + 1 <? length l)%nat then nth (2 * j + 1) l EmptyString
              else nth (2 * j) l EmptyString).
Proof.
  induction j as [| j IH]; intros l Hlen.
  - destruct l as [| x [| y rest]]; cbn in Hlen; try lia; reflexivity.
  - destruct l as [| x [| y rest]]; cbn in Hlen; try lia.
    cbn [X402Merkle.newLevel nth]. rewrite IH by lia.
    replace (2 * S j)%nat with (S (S (2 * j))) by lia.
    replace (S (S (2 * j)) + 1)%nat with (S (S (2 * j + 1))) by lia.
    reflexivity.
Qed.

Lemma createMerkleProof_loop_step (l : list string) (i : Z) (acc : list string) :
  (1 < length l)%nat ->
  createMerkleProof_loop l i acc =
  createMerkleProof_loop (newLevel l) (i / 2) (sibling_pass l 0 i acc).
Proof.
  intros H. rewrite createMerkleProof_loop_equation_1.
  destruct (lt_dec 1 (length l)); [reflexivity | contradiction].
Qed.

Lemma createMerkleProof_loop_stop (l : list string) (i : Z) (acc : list string) :
  (length l <= 1)%nat -> createMerkleProof_loop l i acc = acc.
Proof.
  intros H. rewrite createMerkleProof_loop_equation_1.
  destruct (lt_dec 1 (length l)); [lia | reflexivity].
Qed.

Lemma sibling_pass_acc :
  forall l p i acc, sibling_pass l p i acc = acc ++ sibling_pass l p i [].
Proof.
  induction l as [| x | x y l IH] using pair_induction; intros p i acc;
    cbn [sibling_pass].
  - now rewrite app_nil_r.
  - destruct (_ || _); [reflexivity | now rewrite app_nil_r].
  - destruct (_ || _).
    + rewrite IH, (IH _ _ ([] ++ _)). cbn [app]. now rewrite <- app_assoc.
    + apply IH.
Qed.

Lemma createMerkleProof_loop_acc :
  forall n (l : list string), length l = n ->
    forall i acc,
      createMerkleProof_loop l i acc = acc ++ createMerkleProof_loop l i [].
Proof.
  induction n as [n IH] using lt_wf_ind. intros l Hn i acc.
  destruct (le_lt_dec (length l) 1) as [Hle | Hgt].
  - rewrite (createMerkleProof_loop_stop l i acc Hle).
    rewrite (createMerkleProof_loop_stop l i [] Hle). now rewrite app_nil_r.
  - rewrite (createMerkleProof_loop_step l i acc Hgt).
    rewrite (createMerkleProof_loop_step l i [] Hgt).
    pose proof (newLevel_shorter hashPair l Hgt) as Hshort.
    rewrite (IH (length (newLevel l)) ltac:(lia) _ eq_refl (i / 2)
               (sibling_pass l 0 i acc)).
    rewrite (IH (length (newLevel l)) ltac:(lia) _ eq_refl (i / 2)
               (sibling_pass l 0 i [])).
    rewrite sibling_pass_acc, <- app_assoc. reflexivity.
Qed.

Lemma computeMerkleRoot_step (l : list string) :
  (1 < length l)%nat -> computeMerkleRoot l = computeMerkleRoot (newLevel l).
Proof.
  intros H. destruct l as [| x [| y rest]]; cbn in H; try lia.
  apply X402Merkle.computeMerkleRoot_equation_3.
Qed.

Lemma newLevel_length (l : list string) :
  length (newLevel l) = Nat.div2 (S (length l)).
Proof. rewrite (newLevel_nextLayer hashPair). apply MerkleTree.nextLayer_length. Qed.

Lemma createMerkleProof_recomputes_root :
  forall n (l : list string), length l = n ->
    forall i, 0 <= i < Z.of_nat n ->
      verifyMerkleProof_loop hashPair (createMerkleProof_loop l i [])
        (nth (Z.to_nat i) l EmptyString) i = computeMerkleRoot l.
Proof.
  induction n as [n IH] using lt_wf_ind. intros l Hn i Hi.
  destruct (le_lt_dec (length l) 1) as [Hle | Hgt].
  - rewrite createMerkleProof_loop_stop by exact Hle.
    destruct l as [| x [| y rest]]; cbn in Hle, Hn; try lia.
    replace i with 0 by lia. reflexivity.
  - rewrite createMerkleProof_loop_step by exact Hgt.
    rewrite computeMerkleRoot_step by exact Hgt.
    pose proof (newLevel_shorter hashPair l Hgt) as Hshort.
    rewrite (createMerkleProof_loop_acc _ _ eq_refl).
    rewrite sibling_pass_at by lia. rewrite Z.sub_0_r.
    cbn [app verifyMerkleProof_loop].
    assert (Hrem : Z.rem i 2 = i mod 2) by (apply Z.rem_mod_nonneg; lia).
    pose proof (Z.div_mod i 2 ltac:(lia)) as Hdm.
    pose proof (Z.mod_pos_bound i 2 ltac:(lia)) as Hmb.
    set (j := Z.to_nat (i / 2)).
    assert (Hlen' : length (newLevel l) = Nat.div2 (S (length l)))
      by apply newLevel_length.
    assert (Hdiv : (2 * Nat.div2 (S (length l)) >= length l)%nat).
    { rewrite Nat.div2_div.
      pose proof (Nat.div_mod_eq (S (length l)) 2) as Hdm2.
      pose proof (Nat.mod_upper_bound (S (length l)) 2 ltac:(lia)). lia. }
    assert (Hi2 : 0 <= i / 2 < Z.of_nat (length (newLevel l))).
    { split; [apply Z.div_pos; lia |]. apply Z.div_lt_upper_bound; lia. }
    rewrite <- (IH (length (newLevel l)) ltac:(lia) _ eq_refl (i / 2))
      by exact Hi2.
    f_equal.
    fold j. rewrite (newLevel_nth_general j) by (subst j; lia).
    rewrite Hrem. unfold sibling_of.
    destruct (Z.eqb_spec (i mod 2) 0) as [Hev | Hodd].
    + replace (Z.to_nat i) with (2 * j)%nat by (subst j; lia).
      replace (Nat.even (2 * j)) with true
        by (symmetry; apply Nat.even_spec; exists j; lia).
      destruct (2 * j + 1 <? length l)%nat; reflexivity.
    + replace (Z.to_nat i) with (2 * j + 1)%nat by (subst j; lia).
      replace (Nat.even (2 * j + 1)) with false.
      2:{ symmetry. rewrite <- Nat.negb_odd. apply negb_false_iff.
          apply Nat.odd_spec. exists j. lia. }
      replace (2 * j + 1 - 1)%nat with (2 * j)%nat by lia.
      destruct (Nat.ltb_spec (2 * j + 1) (length l)) as [_ | Hge];
        [reflexivity | subst j; lia].
Qed.

(** X26: for every non-empty leaf list, of any length, and every valid
    index, the proof built by [createMerkleProof] verifies with
    [verifyMerkleProof] against [computeMerkleRoot] of the same leaves;
    an unpaired last node takes itself as sibling on both sides. *)
Theorem verifyMerkleProof_createMerkleProof (L : list string) (i : Z) :
  0 <= i < Z.of_nat (length L) ->
  verifyMerkleProof hashPair (nth (Z.to_nat i) L EmptyString)
    (createMerkleProof hashPair L i) (computeMerkleRoot L) i = true.
Proof.
  intros Hi. unfold verifyMerkleProof, createMerkleProof.
  rewrite (createMerkleProof_recomputes_root _ L eq_refl i Hi).
  apply String.eqb_refl.
Qed.

Lemma newLevel_app_even :
  forall l m, Nat.even (length l) = true ->
    newLevel (l ++ m) = newLevel l ++ newLevel m.
Proof.
  induction l as [| x | x y l IH] using pair_induction; intros m Hev.
  - reflexivity.
  - discriminate.
  - cbn [app X402Merkle.newLevel]. rewrite IH by exact Hev. reflexivity.
Qed.

(** X27: [computeMerkleRoot] pairs an unpaired last leaf with itself, so
    a list of odd length (three or more leaves) and the list with its last
    leaf repeated have the same root. *)
Theorem computeMerkleRoot_duplicate_last (l : list string) (x : string) :
  Nat.even (length l) = true -> (2 <= length l)%nat ->
  computeMerkleRoot (l ++ [x]) = computeMerkleRoot (l ++ [x; x]).
Proof.
  intros Hev Hlen.
  rewrite (computeMerkleRoot_step (l ++ [x]))
    by (rewrite length_app; cbn [length]; lia).
  rewrite (computeMerkleRoot_step (l ++ [x; x]))
    by (rewrite length_app; cbn [length]; lia).
  rewrite !newLevel_app_even by exact Hev. reflexivity.
Qed.

End ProtocolMerkle.

Section ProtocolMerkleEvaluation.
Local Open Scope string_scope.
Local Open Scope list_scope.
Local Open Scope Z_scope.

Lemma addLeaf_getProof_stale_witness :
  0 <= 1 < Z.of_nat (length ["a"; "b"; "c"]) /\
  let t := MerkleTree.new String.append ["a"; "b"; "c"] None in
  let t' := fst (MerkleTree.addLeaf String.append "d" t) in
  exists old extra,
    MerkleTree.getProof t 1 = inl old /\
    length old = Nat.max 1 (Nat.log2_up (length ["a"; "b"; "c"])) /\
    MerkleTree.getProof t' 1 = inl (old ++ extra) /\
    (0 < length extra)%nat /\
    extra = MerkleTree.getProof_loop
              (removelast (MerkleTree.layers
                 (rebuilt String.append (["a"; "b"; "c"] ++ ["d"])
                    (MerkleTree.depth t)))) 0 [].
Proof.
  assert (H : 0 <= 1 < Z.of_nat (length ["a"; "b"; "c"])) by (cbn; lia).
  split; [exact H |].
  apply (addLeaf_getProof_stale String.append ["a"; "b"; "c"] "d" 1 H).
Defined.

Lemma verifyMerkleProof_createMerkleProof_witness :
  0 <= 2 < Z.of_nat (length ["a"; "b"; "c"]) /\
  X402Merkle.verifyMerkleProof String.append (nth (Z.to_nat 2) ["a"; "b"; "c"] EmptyString)
    (X402Merkle.createMerkleProof String.append ["a"; "b"; "c"] 2)
    (X402Merkle.computeMerkleRoot String.append ["a"; "b"; "c"]) 2 = true.
Proof.
  assert (H : 0 <= 2 < Z.of_nat (length ["a"; "b"; "c"])) by (cbn; lia).
  split; [exact H |].
  apply (verifyMerkleProof_createMerkleProof String.append ["a"; "b"; "c"] 2 H).
Defined.

Lemma computeMerkleRoot_duplicate_last_witness :
  Nat.even (length ["a"; "b"]) = true /\ (2 <= length ["a"; "b"])%nat /\
  X402Merkle.computeMerkleRoot String.append (["a"; "b"] ++ ["c"]) =
  X402Merkle.computeMerkleRoot String.append (["a"; "b"] ++ ["c"; "c"]).
Proof.
  assert (H1 : Nat.even (length ["a"; "b"]) = true) by reflexivity.
  assert (H2 : (2 <= length ["a"; "b"])%nat) by (cbn; lia).
  split; [exact H1 |]. split; [exact H2 |].
  apply (computeMerkleRoot_duplicate_last String.append ["a"; "b"] "c" H1 H2).
Defined.

End ProtocolMerkleEvaluation.

(** ** Decimal round trip of [bigint] values *)

Section BigIntFacts.
Import JS.

(** A decimal digit character. *)
Definition decimal_char (c : ascii) : Prop := 48 <= code c <= 57.

Lemma code_digit_char (d : Z) : 0 <= d < 10 -> code (digit_char d) = 48 + d.
Proof.
  intros Hd. unfold code, digit_char.
  rewrite nat_ascii_embedding by lia. lia.
Qed.

Lemma decimal_char_digit (c : ascii) : decimal_char c -> is_digit 10 c = true.
Proof.
  unfold decimal_char, is_digit, digit_value. intros H.
  replace (48 <=? code c) with true by (symmetry; apply Z.leb_le; lia).
  replace (code c <=? 57) with true by (symmetry; apply Z.leb_le; lia).
  cbn [andb]. apply Z.ltb_lt. lia.
Qed.

Lemma decimal_char_value (c : ascii) :
  decimal_char c -> digit_value c = Some (code c - 48).
Proof.
  unfold decimal_char, digit_value. intros H.
  replace (48 <=? code c) with true by (symmetry; apply Z.leb_le; lia).
  replace (code c <=? 57) with true by (symmetry; apply Z.leb_le; lia).
  reflexivity.
Qed.

Lemma decimal_char_not_whitespace (c : ascii) :
  decimal_char c -> is_whitespace c = false.
Proof.
  unfold decimal_char, is_whitespace. intros H.
  replace (code c <=? 13) with false by (symmetry; apply Z.leb_gt; lia).
  replace (code c =? 32) with false by (symmetry; apply Z.eqb_neq; lia).
  replace (code c =? 160) with false by (symmetry; apply Z.eqb_neq; lia).
  now rewrite andb_false_r.
Qed.

Lemma digits_value_snoc (base : Z) (l : list ascii) (c : ascii) :
  digits_value base (l ++ [c]) =
  digits_value base l * base + match digit_value c with Some d => d | None => 0 end.
Proof. unfold digits_value. now rewrite fold_left_app. Qed.

Lemma decimal_digits_acc :
  forall fuel n acc,
    decimal_digits fuel n acc = decimal_digits fuel n [] ++ acc.
Proof.
  induction fuel as [| fuel IH]; intros n acc; cbn [decimal_digits].
  - reflexivity.
  - destruct (n <? 10); [reflexivity |].
    rewrite IH, (IH _ [_]), <- app_assoc. reflexivity.
Qed.

Lemma decimal_digits_spec :
  forall fuel n,
    0 <= n < 2 ^ Z.of_nat fuel -> (0 < fuel)%nat ->
    decimal_digits fuel n [] <> [] /\
    Forall decimal_char (decimal_digits fuel n []) /\
    digits_value 10 (decimal_digits fuel n []) = n.
Proof.
  induction fuel as [| fuel IH]; intros n Hn Hfuel; [lia |].
  cbn [decimal_digits].
  pose proof (Z.mod_pos_bound n 10 ltac:(lia)) as Hmod.
  assert (Hlast : decimal_char (digit_char (n mod 10)))
    by (unfold decimal_char; rewrite code_digit_char; lia).
  destruct (Z.ltb_spec n 10) as [Hsmall | Hbig].
  - rewrite Z.mod_small by lia. rewrite Z.mod_small in Hlast by lia.
    repeat split; [discriminate | now constructor |].
    unfold digits_value. cbn [fold_left].
    rewrite decimal_char_value, code_digit_char by (assumption || lia). lia.
  - rewrite decimal_digits_acc.
    assert (Hfuel' : (0 < fuel)%nat).
    { destruct fuel; [| lia]. cbn in Hn. lia. }
    assert (Hdiv : 0 <= n / 10 < 2 ^ Z.of_nat fuel).
    { split; [apply Z.div_pos; lia |].
      apply Z.div_lt_upper_bound; [lia |].
      rewrite Nat2Z.inj_succ, Z.pow_succ_r in Hn by lia. lia. }
    destruct (IH (n / 10) Hdiv Hfuel') as [_ [Hall Hval]].
    repeat split.
    + intros Hnil. apply app_eq_nil in Hnil. destruct Hnil. discriminate.
    + apply Forall_app. split; [assumption | now constructor].
    + rewrite digits_value_snoc, Hval, decimal_char_value, code_digit_char
        by (assumption || lia).
      pose proof (Z.div_mod n 10 ltac:(lia)). lia.
Qed.

Lemma decimal_spec (n : Z) :
  0 <= n ->
  decimal n <> [] /\ Forall decimal_char (decimal n) /\
  digits_value 10 (decimal n) = n.
Proof.
  intros Hn. unfold decimal. apply decimal_digits_spec; [| lia].
  split; [assumption |].
  rewrite Nat2Z.inj_succ, Z2Nat.id by apply Z.log2_nonneg.
  destruct (Z.eq_dec n 0) as [-> | Hnz]; [reflexivity |].
  apply Z.log2_spec. lia.
Qed.

Lemma parse_digits_decimal (l : list ascii) :
  l <> [] -> Forall decimal_char l ->
  parse_digits 10 l = Some (digits_value 10 l).
Proof.
  intros Hne Hall. unfold parse_digits.
  destruct l as [| c rest]; [contradiction |].
  replace (forallb (is_digit 10) (c :: rest)) with true; [reflexivity |].
  symmetry. apply forallb_forall. intros x Hx.
  apply decimal_char_digit. rewrite Forall_forall in Hall. now apply Hall.
Qed.

Lemma last_In {A : Type} (l : list A) (d : A) : l <> [] -> In (last l d) l.
Proof.
  intros Hne. destruct (exists_last Hne) as [front [x Heq]].
  rewrite Heq, last_last. apply in_or_app. right. now left.
Qed.

Lemma drop_whitespace_head (c : ascii) (l : list ascii) :
  is_whitespace c = false -> drop_whitespace (c :: l) = c :: l.
Proof. intros H. cbn. now rewrite H. Qed.

(** A list whose first and last characters are not white space is its own
    trimming. *)
Lemma trim_solid (c : ascii) (l : list ascii) :
  is_whitespace c = false ->
  (forall x, last l c = x -> is_whitespace x = false) ->
  trim (c :: l) = c :: l.
Proof.
  intros Hc Hlast. unfold trim.
  rewrite drop_whitespace_head by assumption.
  assert (Hrev : exists d r, rev (c :: l) = d :: r /\ is_whitespace d = false).
  { destruct (exists_last (l := c :: l) ltac:(discriminate)) as [front [d Heq]].
    exists d, (rev front). rewrite Heq, rev_app_distr. split; [reflexivity |].
    destruct l as [| y l'].
    - destruct front as [| ? [| ? ?]]; cbn in Heq; try discriminate.
      now injection Heq as <-.
    - apply Hlast.
      change (last (c :: y :: l') c = d).
      rewrite Heq. apply last_last. }
  destruct Hrev as [d [r [Hrev Hd]]].
  rewrite Hrev, drop_whitespace_head, <- Hrev by assumption.
  apply rev_involutive.
Qed.

Lemma radix_prefix_decimal (l : list ascii) :
  Forall decimal_char l -> radix_prefix l = None.
Proof.
  intros Hall. destruct l as [| c0 [| c1 rest]]; try reflexivity.
  inversion Hall as [| ? ? _ Hrest]. inversion Hrest as [| ? ? H1 _].
  unfold decimal_char in H1. unfold radix_prefix.
  destruct (code c0 =? 48); [| reflexivity].
  repeat match goal with
         | |- context [code c1 =? ?k] =>
             replace (code c1 =? k) with false by (symmetry; apply Z.eqb_neq; lia)
         end.
  reflexivity.
Qed.

Lemma StringToBigInt_decimal (l : list ascii) :
  l <> [] -> Forall decimal_char l ->
  StringToBigInt (string_of_list_ascii l) = Some (digits_value 10 l).
Proof.
  intros Hne Hall. unfold StringToBigInt.
  rewrite list_ascii_of_string_of_list_ascii.
  destruct l as [| c rest]; [contradiction |].
  assert (Hc : decimal_char c) by now inversion Hall.
  rewrite trim_solid.
  - rewrite radix_prefix_decimal by assumption.
    unfold decimal_char in Hc.
    replace (code c =? 43) with false by (symmetry; apply Z.eqb_neq; lia).
    replace (code c =? 45) with false by (symmetry; apply Z.eqb_neq; lia).
    now apply parse_digits_decimal.
  - now apply decimal_char_not_whitespace.
  - intros x Hx. apply decimal_char_not_whitespace.
    rewrite Forall_forall in Hall. apply Hall.
    destruct rest as [| y rest'].
    + cbn in Hx. subst x. now left.
    + right. subst x. apply last_In. discriminate.
Qed.

(** [BigInt(z.toString())] is [z]. *)
Lemma StringToBigInt_toString (z : Z) :
  StringToBigInt (BigInt_toString z) = Some z.
Proof.
  unfold BigInt_toString. destruct (Z.ltb_spec z 0) as [Hneg | Hpos].
  - destruct (decimal_spec (- z) ltac:(lia)) as [Hne [Hall Hval]].
    unfold StringToBigInt.
    change (list_ascii_of_string (String "-" ?s)) with ("-"%char :: list_ascii_of_string s).
    rewrite list_ascii_of_string_of_list_ascii.
    rewrite trim_solid.
    + replace (radix_prefix ("-"%char :: decimal (- z))) with (@None (Z * list ascii))
        by (destruct (decimal (- z)); reflexivity).
      change (code "-" =? 43) with false. change (code "-" =? 45) with true.
      cbn match. rewrite parse_digits_decimal by assumption.
      cbn [option_map]. rewrite Hval. f_equal. lia.
    + reflexivity.
    + intros x Hx. apply decimal_char_not_whitespace.
      rewrite Forall_forall in Hall. apply Hall.
      subst x. destruct (decimal (- z)) as [| d0 ds] eqn:Hdec; [contradiction |].
      rewrite <- Hdec at 2. rewrite Hdec.
      change (In (last (d0 :: ds) "-"%char) (d0 :: ds)).
      apply last_In. discriminate.
  - destruct (decimal_spec z Hpos) as [Hne [Hall Hval]].
    rewrite StringToBigInt_decimal by assumption. now rewrite Hval.
Qed.


End BigIntFacts.

(** ** Proof verification *)

Section VerifyFacts.
Context {collaborators : Collaborators}.
Import ZKSnark X402Protocol.
Local Open Scope string_scope.
Local Open Scope list_scope.
#[local] Opaque Poseidon.poseidonHash.

Lemma Some_inj {A : Type} (x y : A) : Some x = Some y -> x = y.
Proof. intros H. now inversion H. Qed.

(** The string parses as a strictly positive integer. *)
Definition positive_integer (s : string) : Prop :=
  exists z, JS.StringToBigInt s = Some z /\ 0 < z.

(** [x.length === 3] holds (no arity of the elements is involved). *)
Definition has_length_3 (x : JS.value) : Prop :=
  exists len, JS.get x (JS.Name "length") = Some len /\
              JS.strict_eq_integer len 3 = true.

(** [BigInt(x[i])] is the integer [z]. *)
Definition element_integer (x : JS.value) (i : nat) (z : Z) : Prop :=
  exists e, JS.get x (JS.Index i) = Some e /\ BigInt e = Some z.

(** What a parsed proof and the public inputs must satisfy. *)
Definition acceptable (proof : JS.value) (publicInputs : list string) : Prop :=
  exists pi_a pi_b pi_c a0 a1 c1,
    JS.get proof (JS.Name "protocol") = Some (JS.Str "groth16") /\
    JS.get proof (JS.Name "pi_a") = Some pi_a /\ has_length_3 pi_a /\
    JS.get proof (JS.Name "pi_b") = Some pi_b /\ has_length_3 pi_b /\
    JS.get proof (JS.Name "pi_c") = Some pi_c /\ has_length_3 pi_c /\
    element_integer pi_a 0 a0 /\ element_integer pi_a 1 a1 /\
    element_integer pi_c 1 c1 /\
    Poseidon.poseidonHash [a0; a1] = c1 /\
    Forall positive_integer publicInputs.

Lemma every_positive_true (publicInputs : list string) :
  every_positive publicInputs = Some true <-> Forall positive_integer publicInputs.
Proof.
  induction publicInputs as [| input rest IH]; cbn [every_positive].
  - split; [constructor | reflexivity].
  - destruct (JS.StringToBigInt input) as [z |] eqn:Hz.
    + destruct (Z.gtb_spec z 0) as [Hpos | Hnpos].
      * rewrite IH. split.
        -- intros Hall. constructor; [exists z; split; [assumption | lia] | assumption].
        -- intros Hall. now inversion Hall.
      * split; [discriminate |]. intros Hall.
        inversion Hall as [| ? ? [z' [Hz' Hpos']] _]. rewrite Hz in Hz'.
        injection Hz' as <-. lia.
    + split; [discriminate |]. intros Hall.
      inversion Hall as [| ? ? [z' [Hz' _]] _]. rewrite Hz in Hz'. discriminate.
Qed.

Lemma strict_eq_string_true (v : JS.value) (literal : string) :
  JS.strict_eq_string v literal = true -> v = JS.Str literal.
Proof.
  destruct v; try discriminate. cbn. intros H.
  apply String.eqb_eq in H. now subst.
Qed.

Ltac invert_bind H :=
  match type of H with
  | match ?e with Some _ => _ | None => None end = Some _ =>
      let E := fresh "E" in destruct e eqn:E; [| discriminate H]
  | (if ?b then _ else _) = Some _ =>
      let E := fresh "E" in destruct b eqn:E; try discriminate H
  end.

Lemma verifyProof_try_true (proofStr : string) (publicInputs : list string) :
  verifyProof_try proofStr publicInputs = Some true ->
  exists proof, JSON_parse proofStr = Some proof /\ acceptable proof publicInputs.
Proof.
  unfold verifyProof_try, length_is_3. intros H.
  repeat invert_bind H.
  apply Some_inj in H.
  apply andb_prop in H. destruct H as [H Hpub].
  apply andb_prop in H. destruct H as [Hvalid Hhash].
  apply Z.eqb_eq in Hhash.
  apply negb_false_iff, strict_eq_string_true in E1.
  rewrite Hvalid in *. rewrite Hpub in *. clear Hvalid Hpub E5.
  destruct (JS.get v1 (JS.Name "length")) as [la |] eqn:Ela; [| discriminate E3].
  apply Some_inj in E3.
  destruct b; [| discriminate E4].
  destruct (JS.get v (JS.Name "pi_b")) as [v6 |] eqn:Eb; [| discriminate E4].
  destruct (JS.get v6 (JS.Name "length")) as [lb |] eqn:Elb; [| discriminate E4].
  destruct (JS.strict_eq_integer lb 3) eqn:Elb3; [| discriminate E4].
  destruct (JS.get v4 (JS.Name "length")) as [lc |] eqn:Elc; [| discriminate E4].
  apply Some_inj in E4.
  exists v. split; [reflexivity |].
  exists v1, v6, v4, z, z0, z1.
  split; [rewrite E0, E1; reflexivity |].
  split; [exact E2 |].
  split; [exists la; split; assumption |].
  split; [exact Eb |].
  split; [exists lb; split; assumption |].
  split; [exact E10 |].
  split; [exists lc; split; assumption |].
  split; [exists v2; split; assumption |].
  split; [exists v3; split; assumption |].
  split; [exists v5; split; assumption |].
  split; [exact Hhash |].
  now apply every_positive_true.
Qed.

Lemma verifyProof_try_acceptable (proofStr : string) (publicInputs : list string)
  (proof : JS.value) :
  JSON_parse proofStr = Some proof -> acceptable proof publicInputs ->
  verifyProof_try proofStr publicInputs = Some true.
Proof.
  intros Hparse (pi_a & pi_b & pi_c & a0 & a1 & c1 & Hproto & Ha & [la [Hla Hla3]]
                 & Hb & [lb [Hlb Hlb3]] & Hc & [lc [Hlc Hlc3]]
                 & [e0 [He0 Hz0]] & [e1 [He1 Hz1]] & [e2 [He2 Hz2]] & Hhash & Hpub).
  unfold verifyProof_try, length_is_3.
  rewrite Hparse, Hproto. cbn [JS.strict_eq_string]. rewrite String.eqb_refl.
  cbn [negb]. rewrite Ha, Hla, Hla3, Hb, Hlb, Hlb3, Hc, Hlc, Hlc3.
  cbn [negb]. rewrite He0, Hz0, He1, Hz1, He2, Hz2, Hhash, Z.eqb_refl.
  apply every_positive_true in Hpub. rewrite Hpub. reflexivity.
Qed.

(** C1, amended: [verifyProof] (and [verifyPrivateTransaction], which
    returns its answer) is a total boolean function; it answers [true]
    exactly when the proof string parses, the parsed value has protocol
    'groth16', its members pi_a, pi_b and pi_c each have [length] 3 (the
    elements of pi_b are not inspected), the permutation hash of
    [BigInt(pi_a[0])] and [BigInt(pi_a[1])] equals [BigInt(pi_c[1])], and
    every public input parses as a strictly positive integer.  A string
    that [JSON.parse] rejects gives [false]. *)
Theorem verifyProof_true_iff (proofStr : string) (publicInputs : list string) :
  (verifyProof proofStr publicInputs = true <->
   exists proof, JSON_parse proofStr = Some proof /\ acceptable proof publicInputs) /\
  (JSON_parse proofStr = None -> verifyProof proofStr publicInputs = false) /\
  (forall e n c,
     verifyPrivateTransaction
       {| encryptedAmount := e; proof := proofStr; nullifier := n;
          commitment := c; publicInputs := publicInputs |} =
     verifyProof proofStr publicInputs).
Proof.
  repeat split.
  - unfold verifyProof. intros H.
    destruct (verifyProof_try proofStr publicInputs) as [[|] |] eqn:E;
      try discriminate.
    now apply verifyProof_try_true.
  - intros [proof [Hparse Hacc]]. unfold verifyProof.
    now rewrite (verifyProof_try_acceptable _ _ _ Hparse Hacc).
  - intros Hnone. unfold verifyProof, verifyProof_try. now rewrite Hnone.
Qed.

End VerifyFacts.

(** ** Creating and verifying a private transaction *)

Section CreateFacts.
Context {collaborators : Collaborators}.
Import ZKSnark X402Protocol.
Local Open Scope string_scope.
Local Open Scope list_scope.
#[local] Opaque Poseidon.poseidonHash.

(** [JSON.parse] gives back the proof object that [JSON.stringify] was
    applied to. *)
Definition JSON_round_trip (p : Proof) : Prop :=
  JSON_parse (serializeProof p) = Some (Proof_value p).



(** Verification of a well-shaped proof object, step by step. *)
Lemma verifyProof_try_Proof_value (proofStr : string) (publicInputs : list string)
  (x0 x1 x2 y0 y1 y2 : string) (r0 r1 r2 : list string)
  (cv : string) :
  JSON_parse proofStr =
    Some (Proof_value {| pi_a := [x0; x1; x2]; pi_b := [r0; r1; r2];
                         pi_c := [y0; y1; y2]; protocol := "groth16";
                         curve := cv |}) ->
  verifyProof_try proofStr publicInputs =
    (a0 <- JS.StringToBigInt x0 ;;
     a1 <- JS.StringToBigInt x1 ;;
     c1 <- JS.StringToBigInt y1 ;;
     valid <- every_positive publicInputs ;;
     Some ((Poseidon.poseidonHash [a0; a1] =? c1)%Z && valid)).
Proof.
  intros Hparse. unfold verifyProof_try. rewrite Hparse.
  cbn -[JS.StringToBigInt Poseidon.poseidonHash every_positive].
  destruct (JS.StringToBigInt x0); [| reflexivity].
  destruct (JS.StringToBigInt x1); [| reflexivity].
  destruct (JS.StringToBigInt y1); reflexivity.
Qed.






(** A proof object of the right shape verifies once its integers are
    known and the hash matches. *)
Lemma verifyProof_parts (proofStr : string) (publicInputs : list string)
  (x0 x1 x2 y0 y1 y2 : string) (r0 r1 r2 : list string) (cv : string)
  (a0 a1 : Z) :
  JSON_parse proofStr =
    Some (Proof_value {| pi_a := [x0; x1; x2]; pi_b := [r0; r1; r2];
                         pi_c := [y0; y1; y2]; protocol := "groth16";
                         curve := cv |}) ->
  JS.StringToBigInt x0 = Some a0 ->
  JS.StringToBigInt x1 = Some a1 ->
  JS.StringToBigInt y1 = Some (Poseidon.poseidonHash [a0; a1]) ->
  every_positive publicInputs = Some true ->
  verifyProof proofStr publicInputs = true.
Proof.
  intros Hparse H0 H1 Hc Hpub. unfold verifyProof.
  rewrite (verifyProof_try_Proof_value _ _ _ _ _ _ _ _ _ _ _ _ Hparse).
  rewrite H0, H1, Hc, Hpub, Z.eqb_refl. reflexivity.
Qed.

Lemma verifyProof_shaped (proofStr : string) (publicInputs : list string)
  (p : Proof) (a0 a1 : Z) :
  length (pi_a p) = 3%nat -> length (pi_b p) = 3%nat -> length (pi_c p) = 3%nat ->
  protocol p = "groth16" ->
  JSON_parse proofStr = Some (Proof_value p) ->
  JS.StringToBigInt (nth 0 (pi_a p) EmptyString) = Some a0 ->
  JS.StringToBigInt (nth 1 (pi_a p) EmptyString) = Some a1 ->
  JS.StringToBigInt (nth 1 (pi_c p) EmptyString) = Some (Poseidon.poseidonHash [a0; a1]) ->
  every_positive publicInputs = Some true ->
  verifyProof proofStr publicInputs = true.
Proof.
  destruct p as [pa pb pc pr cv]. cbn [pi_a pi_b pi_c protocol].
  intros Ha Hb Hc ->.
  destruct pa as [| x0 [| x1 [| x2 [| ? ?]]]]; try discriminate Ha.
  destruct pb as [| r0 [| r1 [| r2 [| ? ?]]]]; try discriminate Hb.
  destruct pc as [| y0 [| y1 [| y2 [| ? ?]]]]; try discriminate Hc.
  cbn [nth]. apply verifyProof_parts.
Qed.

End CreateFacts.

(** ** Evaluation on concrete transactions, with the reference collaborators *)

Section Evaluation.
Import ZKSnark X402Protocol.
Local Open Scope string_scope.
Local Open Scope list_scope.
Local Existing Instance Reference.collaborators.
#[local] Opaque Poseidon.poseidonHash.

Ltac by_evaluation :=
  match goal with
  | |- @eq ?T _ ?y => vm_cast_no_check (@eq_refl T y)
  end.

(** [verifyProof_shaped] on a concrete proof, given the value of the one
    permutation hash involved. *)
Ltac shaped_proof p a0 a1 hash_value public_inputs :=
  apply (verifyProof_shaped _ _ p a0 a1);
  [ reflexivity | reflexivity | reflexivity | reflexivity
  | by_evaluation | by_evaluation | by_evaluation
  | rewrite hash_value; by_evaluation
  | first [exact public_inputs | by_evaluation] ].

Definition sample_from : string := "0x1111111111111111111111111111111111111111".
Definition sample_to : string := "0x2222222222222222222222222222222222222222".

Definition sample_nullifier : string := Eval vm_compute in
  match generateNullifier sample_from "secret1" with
  | Some n => n
  | None => EmptyString
  end.

Definition sample_commitment : string := Eval vm_compute in
  match generateCommitment sample_to 100 sample_nullifier with
  | Some c => c
  | None => EmptyString
  end.

Definition sample_inputs : ProofInput :=
  {| input_from := Some sample_from;
     input_to := Some sample_to;
     input_amount := Some (JS.BigInt_toString 100);
     input_nullifier := Some sample_nullifier;
     input_commitment := Some sample_commitment;
     input_secret := Some "secret1" |}.

Definition sample_witness : list Z := Eval vm_compute in
  match calculateWitness sample_inputs with
  | Some w => w
  | None => []
  end.

(** The nullifier hash as an integer, [witness[2]]. *)
Definition sample_a1 : Z := Eval vm_compute in nth 2 sample_witness 0.

Definition sample_hash : Z := Eval vm_compute in
  Poseidon.hash [100; sample_a1].

Lemma sample_hash_value : Poseidon.poseidonHash [100; sample_a1] = sample_hash.
Proof. by_evaluation. Qed.

Definition sample_proof : Proof := Eval vm_compute in
  {| pi_a := [element_string sample_witness 1 "0"; element_string sample_witness 2 "0"; "1"];
     pi_b := [[element_string sample_witness 3 "0"; element_string sample_witness 4 "0"];
              [element_string sample_witness 5 "0"; element_string sample_witness 6 "0"];
              ["1"; "0"]];
     pi_c := [element_string sample_witness 0 "1"; JS.BigInt_toString sample_hash; "1"];
     protocol := "groth16";
     curve := "bn128" |}.

Definition sample_tx : PrivateTransaction := Eval vm_compute in
  {| encryptedAmount := "0x00";
     proof := serializeProof sample_proof;
     nullifier := sample_nullifier;
     commitment := sample_commitment;
     publicInputs := [sample_nullifier; sample_commitment] |}.



Example sample_tx_proof : proof sample_tx = serializeProof sample_proof.
Proof. by_evaluation. Qed.


Lemma sample_public_inputs :
  every_positive [sample_nullifier; sample_commitment] = Some true.
Proof. by_evaluation. Qed.

(** The created transaction verifies, the reference [JSON.parse] reading
    back the serialised proof. *)
Example sample_tx_verifies : verifyPrivateTransaction sample_tx = true.
Proof.
  unfold verifyPrivateTransaction.
  change (publicInputs sample_tx) with [sample_nullifier; sample_commitment].
  shaped_proof sample_proof 100 sample_a1 sample_hash_value sample_public_inputs.
Qed.



(** A proof object whose [pi_b] has three empty rows. *)
Definition loose_proof : Proof := Eval vm_compute in
  {| pi_a := pi_a sample_proof; pi_b := [[]; []; []]; pi_c := pi_c sample_proof;
     protocol := "groth16"; curve := "bn128" |}.

Definition loose_proof_text : string := Eval vm_compute in
  serializeProof loose_proof.

(** Every row of [pi_b] has [length] 2. *)
Definition rows_of_two (pi_b : JS.value) : Prop :=
  forall i row, (i < 3)%nat -> JS.get pi_b (JS.Index i) = Some row ->
    exists len, JS.get row (JS.Name "length") = Some len /\
                JS.strict_eq_integer len 2 = true.

(** C1 as stated fails: a proof whose [pi_b] is not 3x2 is accepted. *)
Lemma loose_proof_accepted :
  verifyProof loose_proof_text ["1"] = true /\
  exists proof pi_b,
    JSON_parse loose_proof_text = Some proof /\
    JS.get proof (JS.Name "pi_b") = Some pi_b /\
    ~ rows_of_two pi_b.
Proof.
  split.
  - shaped_proof loose_proof 100 sample_a1 sample_hash_value sample_public_inputs.
  - exists (Proof_value loose_proof), (JS.Arr [JS.Arr []; JS.Arr []; JS.Arr []]).
    split; [by_evaluation |]. split; [reflexivity |].
    intros Hrows.
    destruct (Hrows O (JS.Arr []) ltac:(lia) eq_refl) as [len [Hlen H2]].
    cbn in Hlen. injection Hlen as <-. discriminate H2.
Qed.

Example malformed_json_rejected : verifyProof "{not json" ["1"] = false.
Proof. by_evaluation. Qed.

End Evaluation.

(** ** What a proof is bound to *)

Section ProofBinding.
Context {collaborators : Collaborators}.
Import ZKSnark X402Protocol.
Local Open Scope string_scope.
Local Open Scope list_scope.
Local Open Scope Z_scope.
#[local] Opaque Poseidon.poseidonHash.

(** X28: [batchTransactions] rejects on every input.  The object it hands
    to [generateProof] has none of the members [calculateWitness] reads,
    so the witness is [[1]], and [createProof] then feeds the absent
    [witness[1]] to the permutation hash, which throws. *)
Theorem batchTransactions_always_fails (hashPair : string -> string -> string)
  (transactions : list PrivateTransaction) :
  batchTransactions hashPair transactions = None /\
  calculateWitness {| input_from := None; input_to := None; input_amount := None;
                      input_nullifier := None; input_commitment := None;
                      input_secret := None |} = Some [1] /\
  createProof [1] = None.
Proof. split; [reflexivity | split; reflexivity]. Qed.

(** X29: a proof is not bound to the transaction that carries it.  If
    [verifyPrivateTransaction] accepts a transaction, it accepts the same
    proof string with any other encrypted amount, nullifier and
    commitment, and with any public inputs that parse to positive
    integers (none at all included). *)
Theorem verifyPrivateTransaction_unbound (tx : PrivateTransaction)
  (others : list string) :
  verifyPrivateTransaction tx = true ->
  Forall positive_integer others ->
  forall e n c,
    verifyPrivateTransaction
      {| encryptedAmount := e; proof := proof tx; nullifier := n;
         commitment := c; publicInputs := others |} = true.
Proof.
  unfold verifyPrivateTransaction, verifyProof. cbn [proof publicInputs].
  intros Hok Hothers _ _ _.
  destruct (verifyProof_try (proof tx) (publicInputs tx)) as [[|] |] eqn:Htry;
    try discriminate Hok.
  destruct (verifyProof_try_true _ _ Htry) as [parsed [Hparse Hacc]].
  destruct Hacc as (pi_a & pi_b & pi_c & a0 & a1 & c1 & Hpr & Ha & Ha3 & Hb & Hb3
                    & Hc & Hc3 & Ha0 & Ha1 & Hc1 & Hhash & _).
  rewrite (verifyProof_try_acceptable (proof tx) others parsed Hparse);
    [reflexivity |].
  exists pi_a, pi_b, pi_c, a0, a1, c1. repeat (split; [assumption |]).
  exact Hothers.
Qed.

(** X30: no secret is needed to be accepted.  For any two integers [a0]
    and [a1], the proof object whose [pi_a] starts with their decimal
    strings and whose [pi_c[1]] is the decimal string of their permutation
    hash is accepted with any positive public inputs, whatever the other
    entries, the rows of [pi_b] and the curve are ([JSON.parse] reading
    back what [JSON.stringify] wrote). *)
Theorem verifyProof_accepts_consistent_proof (a0 a1 : Z) (x y z cv : string)
  (r0 r1 r2 : list string) (publicInputs : list string) :
  let p := {| pi_a := [JS.BigInt_toString a0; JS.BigInt_toString a1; x];
              pi_b := [r0; r1; r2];
              pi_c := [y; JS.BigInt_toString (Poseidon.poseidonHash [a0; a1]); z];
              protocol := "groth16";
              curve := cv |} in
  JSON_round_trip p ->
  Forall positive_integer publicInputs ->
  verifyProof (serializeProof p) publicInputs = true.
Proof.
  intros p Hrt Hpos. subst p.
  apply (verifyProof_parts _ _ _ _ _ _ _ _ _ _ _ _ a0 a1 Hrt).
  - apply StringToBigInt_toString.
  - apply StringToBigInt_toString.
  - apply StringToBigInt_toString.
  - apply every_positive_true. exact Hpos.
Qed.

End ProofBinding.

Section ProofBindingEvaluation.
Import ZKSnark X402Protocol.
Local Open Scope string_scope.
Local Open Scope list_scope.
Local Open Scope Z_scope.
Local Existing Instance Reference.collaborators.
#[local] Opaque Poseidon.poseidonHash.

Lemma seven_positive : Forall positive_integer ["7"].
Proof.
  constructor; [| constructor]. exists 7. split; [reflexivity | lia].
Qed.

Lemma verifyPrivateTransaction_unbound_witness :
  verifyPrivateTransaction sample_tx = true /\
  Forall positive_integer ["7"] /\
  forall e n c,
    verifyPrivateTransaction
      {| encryptedAmount := e; proof := proof sample_tx; nullifier := n;
         commitment := c; publicInputs := ["7"] |} = true.
Proof.
  split; [exact sample_tx_verifies |].
  split; [exact seven_positive |].
  apply (verifyPrivateTransaction_unbound sample_tx ["7"]
           sample_tx_verifies seven_positive).
Defined.

(** A proof object written without any witness: [pi_a] names 100 and the
    sample nullifier, [pi_b] is empty rows, the curve is not bn128. *)
Definition forged_proof : Proof :=
  {| pi_a := [JS.BigInt_toString 100; JS.BigInt_toString sample_a1; "x"];
     pi_b := [[]; []; []];
     pi_c := ["y"; JS.BigInt_toString (Poseidon.poseidonHash [100; sample_a1]); "z"];
     protocol := "groth16";
     curve := "none" |}.

Lemma forged_proof_round_trip : JSON_round_trip forged_proof.
Proof.
  unfold JSON_round_trip, forged_proof.
  rewrite sample_hash_value.
  match goal with
  | |- @eq ?T _ ?y => vm_cast_no_check (@eq_refl T y)
  end.
Qed.

Lemma verifyProof_accepts_consistent_proof_witness :
  JSON_round_trip forged_proof /\
  Forall positive_integer ["7"] /\
  verifyProof (serializeProof forged_proof) ["7"] = true.
Proof.
  split; [exact forged_proof_round_trip |].
  split; [exact seven_positive |].
  apply (verifyProof_accepts_consistent_proof 100 sample_a1 "x" "y" "z" "none"
           [] [] [] ["7"] forged_proof_round_trip seven_positive).
Defined.

End ProofBindingEvaluation.
